(** * A shallow embedding of [generate_family_tree.py]

    The development follows the Python source function by function: the
    GEDCOM line parser, the name and date normalisers, the lookup by name,
    the descendant walk and the page slug; then the sort by birth, the
    selection of the base couple, the person card, the children and the
    links of the pages, and the biographies.  The definitions come first,
    the properties after them.

    Conventions of the embedding.
    - A Python [str] is a [string]; its characters stand for the code
      points U+0000 .. U+00FF, and the character classes and case mappings
      are those of Python on that range.
    - A Python [dict] is an association list in insertion order without
      duplicate keys ([dict_set] replaces in place, as Python does).
    - A Python [set] of identifiers is a [gset string].
    - The records the parser builds are objects that are mutated through
      more than one name; they live in a store and are named by reference.
    - Code that can raise returns in the [result] monad; [try]/[except] is
      [try_except].
    - [datetime.strptime] is the backtracking match of the regular
      expression of each directive, with the month names of the C locale.
    - A loop that the source writes with [while] takes fuel, and the
      function that calls it supplies enough. *)

From Stdlib Require Import ZArith Lia Ascii String List Sorted DecimalString.
From stdpp Require Import base decidable option list sets gmap strings.

Set Warnings "-clear-no-such-hyp".

Local Open Scope Z_scope.
Local Open Scope nat_scope.

(** ** Exceptions *)

Inductive exn : Type :=
| ValueError (msg : string)
| TypeError (msg : string).

Definition result (A : Type) : Type := exn + A.

Definition raise {A} (e : exn) : result A := inl e.
Definition try_except {A} (m : result A) (handler : exn → result A) : result A :=
  match m with
  | inl e => handler e
  | inr a => inr a
  end.

#[global] Instance result_ret : MRet result := fun A a => inr a.
#[global] Instance result_bind : MBind result := fun A B k m =>
  match m with
  | inl e => inl e
  | inr a => k a
  end.

#[global] Instance result_fmap : FMap result := fun A B f m =>
  match m with
  | inl e => inl e
  | inr a => inr (f a)
  end.

(** ** Data model *)

Record Event : Type := mkEvent {
  date : option string;
  place : option string
}.

Record Individual : Type := mkIndividual {
  ind_id : string;
  name : string;
  given_name : string;
  surname : string;
  sex : string;
  famc : option string;
  fams : list string;
  birth : Event;
  death : Event
}.

Record Family : Type := mkFamily {
  fam_id : string;
  husband : option string;
  wife : option string;
  children : list string;
  marriage : Event
}.

(** The dataclass defaults. *)
Definition new_Event : Event := mkEvent None None.
Definition new_Individual (i : string) : Individual :=
  mkIndividual i "" "" "" "" None [] new_Event new_Event.
Definition new_Family (i : string) : Family :=
  mkFamily i None None [] new_Event.

(** ** Dictionaries *)

Definition dict (V : Type) : Type := list (string * V).

Fixpoint dict_get {V} (d : dict V) (k : string) : option V :=
  match d with
  | [] => None
  | (k', v) :: d' => if decide (k' = k) then Some v else dict_get d' k
  end.

Fixpoint dict_set {V} (k : string) (v : V) (d : dict V) : dict V :=
  match d with
  | [] => [(k, v)]
  | (k', v') :: d' =>
      if decide (k' = k) then (k, v) :: d' else (k', v') :: dict_set k v d'
  end.

Definition dict_values {V} (d : dict V) : list V := map snd d.
Definition dict_keys {V} (d : dict V) : list string := map fst d.

(** ** Strings *)

Definition code (c : ascii) : nat := nat_of_ascii c.
Definition between (lo hi : nat) (c : ascii) : bool :=
  (lo <=? code c) && (code c <=? hi).

Definition LF : ascii := ascii_of_nat 10.
Definition CR : ascii := ascii_of_nat 13.

Definition is_digit (c : ascii) : bool := between 48 57 c.
Definition is_ascii_upper (c : ascii) : bool := between 65 90 c.
Definition is_ascii_lower (c : ascii) : bool := between 97 122 c.
Definition is_ascii_alpha (c : ascii) : bool :=
  is_ascii_upper c || is_ascii_lower c.

(** [str.isspace] and the regular expression class [\s] below U+0100. *)
Definition is_space (c : ascii) : bool :=
  between 9 13 c || between 28 32 c
  || (code c =? 133) || (code c =? 160).

Definition str_truthy (s : string) : bool :=
  match s with
  | EmptyString => false
  | String _ _ => true
  end.

Fixpoint char_in (chars : string) (c : ascii) : bool :=
  match chars with
  | EmptyString => false
  | String d chars' => if decide (d = c) then true else char_in chars' c
  end.

Fixpoint lstrip_by (p : ascii → bool) (s : string) : string :=
  match s with
  | EmptyString => EmptyString
  | String c s' => if p c then lstrip_by p s' else s
  end.

(** A character goes when it is in the class and all that follows goes. *)
Fixpoint rstrip_by (p : ascii → bool) (s : string) : string :=
  match s with
  | EmptyString => EmptyString
  | String c s' =>
      match rstrip_by p s' with
      | EmptyString => if p c then EmptyString else String c EmptyString
      | r => String c r
      end
  end.

Definition strip_by (p : ascii → bool) (s : string) : string :=
  rstrip_by p (lstrip_by p s).

(** [s.rstrip(chars)], [s.strip(chars)] and [s.strip()]. *)
Definition rstrip (s chars : string) : string := rstrip_by (char_in chars) s.
Definition strip (s chars : string) : string := strip_by (char_in chars) s.
Definition strip_ws (s : string) : string := strip_by is_space s.

Fixpoint startswith (s prefix : string) : bool :=
  match prefix, s with
  | EmptyString, _ => true
  | String p prefix', String c s' =>
      if decide (c = p) then startswith s' prefix' else false
  | String _ _, EmptyString => false
  end.

Fixpoint str_rev_onto (s acc : string) : string :=
  match s with
  | EmptyString => acc
  | String c s' => str_rev_onto s' (String c acc)
  end.
Definition str_rev (s : string) : string := str_rev_onto s EmptyString.

Definition endswith (s suffix : string) : bool :=
  startswith (str_rev s) (str_rev suffix).

(** [needle in s]. *)
Fixpoint contains (s needle : string) : bool :=
  startswith s needle
  || match s with
     | EmptyString => false
     | String _ s' => contains s' needle
     end.

(** The text before and after the first [sep], if there is one. *)
Fixpoint cut (sep : ascii) (s : string) : option (string * string) :=
  match s with
  | EmptyString => None
  | String c s' =>
      if decide (c = sep) then Some (EmptyString, s')
      else match cut sep s' with
           | None => None
           | Some (a, b) => Some (String c a, b)
           end
  end.

(** [s.split(sep, maxsplit)] for a one-character separator. *)
Fixpoint split (sep : ascii) (maxsplit : nat) (s : string) : list string :=
  match maxsplit with
  | 0 => [s]
  | S n =>
      match cut sep s with
      | None => [s]
      | Some (a, b) => a :: split sep n b
      end
  end.

(** [int(s)]: surrounding white space, a sign, then decimal digits which
    single underscores may separate.  The white space [int] skips is that
    of [str.isspace] without U+001C .. U+001F; a literal of more than
    [int_max_str_digits] digits is refused. *)
Definition is_int_space (c : ascii) : bool :=
  between 9 13 c || (code c =? 32) || (code c =? 133) || (code c =? 160).

Definition digit_value (c : ascii) : Z := Z.of_nat (code c - 48).

Fixpoint int_digits (acc : Z) (after_digit : bool) (s : string) : option Z :=
  match s with
  | EmptyString => if after_digit then Some acc else None
  | String c s' =>
      if is_digit c then int_digits (10 * acc + digit_value c)%Z true s'
      else if decide (c = "_"%char) then
        if after_digit then int_digits acc false s' else None
      else None
  end.

Fixpoint count_digits (s : string) : nat :=
  match s with
  | EmptyString => 0
  | String c s' => (if is_digit c then 1 else 0) + count_digits s'
  end.

Definition int_max_str_digits : nat := 4300.

Definition py_int (s : string) : result Z :=
  let body := strip_by is_int_space s in
  let parsed :=
    match body with
    | String "-" digits => Z.opp <$> int_digits 0 false digits
    | String "+" digits => int_digits 0 false digits
    | _ => int_digits 0 false body
    end in
  match parsed with
  | Some z =>
      if int_max_str_digits <? count_digits body
      then raise (ValueError "Exceeds the limit for integer string conversion")
      else mret z
  | None => raise (ValueError "invalid literal for int() with base 10")
  end.

(** ** [GedcomParser.parse] *)

(** Attribute assignments on the dataclasses. *)
Definition set_date (v : string) (e : Event) : Event :=
  mkEvent (Some v) (place e).
Definition set_place (v : string) (e : Event) : Event :=
  mkEvent (date e) (Some v).

Definition set_name (v : string) (i : Individual) : Individual :=
  mkIndividual (ind_id i) v (given_name i) (surname i) (sex i) (famc i)
    (fams i) (birth i) (death i).
Definition set_given_name (v : string) (i : Individual) : Individual :=
  mkIndividual (ind_id i) (name i) v (surname i) (sex i) (famc i)
    (fams i) (birth i) (death i).
Definition set_surname (v : string) (i : Individual) : Individual :=
  mkIndividual (ind_id i) (name i) (given_name i) v (sex i) (famc i)
    (fams i) (birth i) (death i).
Definition set_sex (v : string) (i : Individual) : Individual :=
  mkIndividual (ind_id i) (name i) (given_name i) (surname i) v (famc i)
    (fams i) (birth i) (death i).
Definition set_famc (v : string) (i : Individual) : Individual :=
  mkIndividual (ind_id i) (name i) (given_name i) (surname i) (sex i)
    (Some v) (fams i) (birth i) (death i).
Definition append_fams (v : string) (i : Individual) : Individual :=
  mkIndividual (ind_id i) (name i) (given_name i) (surname i) (sex i)
    (famc i) (fams i ++ [v]) (birth i) (death i).
Definition on_birth (f : Event → Event) (i : Individual) : Individual :=
  mkIndividual (ind_id i) (name i) (given_name i) (surname i) (sex i)
    (famc i) (fams i) (f (birth i)) (death i).
Definition on_death (f : Event → Event) (i : Individual) : Individual :=
  mkIndividual (ind_id i) (name i) (given_name i) (surname i) (sex i)
    (famc i) (fams i) (birth i) (f (death i)).

Definition set_husband (v : string) (f : Family) : Family :=
  mkFamily (fam_id f) (Some v) (wife f) (children f) (marriage f).
Definition set_wife (v : string) (f : Family) : Family :=
  mkFamily (fam_id f) (husband f) (Some v) (children f) (marriage f).
Definition append_children (v : string) (f : Family) : Family :=
  mkFamily (fam_id f) (husband f) (wife f) (children f ++ [v]) (marriage f).
Definition on_marriage (g : Event → Event) (f : Family) : Family :=
  mkFamily (fam_id f) (husband f) (wife f) (children f) (g (marriage f)).

(** The state of the loop in [parse].  The record objects live in two
    stores and are named by their position there; the two dictionaries and
    the two [current_] variables hold such references, so that a record
    reached through [current_individual] is the very object the dictionary
    holds. *)
Record parser_state : Type := mkState {
  ind_store : list Individual;
  fam_store : list Family;
  ps_individuals : dict nat;
  ps_families : dict nat;
  current_individual : option nat;
  current_family : option nat;
  current_section : option string
}.

Definition initial_state : parser_state :=
  mkState [] [] [] [] None None None.

Definition with_context (ci cf : option nat) (cs : option string)
    (st : parser_state) : parser_state :=
  mkState (ind_store st) (fam_store st) (ps_individuals st) (ps_families st)
    ci cf cs.

(** [current_individual = Individual(id=pointer);
     individuals[pointer] = current_individual]. *)
Definition open_individual (pointer : string) (st : parser_state)
    : parser_state :=
  let ref := length (ind_store st) in
  mkState (ind_store st ++ [new_Individual pointer]) (fam_store st)
    (dict_set pointer ref (ps_individuals st)) (ps_families st)
    (Some ref) (current_family st) (current_section st).

Definition open_family (pointer : string) (st : parser_state)
    : parser_state :=
  let ref := length (fam_store st) in
  mkState (ind_store st) (fam_store st ++ [new_Family pointer])
    (ps_individuals st) (dict_set pointer ref (ps_families st))
    (current_individual st) (Some ref) (current_section st).

(** A mutation of the object behind a reference. *)
Definition update_individual (ref : nat) (f : Individual → Individual)
    (st : parser_state) : parser_state :=
  mkState (alter f ref (ind_store st)) (fam_store st)
    (ps_individuals st) (ps_families st)
    (current_individual st) (current_family st) (current_section st).

Definition update_family (ref : nat) (f : Family → Family)
    (st : parser_state) : parser_state :=
  mkState (ind_store st) (alter f ref (fam_store st))
    (ps_individuals st) (ps_families st)
    (current_individual st) (current_family st) (current_section st).

Definition is_pointer (pointer : option string) : bool :=
  match pointer with
  | Some p => str_truthy p
  | None => false
  end.

Definition level0 (pointer : option string) (tag : string)
    (st : parser_state) : parser_state :=
  let st := with_context None None None st in
  match pointer with
  | Some p =>
      if bool_decide (tag = "INDI") && str_truthy p then open_individual p st
      else if bool_decide (tag = "FAM") && str_truthy p then open_family p st
      else st
  | None => st
  end.

Definition level1 (tag value : string) (st : parser_state) : parser_state :=
  let st :=
    with_context (current_individual st) (current_family st) (Some tag) st in
  match current_individual st, current_family st with
  | Some ref, _ =>
      if bool_decide (tag = "NAME") then update_individual ref (set_name value) st
      else if bool_decide (tag = "GIVN") then
        update_individual ref (set_given_name value) st
      else if bool_decide (tag = "SURN") then
        update_individual ref (set_surname value) st
      else if bool_decide (tag = "SEX") then
        update_individual ref (set_sex value) st
      else if bool_decide (tag = "FAMC") then
        update_individual ref (set_famc value) st
      else if bool_decide (tag = "FAMS") then
        update_individual ref (append_fams value) st
      else st
  | None, Some ref =>
      if bool_decide (tag = "HUSB") then update_family ref (set_husband value) st
      else if bool_decide (tag = "WIFE") then
        update_family ref (set_wife value) st
      else if bool_decide (tag = "CHIL") then
        update_family ref (append_children value) st
      else st
  | None, None => st
  end.

Definition level2 (tag value : string) (st : parser_state) : parser_state :=
  match current_individual st, current_family st with
  | Some ref, _ =>
      if bool_decide (current_section st = Some "BIRT") then
        if bool_decide (tag = "DATE") then
          update_individual ref (on_birth (set_date value)) st
        else if bool_decide (tag = "PLAC") then
          update_individual ref (on_birth (set_place value)) st
        else st
      else if bool_decide (current_section st = Some "DEAT") then
        if bool_decide (tag = "DATE") then
          update_individual ref (on_death (set_date value)) st
        else if bool_decide (tag = "PLAC") then
          update_individual ref (on_death (set_place value)) st
        else st
      else st
  | None, Some ref =>
      if bool_decide (current_section st = Some "MARR") then
        if bool_decide (tag = "DATE") then
          update_family ref (on_marriage (set_date value)) st
        else if bool_decide (tag = "PLAC") then
          update_family ref (on_marriage (set_place value)) st
        else st
      else st
  | None, None => st
  end.

(** The part of the loop body after [level = int(level_str)]. *)
Definition is_pointer_tag (tag : string) : bool :=
  startswith tag "@" && endswith tag "@".

Definition handle_record (level : Z) (tag value : string)
    (st : parser_state) : parser_state :=
  let '(pointer, tag, value) :=
    if is_pointer_tag tag then (Some tag, value, "")
    else (None, tag, value) in
  if bool_decide (level = 0%Z) then level0 pointer tag st
  else if bool_decide (level = 1%Z) then level1 tag value st
  else if bool_decide (level = 2%Z) then level2 tag value st
  else st.

(** The argument of [rstrip("\n\r")]. *)
Definition newline_chars : string := String LF (String CR "").

(** What the first lines of the loop body make of a raw line: [None] when
    the line is blank or has one token only. *)
Definition tokens_of (raw_line : string) : option (string * string * string) :=
  let line := rstrip raw_line newline_chars in
  if str_truthy line then
    match split " " 2 line with
    | [level_str; tag] => Some (level_str, tag, "")
    | [level_str; tag; value] => Some (level_str, tag, value)
    | _ => None
    end
  else None.

(** One run of the loop body; [continue] returns the state as it is. *)
Definition parse_line (st : parser_state) (raw_line : string)
    : result parser_state :=
  match tokens_of raw_line with
  | None => mret st
  | Some (level_str, tag, value) =>
      try_except
        (level ← py_int level_str; mret (handle_record level tag value st))
        (fun e => match e with
                  | ValueError _ => mret st
                  | _ => raise e
                  end)
  end.

Fixpoint parse_lines (st : parser_state) (lines : list string)
    : result parser_state :=
  match lines with
  | [] => mret st
  | raw_line :: rest => st' ← parse_line st raw_line; parse_lines st' rest
  end.

(** The dictionaries as the caller sees them: each key with the object its
    reference names. *)
Definition deref {A} (store : list A) (d : dict nat) : dict A :=
  omap (fun '(k, ref) => (fun v => (k, v)) <$> store !! ref) d.

Definition individuals_of (st : parser_state) : dict Individual :=
  deref (ind_store st) (ps_individuals st).
Definition families_of (st : parser_state) : dict Family :=
  deref (fam_store st) (ps_families st).

Definition parse (lines : list string)
    : result (dict Individual * dict Family) :=
  st ← parse_lines initial_state lines;
  mret (individuals_of st, families_of st).

(** ** [normalise] and [display_name] *)

(** [str.lower] on one character: the ASCII capitals and the capitals of
    U+00C0 .. U+00DE (U+00D7 is the multiplication sign). *)
Definition lower_char (c : ascii) : ascii :=
  if is_ascii_upper c || (between 192 222 c && negb (code c =? 215))
  then ascii_of_nat (code c + 32)
  else c.

Fixpoint lower (s : string) : string :=
  match s with
  | EmptyString => EmptyString
  | String c s' => String (lower_char c) (lower s')
  end.

(** [re.sub(cls+, repl, s)] for a character class [cls]: each maximal run
    of characters of the class becomes one [repl]. *)
Fixpoint sub_runs (cls : ascii → bool) (repl : string) (in_run : bool)
    (s : string) : string :=
  match s with
  | EmptyString => EmptyString
  | String c s' =>
      if cls c then
        if in_run then sub_runs cls repl true s'
        else repl +:+ sub_runs cls repl true s'
      else String c (sub_runs cls repl false s')
  end.

Definition re_sub_runs (cls : ascii → bool) (repl s : string) : string :=
  sub_runs cls repl false s.

(** The class [[^a-z0-9]]. *)
Definition not_lower_alnum (c : ascii) : bool :=
  negb (is_ascii_lower c || is_digit c).

Definition normalise (text : string) : string :=
  strip_ws (re_sub_runs not_lower_alnum " " (lower text)).

(** [s.replace(old, "")] for a one-character [old]. *)
Fixpoint remove_char (old : ascii) (s : string) : string :=
  match s with
  | EmptyString => EmptyString
  | String c s' =>
      if decide (c = old) then remove_char old s'
      else String c (remove_char old s')
  end.

(** [s.replace(old, new)] for one-character [old] and [new]. *)
Fixpoint replace_char (old new : ascii) (s : string) : string :=
  match s with
  | EmptyString => EmptyString
  | String c s' =>
      String (if decide (c = old) then new else c) (replace_char old new s')
  end.

(** [sep.join(pieces)]. *)
Fixpoint join (sep : string) (pieces : list string) : string :=
  match pieces with
  | [] => EmptyString
  | [p] => p
  | p :: rest => p +:+ sep +:+ join sep rest
  end.

Definition display_name (self : Individual) : string :=
  if str_truthy (name self) then
    let cleaned := strip_ws (remove_char "/" (name self)) in
    re_sub_runs is_space " " cleaned
  else
    let pieces :=
      (if str_truthy (given_name self) then [given_name self] else [])
      ++ (if str_truthy (surname self) then [surname self] else []) in
    match pieces with
    | [] => ind_id self
    | _ => join " " pieces
    end.

(** ** Dates *)

Record datetime : Type := mkDate {
  year : Z;
  month : Z;
  day : Z
}.

Definition is_leap (y : Z) : bool :=
  ((y mod 4 =? 0) && negb (y mod 100 =? 0) || (y mod 400 =? 0))%Z.

Definition days_in_month (y m : Z) : Z :=
  if (m =? 2)%Z then (if is_leap y then 29 else 28)%Z
  else if ((m =? 4) || (m =? 6) || (m =? 9) || (m =? 11))%Z then 30%Z
  else 31%Z.

(** The constructor [datetime(year, month, day)]. *)
Definition new_datetime (y m d : Z) : result datetime :=
  if ((1 <=? y) && (y <=? 9999))%Z then
    if ((1 <=? m) && (m <=? 12))%Z then
      if ((1 <=? d) && (d <=? days_in_month y m))%Z then mret (mkDate y m d)
      else raise (ValueError "day is out of range for month")
    else raise (ValueError "month must be in 1..12")
  else raise (ValueError "year is out of range").

(** The directives of the formats in [DATE_FORMATS]; a blank of the format
    is [Blank], any other character [Lit]. *)
Inductive directive : Type :=
| Dm | Dd | DY | Dy | Db | DB
| Blank
| Lit (c : ascii).

Definition DATE_FORMATS : list (list directive) :=
  [ [Dm; Lit "/"; Dd; Lit "/"; DY];
    [Dm; Lit "/"; Dd; Lit "/"; Dy];
    [Dd; Lit "/"; Dm; Lit "/"; DY];
    [Dd; Blank; Db; Blank; DY];
    [Dd; Blank; DB; Blank; DY];
    [Db; Blank; Dd; Blank; DY];
    [DB; Blank; Dd; Blank; DY] ].

(** The month names of the C locale, in lower case as [strptime] keeps
    them, each list ordered as its alternation is: longest first. *)
Definition month_abbr : list (string * Z) :=
  [("jan", 1); ("feb", 2); ("mar", 3); ("apr", 4); ("may", 5); ("jun", 6);
   ("jul", 7); ("aug", 8); ("sep", 9); ("oct", 10); ("nov", 11);
   ("dec", 12)]%Z.

Definition month_full : list (string * Z) :=
  [("september", 9); ("february", 2); ("november", 11); ("december", 12);
   ("january", 1); ("october", 10); ("august", 8); ("march", 3);
   ("april", 4); ("june", 6); ("july", 7); ("may", 5)]%Z.

(** What a match has bound so far. *)
Record fields : Type := mkFields {
  f_year : option Z;
  f_month : option Z;
  f_day : option Z
}.

Definition with_year (y : Z) (f : fields) : fields :=
  mkFields (Some y) (f_month f) (f_day f).
Definition with_month (m : Z) (f : fields) : fields :=
  mkFields (f_year f) (Some m) (f_day f).
Definition with_day (d : Z) (f : fields) : fields :=
  mkFields (f_year f) (f_month f) (Some d).

(** The alternatives of one directive at the head of [s], in the order in
    which the regular expression tries them: the value bound and the text
    left. *)
Definition digit_at (lo hi : nat) (c : ascii) : bool := between lo hi c.

Definition alt1 (lo hi : nat) (s : string) : list (Z * string) :=
  match s with
  | String a r => if digit_at lo hi a then [(digit_value a, r)] else []
  | _ => []
  end.

Definition alt2 (lo1 hi1 lo2 hi2 : nat) (s : string) : list (Z * string) :=
  match s with
  | String a (String b r) =>
      if digit_at lo1 hi1 a && digit_at lo2 hi2 b
      then [((10 * digit_value a + digit_value b)%Z, r)] else []
  | _ => []
  end.

(** [1[0-2]|0[1-9]|[1-9]] *)
Definition alts_m (s : string) : list (Z * string) :=
  alt2 49 49 48 50 s ++ alt2 48 48 49 57 s ++ alt1 49 57 s.

(** [3[0-1]|[1-2]\d|0[1-9]|[1-9]| [1-9]] *)
Definition alts_d (s : string) : list (Z * string) :=
  alt2 51 51 48 49 s ++ alt2 49 50 48 57 s ++ alt2 48 48 49 57 s
  ++ alt1 49 57 s
  ++ match s with
     | String " " r => alt1 49 57 r
     | _ => []
     end.

(** [\d\d\d\d] *)
Definition alts_Y (s : string) : list (Z * string) :=
  match s with
  | String a (String b (String c (String d r))) =>
      if is_digit a && is_digit b && is_digit c && is_digit d
      then [((1000 * digit_value a + 100 * digit_value b
              + 10 * digit_value c + digit_value d)%Z, r)]
      else []
  | _ => []
  end.

(** [\d\d], with the century [strptime] gives it. *)
Definition alts_y (s : string) : list (Z * string) :=
  match s with
  | String a (String b r) =>
      if is_digit a && is_digit b then
        let y := (10 * digit_value a + digit_value b)%Z in
        [((if (y <=? 68)%Z then 2000 + y else 1900 + y)%Z, r)]
      else []
  | _ => []
  end.

(** A name of the alternation at the head of [s], letter case ignored. *)
Fixpoint drop_ci (nm s : string) : option string :=
  match nm, s with
  | EmptyString, _ => Some s
  | String n nm', String c s' =>
      if decide (lower_char c = n) then drop_ci nm' s' else None
  | String _ _, EmptyString => None
  end.

Definition alts_name (names : list (string * Z)) (s : string)
    : list (Z * string) :=
  omap (fun '(nm, v) => (fun r => (v, r)) <$> drop_ci nm s) names.

(** [\s+]: the longest run first, then each shorter one. *)
Fixpoint alts_blank (s : string) : list string :=
  match s with
  | String c r => if is_space c then alts_blank r ++ [r] else []
  | EmptyString => []
  end.

(** All matches of the directives from the head of [s], in the order the
    backtracking search meets them. *)
Fixpoint matches (fmt : list directive) (f : fields) (s : string)
    : list (fields * string) :=
  match fmt with
  | [] => [(f, s)]
  | d :: fmt' =>
      let bound (g : Z → fields → fields) (alts : list (Z * string)) :=
        flat_map (fun '(v, r) => matches fmt' (g v f) r) alts in
      match d with
      | Dm => bound with_month (alts_m s)
      | Dd => bound with_day (alts_d s)
      | DY => bound with_year (alts_Y s)
      | Dy => bound with_year (alts_y s)
      | Db => bound with_month (alts_name month_abbr s)
      | DB => bound with_month (alts_name month_full s)
      | Blank => flat_map (fun r => matches fmt' f r) (alts_blank s)
      | Lit c =>
          match s with
          | String a r => if decide (a = c) then matches fmt' f r else []
          | EmptyString => []
          end
      end
  end.

(** [datetime.strptime(data, fmt)]: the first match must use up the text
    and name a day that exists. *)
Definition strptime (data : string) (fmt : list directive) : result datetime :=
  match matches fmt (mkFields None None None) data with
  | [] => raise (ValueError "time data does not match format")
  | (f, rest) :: _ =>
      if str_truthy rest then raise (ValueError "unconverted data remains")
      else
        new_datetime (default 1900%Z (f_year f)) (default 1%Z (f_month f))
                     (default 1%Z (f_day f))
  end.

(** [str.title] on one character first in its word, and which characters
    are cased.  U+00DF becomes two letters; the images of U+00B5 and U+00FF
    lie above U+00FF and the two are left as they are. *)
Definition is_cased (c : ascii) : bool :=
  is_ascii_alpha c || (code c =? 170) || (code c =? 181) || (code c =? 186)
  || (between 192 255 c && negb (code c =? 215) && negb (code c =? 247)).

Definition title_char (c : ascii) : string :=
  if is_ascii_lower c
     || (between 224 254 c && negb (code c =? 247))
  then String (ascii_of_nat (code c - 32)) EmptyString
  else if code c =? 223 then "Ss"
  else String c EmptyString.

Fixpoint title_from (previous_is_cased : bool) (s : string) : string :=
  match s with
  | EmptyString => EmptyString
  | String c s' =>
      (if previous_is_cased then String (lower_char c) EmptyString
       else title_char c)
      +:+ title_from (is_cased c) s'
  end.

Definition title (s : string) : string := title_from false s.

Fixpoint str_exists (p : ascii → bool) (s : string) : bool :=
  match s with
  | EmptyString => false
  | String c s' => p c || str_exists p s'
  end.

Fixpoint str_forall (p : ascii → bool) (s : string) : bool :=
  match s with
  | EmptyString => true
  | String c s' => p c && str_forall p s'
  end.

(** [for fmt in DATE_FORMATS: try: return strptime(cleaned, fmt)
     except ValueError: continue]; [None] when the loop runs out. *)
Fixpoint try_formats (cleaned : string) (fmts : list (list directive))
    : result (option datetime) :=
  match fmts with
  | [] => mret None
  | fmt :: rest =>
      try_except (Some <$> strptime cleaned fmt)
        (fun e => match e with
                  | ValueError _ => try_formats cleaned rest
                  | _ => raise e
                  end)
  end.

(** [re.fullmatch(r"\d{4}", s)] *)
Definition is_year (s : string) : bool :=
  str_forall is_digit s && (String.length s =? 4).

(** [re.fullmatch(r"(\d{1,2})/(\d{1,2})/(\d{4})", s)] and its groups. *)
Definition is_short_number (s : string) : bool :=
  str_forall is_digit s && (1 <=? String.length s) && (String.length s <=? 2).

Definition loose_date (s : string) : option (string * string * string) :=
  match cut "/" s with
  | Some (a, r) =>
      match cut "/" r with
      | Some (b, c) =>
          if is_short_number a && is_short_number b && is_year c
          then Some (a, b, c) else None
      | None => None
      end
  | None => None
  end.

Definition parse_date_string (value : option string)
    : result (option datetime) :=
  match value with
  | None => mret None
  | Some value =>
      if negb (str_truthy value) then mret None
      else
        let cleaned := strip_ws value in
        if negb (str_truthy cleaned) then mret None
        else
          let cleaned := replace_char "," " " cleaned in
          let cleaned := re_sub_runs is_space " " cleaned in
          let cleaned :=
            if str_exists is_ascii_alpha cleaned then title cleaned
            else cleaned in
          found ← try_formats cleaned DATE_FORMATS;
          match found with
          | Some dt => mret (Some dt)
          | None =>
              if is_year cleaned then
                y ← py_int cleaned; Some <$> new_datetime y 1%Z 1%Z
              else
                match loose_date cleaned with
                | Some (m, d, y) =>
                    month ← py_int m;
                    day ← py_int d;
                    year ← py_int y;
                    try_except (Some <$> new_datetime year month day)
                      (fun e => match e with
                                | ValueError _ => mret None
                                | _ => raise e
                                end)
                | None => mret None
                end
          end
  end.

(** ** [birth_sort_key] *)

(** The values the sort keys are made of, and the comparison of tuples:
    the first position where the two differ decides, and an [int] against a
    [str] there is a [TypeError]. *)
Inductive pyval : Type :=
| PyInt (z : Z)
| PyStr (s : string).

Definition pyval_eqb (a b : pyval) : bool :=
  match a, b with
  | PyInt x, PyInt y => (x =? y)%Z
  | PyStr x, PyStr y => bool_decide (x = y)
  | _, _ => false
  end.

Definition pyval_lt (a b : pyval) : result bool :=
  match a, b with
  | PyInt x, PyInt y => mret (x <? y)%Z
  | PyStr x, PyStr y => mret (String.ltb x y)
  | _, _ => raise (TypeError "'<' not supported between instances")
  end.

Fixpoint tuple_lt (a b : list pyval) : result bool :=
  match a, b with
  | [], [] => mret false
  | [], _ :: _ => mret true
  | _ :: _, [] => mret false
  | x :: a', y :: b' =>
      if pyval_eqb x y then tuple_lt a' b' else pyval_lt x y
  end.

Definition birth_sort_key (individual : Individual) : result (list pyval) :=
  birth_date ← parse_date_string (date (birth individual));
  match birth_date with
  | Some dt =>
      mret [PyInt 0; PyInt (year dt); PyInt (month dt); PyInt (day dt);
            PyStr (normalise (display_name individual))]
  | None => mret [PyInt 1; PyStr (normalise (display_name individual))]
  end.

(** The two shapes of a sort key. *)
Inductive key_shape : list pyval → Prop :=
| shape_dated y m d s :
    key_shape [PyInt 0; PyInt y; PyInt m; PyInt d; PyStr s]
| shape_undated s :
    key_shape [PyInt 1; PyStr s].

(** The comparison of two keys as one truth value. *)
Definition int_lex (x y : Z) (rest : bool) : bool :=
  ((x <? y) || ((x =? y) && rest))%Z.

(** One key sorts before another. *)
Definition key_before (k1 k2 : list pyval) : Prop := tuple_lt k1 k2 = inr true.

(** An earlier day: the year decides, then the month, then the day. *)
Definition earlier (d1 d2 : datetime) : Prop :=
  (year d1 < year d2
   ∨ (year d1 = year d2
      ∧ (month d1 < month d2
         ∨ (month d1 = month d2 ∧ day d1 < day d2))))%Z.

(** ** [extract_name_key] *)

Definition NAME_SUFFIXES : list string := ["jr"; "sr"; "ii"; "iii"; "iv"; "v"].

(** [re.split(cls+, s)]: the pieces between the maximal runs of the class,
    the empty ones at either end included. *)
Fixpoint split_runs (cls : ascii → bool) (in_run : bool) (s : string)
    : list string :=
  match s with
  | EmptyString => [EmptyString]
  | String c s' =>
      if cls c then
        if in_run then split_runs cls true s'
        else EmptyString :: split_runs cls true s'
      else
        match split_runs cls false s' with
        | p :: ps => String c p :: ps
        | [] => [String c EmptyString]
        end
  end.

Definition re_split_runs (cls : ascii → bool) (s : string) : list string :=
  split_runs cls false s.

(** The class [[^A-Za-z]]. *)
Definition not_alpha (c : ascii) : bool := negb (is_ascii_alpha c).

Definition name_tokens (name : string) : list string :=
  filter (fun token => str_truthy token = true) (re_split_runs not_alpha name).

Definition is_suffix (lower_token : string) : bool :=
  bool_decide (lower_token ∈ NAME_SUFFIXES).

(** [for token in reversed(tokens[1:])]: the first that is no suffix. *)
Fixpoint last_name (reversed_rest : list string) : option string :=
  match reversed_rest with
  | [] => None
  | token :: more =>
      let lower_token := lower token in
      if is_suffix lower_token then last_name more else Some lower_token
  end.

Definition extract_name_key (name : string) : option string :=
  let tokens := name_tokens name in
  if length tokens <? 2 then None
  else
    match tokens with
    | [] => None
    | t0 :: rest =>
        let first := lower t0 in
        let last :=
          match last_name (reverse rest) with
          | Some l => if str_truthy l then l else lower (List.last tokens "")
          | None => lower (List.last tokens "")
          end in
        Some (first +:+ " " +:+ last)
    end.

(** ** [find_individual] *)

(** [sorted(xs, key=key)] for keys that are pairs of numbers: a stable
    insertion sort on the lexicographic order of the keys. *)
Definition key_lt (a b : nat * nat) : bool :=
  (a.1 <? b.1) || ((a.1 =? b.1) && (a.2 <? b.2)).

Fixpoint insert_by {A} (key : A → nat * nat) (x : A) (l : list A) : list A :=
  match l with
  | [] => [x]
  | y :: l' =>
      if key_lt (key y) (key x) then y :: insert_by key x l'
      else x :: l
  end.

Fixpoint sorted_by {A} (key : A → nat * nat) (l : list A) : list A :=
  match l with
  | [] => []
  | x :: l' => insert_by key x (sorted_by key l')
  end.

Definition score (normalized_query : string) (individual : Individual)
    : nat * nat :=
  let display := normalise (display_name individual) in
  if bool_decide (display = normalized_query) then (0, String.length display)
  else if startswith display normalized_query then (1, String.length display)
  else if contains display normalized_query then (2, String.length display)
  else (3, String.length display).

Definition find_individual (individuals : dict Individual) (query : string)
    : result Individual :=
  let normalized_query := normalise query in
  if negb (str_truthy normalized_query) then
    raise (ValueError "Empty name provided")
  else
    let matches :=
      sorted_by (score normalized_query)
        (filter (fun ind =>
                   contains (normalise (display_name ind)) normalized_query
                   = true)
                (dict_values individuals)) in
    match matches with
    | [] => raise (ValueError "Could not find an individual matching")
    | best :: others =>
        match others with
        | second :: _ =>
            if (score normalized_query second).1
               =? (score normalized_query best).1
            then raise (ValueError "Multiple individuals match")
            else mret best
        | [] => mret best
        end
    end.

(** The individuals the query is found in, the precedence class of one of
    them (0 the same text, 1 a prefix, 2 elsewhere inside), and those of
    one class. *)
Definition candidates (individuals : dict Individual)
    (normalized_query : string) : list Individual :=
  filter (fun ind =>
            contains (normalise (display_name ind)) normalized_query = true)
         (dict_values individuals).

Definition match_class (normalized_query : string) (ind : Individual) : nat :=
  (score normalized_query ind).1.

Definition in_class (normalized_query : string) (c : nat)
    (l : list Individual) : list Individual :=
  filter (fun ind => match_class normalized_query ind = c) l.

(** The best class there is holds two candidates or more. *)
Definition ambiguous (normalized_query : string) (l : list Individual) : Prop :=
  ∃ c, (∀ other, other ∈ l → c ≤ match_class normalized_query other)
       ∧ 2 ≤ length (in_class normalized_query c l).

(** In a sorted list no later element is to be put before an earlier
    one. *)
Definition in_order {A} (key : A → nat * nat) (x y : A) : Prop :=
  key_lt (key y) (key x) = false.

(** ** [slugify] *)

Definition slugify (name identifier : string) : string :=
  let base := strip (re_sub_runs not_lower_alnum "-" (lower name)) "-" in
  let base := if negb (str_truthy base) then strip identifier "@" else base in
  base +:+ "-" +:+ strip identifier "@".

(** The level of a line that has one. *)
Definition level_of (raw_line : string) : option Z :=
  match tokens_of raw_line with
  | Some (level_str, _, _) =>
      match py_int level_str with
      | inr level => Some level
      | inl _ => None
      end
  | None => None
  end.

(** The lines the parser is to pass over: blank ones, ones without two or
    three tokens, ones whose level is no integer and ones of level three
    or more. *)
Inductive skipped_line (raw_line : string) : Prop :=
| skip_blank :
    rstrip raw_line newline_chars = "" → skipped_line raw_line
| skip_token_count :
    length (split " " 2 (rstrip raw_line newline_chars)) ≠ 2 →
    length (split " " 2 (rstrip raw_line newline_chars)) ≠ 3 →
    skipped_line raw_line
| skip_level_not_int level_str tag value e :
    tokens_of raw_line = Some (level_str, tag, value) →
    py_int level_str = inl e →
    skipped_line raw_line
| skip_deep level_str tag value level :
    tokens_of raw_line = Some (level_str, tag, value) →
    py_int level_str = inr level →
    (3 ≤ level)%Z →
    skipped_line raw_line.

(** The ways one line can change the parser state. *)
Inductive line_effect (st : parser_state) : parser_state → Prop :=
| effect_context ci cf cs :
    (ci = None ∨ ci = current_individual st) →
    (cf = None ∨ cf = current_family st) →
    line_effect st (with_context ci cf cs st)
| effect_open_individual pointer :
    line_effect st (open_individual pointer (with_context None None None st))
| effect_open_family pointer :
    line_effect st (open_family pointer (with_context None None None st))
| effect_update_individual ref f cs :
    current_individual st = Some ref →
    line_effect st
      (update_individual ref f
         (with_context (current_individual st) (current_family st) cs st))
| effect_update_family ref f cs :
    current_family st = Some ref →
    line_effect st
      (update_family ref f
         (with_context (current_individual st) (current_family st) cs st)).

(** Every reference held by a dictionary or a [current_] variable names an
    object of its store. *)
Definition refs_below {A} (store : list A) (d : dict nat) : Prop :=
  Forall (fun kr => kr.2 < length store) d.

Definition wf_state (st : parser_state) : Prop :=
  refs_below (ind_store st) (ps_individuals st)
  ∧ refs_below (fam_store st) (ps_families st)
  ∧ (∀ ref, current_individual st = Some ref → ref < length (ind_store st))
  ∧ (∀ ref, current_family st = Some ref → ref < length (fam_store st)).

(** ** [collect_descendants] *)

Section Walker.
Variable individuals : dict Individual.
Variable families : dict Family.

(** [for child in fam.children: if child not in descendants:
    to_process.append(child)].  The work list is kept top first, so the
    Python [append] is a cons and [pop()] takes the head. *)
Fixpoint push_children (descendants : gset string) (cs : list string)
    (to_process : list string) : list string :=
  match cs with
  | [] => to_process
  | child :: cs' =>
      push_children descendants cs'
        (if decide (child ∈ descendants) then to_process
         else child :: to_process)
  end.

(** [for fam_id in person.fams: fam = families.get(fam_id) ...]. *)
Fixpoint push_families (descendants : gset string) (fs : list string)
    (to_process : list string) : list string :=
  match fs with
  | [] => to_process
  | f :: fs' =>
      push_families descendants fs'
        (match dict_get families f with
         | None => to_process
         | Some fam => push_children descendants (children fam) to_process
         end)
  end.

(** One run of the [while to_process:] loop per unit of fuel. *)
Fixpoint collect_loop (fuel : nat) (descendants : gset string)
    (to_process : list string) : option (gset string) :=
  match to_process with
  | [] => Some descendants
  | current :: rest =>
      match fuel with
      | 0 => None
      | S fuel' =>
          if decide (current ∈ descendants) then
            collect_loop fuel' descendants rest
          else
            let descendants' := {[current]} ∪ descendants in
            match dict_get individuals current with
            | None => collect_loop fuel' descendants' rest
            | Some person =>
                collect_loop fuel' descendants'
                  (push_families descendants' (fams person) rest)
            end
      end
  end.

(** Every identifier that can ever enter the work list. *)
Definition all_children : gset string :=
  foldr (fun fam acc => list_to_set (children fam) ∪ acc) ∅
        (dict_values families).

Definition family_size (f : string) : nat :=
  match dict_get families f with
  | None => 0
  | Some fam => length (children fam)
  end.

(** The most entries one individual can push. *)
Definition pushes_of (person : Individual) : nat :=
  foldr (fun f acc => family_size f + acc) 0 (fams person).

Definition push_bound : nat :=
  foldr (fun person acc => pushes_of person + acc) 0
        (dict_values individuals).

Definition collect_fuel (root_family : Family) : nat :=
  S (size (list_to_set (children root_family) ∪ all_children)
       * S push_bound
     + length (children root_family)).

Definition collect_descendants_fuel (fuel : nat) (root_family : Family)
    : option (gset string) :=
  collect_loop fuel ∅ (reverse (children root_family)).

Definition collect_descendants (root_family : Family)
    : option (gset string) :=
  collect_descendants_fuel (collect_fuel root_family) root_family.

(** Reachability as a child of the root family, of a child's family, and
    so on. *)
Inductive descends (root_family : Family) : string → Prop :=
| descends_child c :
    c ∈ children root_family → descends root_family c
| descends_step p person f fam c :
    descends root_family p →
    dict_get individuals p = Some person →
    f ∈ fams person →
    dict_get families f = Some fam →
    c ∈ children fam →
    descends root_family c.

(** The invariant of the loop: what is seen or waiting descends from the
    root family, the root's children are seen or waiting, and so are the
    children of each family of each individual seen. *)
Definition walk_inv (root_family : Family) (D : gset string)
    (st : list string) : Prop :=
  (∀ x, x ∈ D → descends root_family x)
  ∧ (∀ x, x ∈ st → descends root_family x)
  ∧ (∀ c, c ∈ children root_family → c ∈ D ∨ c ∈ st)
  ∧ (∀ p person f fam c,
       p ∈ D → dict_get individuals p = Some person → f ∈ fams person →
       dict_get families f = Some fam → c ∈ children fam →
       c ∈ D ∨ c ∈ st).
End Walker.




(** The words of lower-case letters and digits of a text. *)
Definition alnum_words (s : string) : list string :=
  filter (fun token => str_truthy token = true)
         (re_split_runs not_lower_alnum s).

(** The pieces after the first, each behind its hyphen. *)
Fixpoint hyphenated (l : list string) : string :=
  match l with
  | [] => ""
  | t :: l' => "-" +:+ t +:+ hyphenated l'
  end.

(** The first and the last character of a text. *)
Definition str_head (s : string) : option ascii :=
  match s with
  | EmptyString => None
  | String c _ => Some c
  end.

Fixpoint str_last (s : string) : option ascii :=
  match s with
  | EmptyString => None
  | String c EmptyString => Some c
  | String _ s' => str_last s'
  end.

(** ** More of the date normaliser *)




(** ** [list.sort(key=birth_sort_key)] *)










(** ** More of the parser *)

(** Every key of a dictionary of references names an object that carries
    the key as its id, and the key is a pointer. *)
Definition ids_agree {A} (id_of : A → string) (store : list A)
    (d : dict nat) : Prop :=
  ∀ k ref, dict_get d k = Some ref →
    is_pointer_tag k = true
    ∧ ∃ v, store !! ref = Some v ∧ id_of v = k.

Definition ids_inv (st : parser_state) : Prop :=
  ids_agree ind_id (ind_store st) (ps_individuals st)
  ∧ ids_agree fam_id (fam_store st) (ps_families st).

(** No key is bound twice. *)
Definition keys_nodup (st : parser_state) : Prop :=
  NoDup (dict_keys (ps_individuals st)) ∧ NoDup (dict_keys (ps_families st)).

(** ** [find_family_by_spouses] *)

(** [fam.husband == a and fam.wife == b]. *)
Definition is_couple (fam : Family) (a b : string) : bool :=
  bool_decide (husband fam = Some a) && bool_decide (wife fam = Some b).

Fixpoint find_family_in (fams : list Family) (husband_id wife_id : string)
    : option Family :=
  match fams with
  | [] => None
  | fam :: rest =>
      if is_couple fam husband_id wife_id then Some fam
      else if is_couple fam wife_id husband_id then Some fam
      else find_family_in rest husband_id wife_id
  end.

Definition find_family_by_spouses (families : dict Family)
    (husband_id wife_id : string) : option Family :=
  find_family_in (dict_values families) husband_id wife_id.

(** The two identifiers are the spouses of the family, either way
    round. *)
Definition couple_of (fam : Family) (a b : string) : Prop :=
  (husband fam = Some a ∧ wife fam = Some b)
  ∨ (husband fam = Some b ∧ wife fam = Some a).

(** ** More of the name normaliser *)

(** The pieces of a text between the runs of a class, the empty ones
    left out. *)
Definition split_words (cls : ascii → bool) (s : string) : list string :=
  filter (fun token => str_truthy token = true) (re_split_runs cls s).

(** Each piece behind a separator. *)
Fixpoint prefixed (sep : string) (l : list string) : string :=
  match l with
  | [] => ""
  | t :: l' => sep +:+ t +:+ prefixed sep l'
  end.

(** The characters [normalise] leaves: lower-case letters, digits and the
    blank. *)
Definition normal_char (c : ascii) : bool :=
  is_ascii_lower c || is_digit c || bool_decide (c = " "%char).

(** The characters a display name made from a raw name is built of: no
    slash, and of the white space the blank only. *)
Definition display_char (c : ascii) : bool :=
  negb (bool_decide (c = "/"%char))
  && (negb (is_space c) || bool_decide (c = " "%char)).

(** ** [Event.description], [html.escape] and the person card *)

Definition truthy_part (part : option string) : list string :=
  match part with
  | Some text => if str_truthy text then [text] else []
  | None => []
  end.

Definition description (self : Event) : option string :=
  let parts := truthy_part (date self) ++ truthy_part (place self) in
  match parts with
  | [] => None
  | _ :: _ => Some (join ", " parts)
  end.

(** [s.replace(old, new)] for a one-character [old]. *)
Fixpoint replace_with (old : ascii) (new : string) (s : string) : string :=
  match s with
  | EmptyString => EmptyString
  | String c s' =>
      if decide (c = old) then new +:+ replace_with old new s'
      else String c (replace_with old new s')
  end.

Definition double_quote : ascii := ascii_of_nat 34.
Definition DQ : string := String double_quote EmptyString.

(** [html.escape(s)], the quotes included: the ampersand first, then the
    angle brackets, then the two quotes. *)
Definition html_escape (s : string) : string :=
  let s := replace_with "&" "&amp;" s in
  let s := replace_with "<" "&lt;" s in
  let s := replace_with ">" "&gt;" s in
  let s := replace_with double_quote "&quot;" s in
  replace_with "'" "&#x27;" s.

(** [str(n)] of an integer, with the limit on the digits. *)
Definition str_int (z : Z) : result string :=
  let digits := NilZero.string_of_uint (N.to_uint (Z.abs_N z)) in
  if int_max_str_digits <? String.length digits
  then raise (ValueError "Exceeds the limit for integer string conversion")
  else mret (if (z <? 0)%Z then String "-" digits else digits).

Definition summary_line (label : string) (text : option string)
    : list string :=
  match text with
  | Some t =>
      if str_truthy t
      then ["<p><strong>" +:+ label +:+ "</strong> " +:+ html_escape t
            +:+ "</p>"]
      else []
  | None => []
  end.

Definition render_person_summary (person : Individual) : string :=
  let birth := description (birth person) in
  let death := description (death person) in
  join "" (summary_line "Born:" birth ++ summary_line "Died:" death).

Definition person_card (person : Individual) (link extra : option string)
    (heading_level : Z) : result string :=
  let name_html := html_escape (display_name person) in
  let name_html :=
    match link with
    | Some l =>
        if str_truthy l
        then "<a href=" +:+ DQ +:+ html_escape l +:+ DQ +:+ ">"
             +:+ name_html +:+ "</a>"
        else name_html
    | None => name_html
    end in
  let summary := render_person_summary person in
  let extra_html :=
    match extra with
    | Some e => if str_truthy e then e else ""
    | None => ""
    end in
  level ← str_int heading_level;
  mret ("<div class='person-card'>"
        +:+ "<h" +:+ level +:+ ">" +:+ name_html
        +:+ "</h" +:+ level +:+ ">"
        +:+ summary +:+ extra_html +:+ "</div>").

(** The characters [html.escape] replaces, and those of them that open or
    close a tag or an attribute value. *)
Definition is_special (c : ascii) : bool :=
  char_in "&<>'" c || bool_decide (c = double_quote).
Definition is_markup (c : ascii) : bool :=
  char_in "<>'" c || bool_decide (c = double_quote).

Fixpoint count_char (c : ascii) (s : string) : nat :=
  match s with
  | EmptyString => 0
  | String d s' => (if decide (d = c) then 1 else 0) + count_char c s'
  end.

(** How many of the two events of an individual have a description. *)
Definition described (person : Individual) : nat :=
  length (summary_line "Born:" (description (birth person))
          ++ summary_line "Died:" (description (death person))).

Definition linked (link : option string) : bool :=
  match link with
  | Some l => str_truthy l
  | None => false
  end.

(** ** The children of a page and the page paths *)

(** [[individuals[child_id] for child_id in family.children
      if child_id in individuals]]. *)
Definition known_children (individuals : dict Individual) (family : Family)
    : list Individual :=
  omap (dict_get individuals) (children family).

(** [for child_id in family.children: child = individuals.get(child_id);
    if child: children.append(child)]. *)
Fixpoint gather_children (individuals : dict Individual)
    (child_ids : list string) (gathered : list Individual)
    : list Individual :=
  match child_ids with
  | [] => gathered
  | child_id :: rest =>
      gather_children individuals rest
        (match dict_get individuals child_id with
         | Some child => gathered ++ [child]
         | None => gathered
         end)
  end.

(** [for fam_id in person.fams: family = families.get(fam_id) ...]. *)
Fixpoint gather_families (individuals : dict Individual)
    (families : dict Family) (fam_ids : list string)
    (gathered : list Individual) : list Individual :=
  match fam_ids with
  | [] => gathered
  | fam_id :: rest =>
      gather_families individuals families rest
        (match dict_get families fam_id with
         | Some family =>
             gather_children individuals (children family) gathered
         | None => gathered
         end)
  end.

(** [for child in children: if child.id in seen: continue; seen.add(child.id);
    ordered_children.append(child)]. *)
Fixpoint unique_children (gathered : list Individual) (seen : gset string)
    (ordered_children : list Individual) : list Individual :=
  match gathered with
  | [] => ordered_children
  | child :: rest =>
      if decide (ind_id child ∈ seen) then
        unique_children rest seen ordered_children
      else
        unique_children rest ({[ind_id child]} ∪ seen)
          (ordered_children ++ [child])
  end.

(** The children of a descendant's page, before they are sorted. *)
Definition page_children (individuals : dict Individual)
    (families : dict Family) (person : Individual) : list Individual :=
  unique_children (gather_families individuals families (fams person) [])
    ∅ [].

(** [for descendant_id in descendants: ... page_lookup[descendant_id] =
    str(page_path)]: [order] is the order the set is iterated in, and
    [page_path] makes the path of a page from its slug. *)
Fixpoint build_page_lookup (individuals : dict Individual)
    (page_path : string → string) (order : list string)
    (page_lookup : dict string) : dict string :=
  match order with
  | [] => page_lookup
  | descendant_id :: rest =>
      build_page_lookup individuals page_path rest
        (match dict_get individuals descendant_id with
         | None => page_lookup
         | Some person =>
             dict_set descendant_id
               (page_path (slugify (display_name person) (ind_id person)))
               page_lookup
         end)
  end.

(** ** The base couple of [main] *)

(** The three ways the selection of the base couple ends: [SystemExit]
    with a message, an exception that escapes, or the family with its
    husband and wife. *)
Inductive ending (A : Type) : Type :=
| Exits (msg : string)
| Raises (e : exn)
| Selects (a : A).
Arguments Exits {A} msg.
Arguments Raises {A} e.
Arguments Selects {A} a.

Definition opt_truthy (value : option string) : bool :=
  match value with
  | Some s => str_truthy s
  | None => false
  end.

(** The branch of [--base-family-id]. *)
Definition select_by_id (individuals : dict Individual)
    (families : dict Family) (base_family_id : string)
    : ending (Family * Individual * Individual) :=
  match dict_get families base_family_id with
  | None =>
      Exits ("Family ID " +:+ base_family_id
             +:+ " not found in GEDCOM file.")
  | Some base_family =>
      if negb (opt_truthy (husband base_family))
         || negb (opt_truthy (wife base_family))
      then Exits "Base family must have both husband and wife defined."
      else
        match husband base_family ≫= dict_get individuals,
              wife base_family ≫= dict_get individuals with
        | Some base_husband, Some base_wife =>
            Selects (base_family, base_husband, base_wife)
        | _, _ =>
            Exits "Base family references individuals that were not found."
        end
  end.

(** [if fam.husband == base_husband.id: spouse_id = fam.wife
     else: spouse_id = fam.husband]. *)
Definition spouse_of (fam : Family) (base_husband : Individual)
    : option string :=
  if decide (husband fam = Some (ind_id base_husband)) then wife fam
  else husband fam.

(** One run of the loop over [base_husband.fams]: the pair it appends, or
    nothing where it continues. *)
Definition candidate_pair (individuals : dict Individual)
    (families : dict Family) (base_husband : Individual) (fam_id : string)
    : option (Family * Individual) :=
  match dict_get families fam_id with
  | None => None
  | Some fam =>
      match spouse_of fam base_husband with
      | None => None
      | Some spouse_id =>
          if str_truthy spouse_id then
            match dict_get individuals spouse_id with
            | None => None
            | Some spouse => Some (fam, spouse)
            end
          else None
      end
  end.

Definition candidate_pairs (individuals : dict Individual)
    (families : dict Family) (base_husband : Individual)
    : list (Family * Individual) :=
  omap (candidate_pair individuals families base_husband)
       (fams base_husband).

(** [for fam, spouse in candidate_pairs: if wife_query and wife_query not
    in normalise(spouse.display_name): continue; ...; break]. *)
Fixpoint first_match (wife_query : string)
    (pairs : list (Family * Individual)) : option (Family * Individual) :=
  match pairs with
  | [] => None
  | (fam, spouse) :: rest =>
      if str_truthy wife_query
         && negb (contains (normalise (display_name spouse)) wife_query)
      then first_match wife_query rest
      else Some (fam, spouse)
  end.

(** The branch of the two names. *)
Definition select_by_names (individuals : dict Individual)
    (families : dict Family) (base_husband_name base_wife_name : string)
    : ending (Family * Individual * Individual) :=
  match find_individual individuals base_husband_name with
  | inl e => Raises e
  | inr base_husband =>
      let pairs := candidate_pairs individuals families base_husband in
      let chosen :=
        match first_match (normalise base_wife_name) pairs with
        | Some found => Some found
        | None =>
            match pairs with
            | [only] => Some only
            | _ => None
            end
        end in
      match chosen with
      | Some (base_family, base_wife) =>
          Selects (base_family, base_husband, base_wife)
      | None =>
          match find_individual individuals base_wife_name with
          | inl e => Raises e
          | inr base_wife =>
              match find_family_by_spouses families (ind_id base_husband)
                      (ind_id base_wife) with
              | Some base_family =>
                  Selects (base_family, base_husband, base_wife)
              | None =>
                  Exits ("Could not locate a family where the provided "
                         +:+ "individuals are spouses. "
                         +:+ "Consider using --base-family-id.")
              end
          end
      end
  end.

Definition select_base (individuals : dict Individual)
    (families : dict Family) (base_family_id : option string)
    (base_husband_name base_wife_name : string)
    : ending (Family * Individual * Individual) :=
  match base_family_id with
  | Some id =>
      if str_truthy id then select_by_id individuals families id
      else select_by_names individuals families base_husband_name
             base_wife_name
  | None =>
      select_by_names individuals families base_husband_name base_wife_name
  end.

(** An identifier is the husband or the wife of a family. *)
Definition spouse_in (fam : Family) (identifier : string) : Prop :=
  husband fam = Some identifier ∨ wife fam = Some identifier.

(** ** [extract_docx_paragraphs] and [load_biographies] *)

(** The paragraphs of a document, from the texts of the [w:t] nodes of
    each [w:p] node: the texts that are there and not empty are joined,
    the result is stripped and kept when something is left. *)
Definition paragraph_text (texts : list (option string)) : string :=
  strip_ws (join "" (omap (fun text =>
                             match text with
                             | Some t => if str_truthy t then Some t else None
                             | None => None
                             end) texts)).

Definition docx_paragraphs (paras : list (list (option string)))
    : list string :=
  filter (fun paragraph => str_truthy paragraph = true)
         (paragraph_text <$> paras).

(** [for docx_path in doc_dir.glob("*.docx")]: the documents come as their
    stems with their paragraphs, in the order of the directory listing. *)
Fixpoint index_docs (docs : list (string * list string))
    (available_docs : dict (string * list string))
    : dict (string * list string) :=
  match docs with
  | [] => available_docs
  | (stem, paragraphs) :: rest =>
      index_docs rest
        (match extract_name_key stem with
         | Some key =>
             if str_truthy key
             then dict_set key (stem, paragraphs) available_docs
             else available_docs
         | None => available_docs
         end)
  end.

Definition biography_html (paragraphs : list string) : string :=
  join "" ((fun p => "<p>" +:+ html_escape p +:+ "</p>") <$> paragraphs).

Fixpoint load_children (available_docs : dict (string * list string))
    (children : list Individual) (biographies : dict string)
    : dict string :=
  match children with
  | [] => biographies
  | child :: rest =>
      load_children available_docs rest
        (match extract_name_key (display_name child) with
         | Some key =>
             if str_truthy key then
               match dict_get available_docs key with
               | Some (stem, paragraphs) =>
                   match paragraphs with
                   | [] => biographies
                   | _ :: _ =>
                       dict_set (ind_id child) (biography_html paragraphs)
                         biographies
                   end
               | None => biographies
               end
             else biographies
         | None => biographies
         end)
  end.

Definition load_biographies (docs : list (string * list string))
    (children : list Individual) : dict string :=
  load_children (index_docs docs []) children [].

(** ** Sample inputs *)


(** A family whose only child is also its husband, and marries into it:
    the child is its own descendant. *)
Definition cyclic_individuals : dict Individual :=
  [("@I1@", mkIndividual "@I1@" "" "" "" "" (Some "@F1@") ["@F1@"]
              new_Event new_Event)].
Definition cyclic_families : dict Family :=
  [("@F1@", mkFamily "@F1@" (Some "@I1@") None ["@I1@"] new_Event)].
Definition cyclic_root : Family :=
  mkFamily "@F1@" (Some "@I1@") None ["@I1@"] new_Event.

(** An individual whose birth date is the year [0000], and the lines that
    make one. *)
Definition year_zero : Individual :=
  mkIndividual "@I1@" "Ann /Old/" "" "" "" None []
    (mkEvent (Some "0000") None) new_Event.

Definition year_zero_lines : list string :=
  ["0 @I1@ INDI"; "1 NAME Ann /Old/"; "1 BIRT"; "2 DATE 0000"].

(** The lines of a file in which the husband of a family is also listed as
    its child. *)
Definition own_child_lines : list string :=
  ["0 @I1@ INDI"; "1 NAME Adam /Root/"; "1 FAMS @F1@"; "1 FAMC @F1@";
   "0 @F1@ FAM"; "1 HUSB @I1@"; "1 CHIL @I1@"].

(** Three generations: a root couple, their daughter and her two sons,
    one of them listed twice. *)
Definition lineage_individuals : dict Individual :=
  [("@I1@", mkIndividual "@I1@" "Ann /Lee/" "" "" "F" (Some "@F1@") ["@F2@"]
              (mkEvent (Some "4 MAR 1930") (Some "Leeds")) new_Event);
   ("@I2@", mkIndividual "@I2@" "Bob /Lee/" "" "" "M" (Some "@F2@") []
              (mkEvent (Some "1955") None) new_Event);
   ("@I3@", mkIndividual "@I3@" "Cy /Lee/" "" "" "M" (Some "@F2@") []
              new_Event new_Event)].
Definition lineage_families : dict Family :=
  [("@F1@", mkFamily "@F1@" (Some "@I8@") (Some "@I9@") ["@I1@"] new_Event);
   ("@F2@", mkFamily "@F2@" None (Some "@I1@") ["@I3@"; "@I2@"; "@I3@"]
              new_Event)].

(** The lines of the three generations of [lineage_individuals]. *)
Definition lineage_lines : list string :=
  ["0 @I1@ INDI"; "1 NAME Ann /Lee/"; "1 FAMC @F1@"; "1 FAMS @F2@";
   "0 @I2@ INDI"; "1 NAME Bob /Lee/"; "1 FAMC @F2@";
   "0 @I3@ INDI"; "1 NAME Cy /Lee/"; "1 FAMC @F2@";
   "0 @F1@ FAM"; "1 HUSB @I8@"; "1 WIFE @I9@"; "1 CHIL @I1@";
   "0 @F2@ FAM"; "1 WIFE @I1@"; "1 CHIL @I3@"; "1 CHIL @I2@";
   "1 CHIL @I3@"].

(** A couple with one child, as lines and as the mappings they parse
    to. *)
Definition couple_lines : list string :=
  ["0 @I1@ INDI"; "1 NAME David /Handley/"; "1 FAMS @F1@";
   "0 @I2@ INDI"; "1 NAME Verna Mae /Rucker/"; "1 FAMS @F1@";
   "0 @I3@ INDI"; "1 NAME Ann /Handley/"; "1 FAMC @F1@";
   "0 @F1@ FAM"; "1 HUSB @I1@"; "1 WIFE @I2@"; "1 CHIL @I3@"].
Definition couple_individuals : dict Individual :=
  [("@I1@", mkIndividual "@I1@" "David /Handley/" "" "" "" None ["@F1@"]
              new_Event new_Event);
   ("@I2@", mkIndividual "@I2@" "Verna Mae /Rucker/" "" "" "" None ["@F1@"]
              new_Event new_Event);
   ("@I3@", mkIndividual "@I3@" "Ann /Handley/" "" "" "" (Some "@F1@") []
              new_Event new_Event)].
Definition couple_families : dict Family :=
  [("@F1@", mkFamily "@F1@" (Some "@I1@") (Some "@I2@") ["@I3@"] new_Event)].

(** * Properties *)

(** ** Worked examples *)

Example split_example :
  split " " 2 "1 NAME John  /Doe/" = ["1"; "NAME"; "John  /Doe/"].
Proof. reflexivity. Qed.

Example py_int_examples :
  py_int "02" = inr 2%Z ∧ py_int "-1_0" = inr (-10)%Z
  ∧ py_int "1__0" = inl (ValueError "invalid literal for int() with base 10")
  ∧ py_int "" = inl (ValueError "invalid literal for int() with base 10").
Proof. by split_and!. Qed.

Example normalise_example :
  normalise "  John  O'Brien-Smith /JR/ " = "john o brien smith jr".
Proof. reflexivity. Qed.

Example display_name_examples :
  display_name (mkIndividual "@I1@" " John   /Doe/ " "J" "D" "" None []
                  new_Event new_Event) = "John Doe"
  ∧ display_name (mkIndividual "@I1@" "" "John" "Doe" "" None []
                    new_Event new_Event) = "John Doe"
  ∧ display_name (new_Individual "@I1@") = "@I1@".
Proof. by split_and!. Qed.

Example parse_example :
  parse ["0 HEAD"; "0 @I1@ INDI"; "1 NAME John /Doe/"; "1 BIRT";
         "2 DATE 4 MAR 1930"; "2 PLAC Leeds"; "1 FAMS @F1@";
         "0 @F1@ FAM"; "1 HUSB @I1@"; "1 CHIL @I2@"; "1 MARR";
         "2 DATE 1950"; "0 TRLR"]
  = inr ([("@I1@", mkIndividual "@I1@" "John /Doe/" "" "" "" None ["@F1@"]
                     (mkEvent (Some "4 MAR 1930") (Some "Leeds")) new_Event)],
         [("@F1@", mkFamily "@F1@" (Some "@I1@") None ["@I2@"]
                     (mkEvent (Some "1950") None))]).
Proof. reflexivity. Qed.

Example parse_date_string_examples :
  parse_date_string (Some "4 MAR 1930") = inr (Some (mkDate 1930 3 4))
  ∧ parse_date_string (Some "march 4, 1930") = inr (Some (mkDate 1930 3 4))
  ∧ parse_date_string (Some "31/12/1930") = inr (Some (mkDate 1930 12 31))
  ∧ parse_date_string (Some "03/04/30") = inr (Some (mkDate 2030 3 4))
  ∧ parse_date_string (Some "02/30/1930") = inr None
  ∧ parse_date_string None = inr None.
Proof. by split_and!. Qed.

Example extract_name_key_examples :
  extract_name_key "John Q. Public Jr." = Some "john public"
  ∧ extract_name_key "John Jr" = Some "john jr"
  ∧ extract_name_key "Cher" = None.
Proof. by split_and!. Qed.

Example slugify_examples :
  slugify "John O'Brien" "@I12@" = "john-o-brien-I12"
  ∧ slugify "???" "@I12@" = "I12-I12".
Proof. by split_and!. Qed.

Example collect_descendants_example :
  elements <$> collect_descendants cyclic_individuals cyclic_families
                 cyclic_root = Some ["@I1@"].
Proof. reflexivity. Qed.

(** ** Texts *)

Lemma str_forall_app p a b :
  str_forall p (a +:+ b) = str_forall p a && str_forall p b.
Proof. induction a as [|c a IH]; simpl; [done|]. by rewrite IH, andb_assoc. Qed.


Lemma str_forall_lstrip p q s :
  str_forall p s = true → str_forall p (lstrip_by q s) = true.
Proof.
  induction s as [|c s IH]; simpl; [done|].
  intros [Hc Hs]%andb_prop. destruct (q c); [auto|]. simpl. by rewrite Hc, Hs.
Qed.

Lemma str_forall_rstrip p q s :
  str_forall p s = true → str_forall p (rstrip_by q s) = true.
Proof.
  induction s as [|c s IH]; simpl; [done|].
  intros [Hc Hs]%andb_prop. specialize (IH Hs).
  destruct (rstrip_by q s); [destruct (q c)|]; simpl in *; [done|..];
    by rewrite Hc.
Qed.

Lemma str_forall_strip p q s :
  str_forall p s = true → str_forall p (strip_by q s) = true.
Proof. intros. by apply str_forall_rstrip, str_forall_lstrip. Qed.

Lemma str_head_lstrip q s c : str_head (lstrip_by q s) = Some c → q c = false.
Proof.
  induction s as [|d s IH]; simpl; [done|].
  destruct (q d) eqn:Hd; [done|]. by intros [= <-].
Qed.

Lemma str_last_rstrip q s c : str_last (rstrip_by q s) = Some c → q c = false.
Proof.
  induction s as [|d s IH]; simpl; [done|].
  destruct (rstrip_by q s) as [|e r] eqn:Hr.
  - destruct (q d) eqn:Hd; simpl; [done|]. by intros [= <-].
  - simpl. simpl in IH. done.
Qed.

Lemma str_head_rstrip q s c :
  str_head (rstrip_by q s) = Some c → str_head s = Some c.
Proof.
  destruct s as [|d s]; simpl; [done|].
  destruct (rstrip_by q s); [destruct (q d)|]; simpl; done.
Qed.

Lemma str_head_strip q s c : str_head (strip_by q s) = Some c → q c = false.
Proof. intros H%str_head_rstrip. by eapply str_head_lstrip. Qed.

Lemma str_last_strip q s c : str_last (strip_by q s) = Some c → q c = false.
Proof. apply str_last_rstrip. Qed.




(** ** The parser *)

Lemma with_context_same st :
  with_context (current_individual st) (current_family st)
    (current_section st) st = st.
Proof. by destruct st. Qed.

Lemma line_effect_refl st : line_effect st st.
Proof.
  rewrite <- (with_context_same st) at 2. apply effect_context; by right.
Qed.

Lemma level0_effect pointer tag st : line_effect st (level0 pointer tag st).
Proof.
  unfold level0. destruct pointer as [p|].
  - destruct (bool_decide (tag = "INDI") && str_truthy p);
      [apply effect_open_individual|].
    destruct (bool_decide (tag = "FAM") && str_truthy p);
      [apply effect_open_family|].
    apply effect_context; by left.
  - apply effect_context; by left.
Qed.

Lemma level1_effect tag value st : line_effect st (level1 tag value st).
Proof.
  unfold level1. simpl.
  destruct (current_individual st) as [ref|] eqn:Hci.
  - repeat case_bool_decide;
      first [ rewrite <- Hci; by apply effect_update_individual
            | rewrite <- Hci; apply effect_context; by right ].
  - destruct (current_family st) as [ref|] eqn:Hcf.
    + repeat case_bool_decide;
        first [ rewrite <- Hci, <- Hcf; by apply effect_update_family
              | rewrite <- Hci, <- Hcf; apply effect_context; by right ].
    + apply effect_context; by left.
Qed.

Lemma update_individual_effect ref f st :
  current_individual st = Some ref →
  line_effect st (update_individual ref f st).
Proof.
  intros Hci. rewrite <- (with_context_same st) at 2.
  by apply effect_update_individual.
Qed.

Lemma update_family_effect ref f st :
  current_family st = Some ref →
  line_effect st (update_family ref f st).
Proof.
  intros Hcf. rewrite <- (with_context_same st) at 2.
  by apply effect_update_family.
Qed.

Lemma level2_effect tag value st : line_effect st (level2 tag value st).
Proof.
  unfold level2.
  destruct (current_individual st) as [ref|] eqn:Hci.
  - repeat case_bool_decide;
      first [ by apply update_individual_effect | apply line_effect_refl ].
  - destruct (current_family st) as [ref|] eqn:Hcf;
      [|apply line_effect_refl].
    repeat case_bool_decide;
      first [ by apply update_family_effect | apply line_effect_refl ].
Qed.

Lemma handle_record_effect level tag value st :
  line_effect st (handle_record level tag value st).
Proof.
  unfold handle_record. destruct (is_pointer_tag tag);
    repeat case_bool_decide;
    auto using level0_effect, level1_effect, level2_effect, line_effect_refl.
Qed.

Lemma py_int_raises s e : py_int s = inl e → ∃ msg, e = ValueError msg.
Proof.
  unfold py_int.
  destruct (match strip_by is_int_space s with
            | String "-" digits => Z.opp <$> int_digits 0 false digits
            | String "+" digits => int_digits 0 false digits
            | _ => int_digits 0 false (strip_by is_int_space s)
            end) as [z|].
  - destruct (int_max_str_digits <? _); [|done]. intros [= <-]. by eexists.
  - intros [= <-]. by eexists.
Qed.

(** What [parse_line] does with a line, by the kind of line. *)
Lemma parse_line_no_tokens st raw_line :
  tokens_of raw_line = None → parse_line st raw_line = inr st.
Proof. unfold parse_line. by intros ->. Qed.

Lemma parse_line_bad_level st raw_line level_str tag value e :
  tokens_of raw_line = Some (level_str, tag, value) →
  py_int level_str = inl e →
  parse_line st raw_line = inr st.
Proof.
  unfold parse_line. intros -> He. rewrite He. simpl.
  by destruct (py_int_raises _ _ He) as [msg ->].
Qed.

Lemma parse_line_level st raw_line level_str tag value level :
  tokens_of raw_line = Some (level_str, tag, value) →
  py_int level_str = inr level →
  parse_line st raw_line = inr (handle_record level tag value st).
Proof. unfold parse_line. intros -> Hl. by rewrite Hl. Qed.

Lemma parse_line_effect st raw_line :
  ∃ st', parse_line st raw_line = inr st' ∧ line_effect st st'.
Proof.
  destruct (tokens_of raw_line) as [[[level_str tag] value]|] eqn:Htok.
  - destruct (py_int level_str) as [e|level] eqn:Hlevel.
    + exists st. split; [by eapply parse_line_bad_level|apply line_effect_refl].
    + eexists. split; [by eapply parse_line_level|apply handle_record_effect].
  - exists st. split; [by apply parse_line_no_tokens|apply line_effect_refl].
Qed.

Lemma parse_lines_total st lines : ∃ st', parse_lines st lines = inr st'.
Proof.
  revert st. induction lines as [|raw_line rest IH]; intros st; simpl.
  - by eexists.
  - destruct (parse_line_effect st raw_line) as (st' & -> & _). apply IH.
Qed.

Lemma parse_lines_app st l1 l2 :
  parse_lines st (l1 ++ l2)
  = match parse_lines st l1 with
    | inl e => inl e
    | inr st' => parse_lines st' l2
    end.
Proof.
  revert st. induction l1 as [|raw_line rest IH]; intros st; simpl; [done|].
  destruct (parse_line st raw_line); simpl; [done|apply IH].
Qed.

Lemma skipped_line_skipped st raw_line :
  skipped_line raw_line → parse_line st raw_line = inr st.
Proof.
  intros [Hblank|Hn2 Hn3|level_str tag value e Htok He
         |level_str tag value level Htok Hl Hdeep].
  - apply parse_line_no_tokens. unfold tokens_of. by rewrite Hblank.
  - apply parse_line_no_tokens. unfold tokens_of.
    destruct (str_truthy _); [|done].
    destruct (split " " 2 _) as [|a [|b [|c [|d l]]]]; simpl in *; done.
  - by eapply parse_line_bad_level.
  - erewrite parse_line_level by done. f_equal.
    unfold handle_record. destruct (is_pointer_tag tag);
      rewrite !bool_decide_eq_false_2 by lia; done.
Qed.

(** Dictionaries and stores. *)
Lemma dict_get_dict_set {V} (d : dict V) k v k' :
  dict_get (dict_set k v d) k' = if decide (k = k') then Some v else dict_get d k'.
Proof.
  induction d as [|[k0 v0] d IH]; simpl.
  - done.
  - destruct (decide (k0 = k)) as [->|Hne]; simpl.
    + by destruct (decide (k = k')).
    + rewrite IH. destruct (decide (k0 = k')) as [->|]; [|done].
      by rewrite decide_False.
Qed.

Lemma refs_below_dict_set {A} (store : list A) d k ref :
  ref < length store → refs_below store d →
  refs_below store (dict_set k ref d).
Proof.
  intros Href. unfold refs_below.
  induction 1 as [|[k0 r0] d Hd Hrest IH]; simpl.
  - by repeat constructor.
  - case_decide; constructor; done.
Qed.

Lemma refs_below_mono {A} (store store' : list A) d :
  length store ≤ length store' → refs_below store d → refs_below store' d.
Proof.
  intros Hlen Hd. eapply Forall_impl; [exact Hd|]. intros [k r]; simpl. lia.
Qed.

Lemma dict_get_deref {A} (store : list A) d k :
  refs_below store d →
  dict_get (deref store d) k = dict_get d k ≫= (store !!.).
Proof.
  unfold refs_below, deref.
  induction 1 as [|[k0 r0] d Hd _ IH]; simpl; [done|].
  simpl in Hd. apply lookup_lt_is_Some_2 in Hd as [v Hv].
  rewrite Hv. simpl. case_decide; [simpl; by rewrite Hv|done].
Qed.

Lemma deref_app {A} (store : list A) extra d :
  refs_below store d → deref (store ++ extra) d = deref store d.
Proof.
  unfold refs_below, deref.
  induction 1 as [|[k0 r0] d Hd _ IH]; simpl; [done|].
  simpl in Hd. rewrite lookup_app_l by done.
  destruct (store !! r0); simpl; [f_equal|]; apply IH.
Qed.

Lemma line_effect_wf st st' : line_effect st st' → wf_state st → wf_state st'.
Proof.
  intros Heff (Hi & Hf & Hci & Hcf).
  destruct Heff as [ci cf cs [->| ->] [->| ->]|pointer|pointer
                   |ref f cs Href|ref f cs Href]; unfold wf_state; simpl;
    try (split_and!; done).
  - split_and!; [|done| |done].
    + apply refs_below_dict_set; [rewrite length_app; simpl; lia|].
      eapply refs_below_mono; [|done]. rewrite length_app. lia.
    + intros ? [= <-]. rewrite length_app. simpl. lia.
  - split_and!; [done| |done|].
    + apply refs_below_dict_set; [rewrite length_app; simpl; lia|].
      eapply refs_below_mono; [|done]. rewrite length_app. lia.
    + intros ? [= <-]. rewrite length_app. simpl. lia.
  - split_and!; [|done| |done].
    + eapply refs_below_mono; [|done]. by rewrite length_alter.
    + intros r Hr. rewrite length_alter. by apply Hci.
  - split_and!; [done| |done|].
    + eapply refs_below_mono; [|done]. by rewrite length_alter.
    + intros r Hr. rewrite length_alter. by apply Hcf.
Qed.

Lemma initial_state_wf : wf_state initial_state.
Proof. split_and!; [constructor|constructor|done|done]. Qed.

(** A record that is not the open one stays as it is. *)
Lemma line_effect_closed_individual st st' ref :
  line_effect st st' →
  ref < length (ind_store st) → current_individual st ≠ Some ref →
  ind_store st' !! ref = ind_store st !! ref
  ∧ ref < length (ind_store st') ∧ current_individual st' ≠ Some ref.
Proof.
  intros Heff Hlt Hne.
  destruct Heff as [ci cf cs [->| ->] _|pointer|pointer
                   |ref' f cs Href|ref' f cs Href]; simpl;
    try (split_and!; done).
  - split_and!.
    + by rewrite lookup_app_l.
    + rewrite length_app. lia.
    + intros [= <-]. lia.
  - split_and!; [|by rewrite length_alter|done].
    apply list_lookup_alter_ne. congruence.
Qed.

Lemma line_effect_closed_family st st' ref :
  line_effect st st' →
  ref < length (fam_store st) → current_family st ≠ Some ref →
  fam_store st' !! ref = fam_store st !! ref
  ∧ ref < length (fam_store st') ∧ current_family st' ≠ Some ref.
Proof.
  intros Heff Hlt Hne.
  destruct Heff as [ci cf cs _ [->| ->]|pointer|pointer
                   |ref' f cs Href|ref' f cs Href]; simpl;
    try (split_and!; done).
  - split_and!.
    + by rewrite lookup_app_l.
    + rewrite length_app. lia.
    + intros [= <-]. lia.
  - split_and!; [|by rewrite length_alter|done].
    apply list_lookup_alter_ne. congruence.
Qed.

Lemma parse_lines_wf st lines st' :
  parse_lines st lines = inr st' → wf_state st → wf_state st'.
Proof.
  revert st. induction lines as [|raw_line rest IH]; intros st; simpl.
  - by intros [= <-].
  - destruct (parse_line_effect st raw_line) as (st1 & -> & Heff). simpl.
    intros Hrest Hwf. eapply IH; [done|]. by eapply line_effect_wf.
Qed.

Lemma parse_lines_closed_individual st lines st' ref :
  parse_lines st lines = inr st' →
  ref < length (ind_store st) → current_individual st ≠ Some ref →
  ind_store st' !! ref = ind_store st !! ref.
Proof.
  revert st. induction lines as [|raw_line rest IH]; intros st; simpl.
  - by intros [= <-].
  - destruct (parse_line_effect st raw_line) as (st1 & -> & Heff). simpl.
    intros Hrest Hlt Hne.
    destruct (line_effect_closed_individual _ _ ref Heff Hlt Hne)
      as (<- & Hlt1 & Hne1).
    by apply IH.
Qed.

Lemma parse_lines_closed_family st lines st' ref :
  parse_lines st lines = inr st' →
  ref < length (fam_store st) → current_family st ≠ Some ref →
  fam_store st' !! ref = fam_store st !! ref.
Proof.
  revert st. induction lines as [|raw_line rest IH]; intros st; simpl.
  - by intros [= <-].
  - destruct (parse_line_effect st raw_line) as (st1 & -> & Heff). simpl.
    intros Hrest Hlt Hne.
    destruct (line_effect_closed_family _ _ ref Heff Hlt Hne)
      as (<- & Hlt1 & Hne1).
    by apply IH.
Qed.

(** Lines of level one and two leave the two dictionaries as they are. *)
Lemma update_individual_bindings ref f st :
  ps_individuals (update_individual ref f st) = ps_individuals st
  ∧ ps_families (update_individual ref f st) = ps_families st.
Proof. done. Qed.

Lemma level1_bindings tag value st :
  ps_individuals (level1 tag value st) = ps_individuals st
  ∧ ps_families (level1 tag value st) = ps_families st.
Proof.
  unfold level1. simpl.
  destruct (current_individual st), (current_family st);
    repeat case_bool_decide; done.
Qed.

Lemma level2_bindings tag value st :
  ps_individuals (level2 tag value st) = ps_individuals st
  ∧ ps_families (level2 tag value st) = ps_families st.
Proof.
  unfold level2.
  destruct (current_individual st), (current_family st);
    repeat case_bool_decide; done.
Qed.

Lemma parse_line_bindings st raw_line st' :
  parse_line st raw_line = inr st' →
  level_of raw_line ≠ Some 0%Z →
  ps_individuals st' = ps_individuals st ∧ ps_families st' = ps_families st.
Proof.
  unfold level_of.
  destruct (tokens_of raw_line) as [[[level_str tag] value]|] eqn:Htok.
  - destruct (py_int level_str) as [e|level] eqn:Hlevel.
    + erewrite parse_line_bad_level by done. by intros [= <-].
    + erewrite parse_line_level by done. intros [= <-] Hnot0.
      unfold handle_record. destruct (is_pointer_tag tag);
        (rewrite bool_decide_eq_false_2 by congruence);
        repeat case_bool_decide;
        auto using level1_bindings, level2_bindings.
  - rewrite parse_line_no_tokens by done. by intros [= <-].
Qed.

Lemma parse_lines_bindings st lines st' :
  parse_lines st lines = inr st' →
  Forall (fun raw_line => level_of raw_line ≠ Some 0%Z) lines →
  ps_individuals st' = ps_individuals st ∧ ps_families st' = ps_families st.
Proof.
  revert st. induction lines as [|raw_line rest IH]; intros st; simpl.
  - by intros [= <-].
  - destruct (parse_line st raw_line) as [e|st1] eqn:Hline; simpl; [done|].
    intros Hrest [Hhead Htail]%Forall_cons.
    destruct (parse_line_bindings _ _ _ Hline Hhead) as [<- <-].
    by apply IH.
Qed.

Lemma is_pointer_tag_truthy tag : is_pointer_tag tag = true → str_truthy tag = true.
Proof. by destruct tag. Qed.

Lemma handle_record_open_individual tag st :
  is_pointer_tag tag = true →
  handle_record 0 tag "INDI" st
  = open_individual tag (with_context None None None st).
Proof.
  intros Hp. unfold handle_record. rewrite Hp. simpl. unfold level0.
  by rewrite (is_pointer_tag_truthy _ Hp).
Qed.

Lemma handle_record_open_family tag st :
  is_pointer_tag tag = true →
  handle_record 0 tag "FAM" st
  = open_family tag (with_context None None None st).
Proof.
  intros Hp. unfold handle_record. rewrite Hp. simpl. unfold level0.
  by rewrite (is_pointer_tag_truthy _ Hp).
Qed.

Lemma handle_record_other tag value st :
  ¬ (is_pointer_tag tag = true ∧ (value = "INDI" ∨ value = "FAM")) →
  handle_record 0 tag value st = with_context None None None st.
Proof.
  intros Hnot. unfold handle_record.
  destruct (is_pointer_tag tag) eqn:Hp; simpl; unfold level0; [|done].
  rewrite !bool_decide_eq_false_2; [done|..]; intros ->; apply Hnot; auto.
Qed.

Lemma refs_below_lookup {A} (store : list A) d k ref :
  refs_below store d → dict_get d k = Some ref → ref < length store.
Proof.
  unfold refs_below. induction 1 as [|[k0 r0] d Hd _ IH]; simpl; [done|].
  case_decide; [by intros [= <-]|done].
Qed.

(** Read through the mapping, a record that is not the open one is the
    same after any lines of level 1 or 2. *)
Lemma parse_lines_closed_lookup st lines st' :
  wf_state st →
  parse_lines st lines = inr st' →
  Forall (fun raw_line => level_of raw_line ≠ Some 0%Z) lines →
  (∀ k, dict_get (ps_individuals st) k ≠ current_individual st →
        dict_get (individuals_of st') k = dict_get (individuals_of st) k)
  ∧ (∀ k, dict_get (ps_families st) k ≠ current_family st →
          dict_get (families_of st') k = dict_get (families_of st) k).
Proof.
  intros Hwf Hlines Hlevels.
  pose proof (parse_lines_wf _ _ _ Hlines Hwf) as Hwf'.
  destruct (parse_lines_bindings _ _ _ Hlines Hlevels) as [Hi Hf].
  destruct Hwf as (Hri & Hrf & _ & _). destruct Hwf' as (Hri' & Hrf' & _ & _).
  split; intros k Hk.
  - unfold individuals_of. rewrite !dict_get_deref, Hi by done.
    destruct (dict_get (ps_individuals st) k) as [ref|] eqn:Href; [|done].
    simpl. eapply parse_lines_closed_individual; [done| |congruence].
    by eapply refs_below_lookup.
  - unfold families_of. rewrite !dict_get_deref, Hf by done.
    destruct (dict_get (ps_families st) k) as [ref|] eqn:Href; [|done].
    simpl. eapply parse_lines_closed_family; [done| |congruence].
    by eapply refs_below_lookup.
Qed.

(** *** The claims about [GedcomParser.parse] *)

(** C2: [parse] never fails and returns the two mappings whatever the
    lines are; a blank line, a line without two or three tokens, a line
    whose level is no integer and a line of level three or more each leave
    the whole state of the parser, and so every record, as it was, and the
    result of a parse is the same with such a line taken out. *)
Theorem parse_tolerant :
  (∀ lines, ∃ individuals families, parse lines = inr (individuals, families))
  ∧ (∀ st raw_line, skipped_line raw_line → parse_line st raw_line = inr st)
  ∧ (∀ before raw_line after,
       skipped_line raw_line →
       parse (before ++ raw_line :: after) = parse (before ++ after)).
Proof.
  split_and!.
  - intros lines. unfold parse.
    destruct (parse_lines_total initial_state lines) as [st ->].
    by eexists _, _.
  - intros st raw_line. apply skipped_line_skipped.
  - intros before raw_line after Hskip. unfold parse.
    rewrite !parse_lines_app.
    destruct (parse_lines initial_state before) as [e|st]; [done|].
    simpl. by rewrite (skipped_line_skipped st raw_line Hskip).
Qed.

Lemma parse_tolerant_witness :
  parse_line initial_state "3 FOO bar" = inr initial_state
  ∧ parse ["0 @I1@ INDI"; "x 1 NAME"; "1 NAME Ann"]
    = parse ["0 @I1@ INDI"; "1 NAME Ann"].
Proof.
  destruct parse_tolerant as (_ & Hline & Hparse). split.
  - apply Hline. by apply (skip_deep _ "3" "FOO" "bar" 3%Z).
  - apply (Hparse ["0 @I1@ INDI"] "x 1 NAME" ["1 NAME Ann"]).
    by apply (skip_level_not_int _ "x" "1" "NAME"
                (ValueError "invalid literal for int() with base 10")).
Defined.

(** C1: after any lines, a line of level 0 whose tag token is a pointer
    followed by [INDI] (or [FAM]) makes a fresh record with that pointer as
    its id, binds the pointer to it in the individuals (or families)
    mapping and leaves every other key and the other mapping alone; any
    other line of level 0 leaves both mappings alone and clears the current
    record; either way the current subsection is cleared and nothing is
    raised.  From then on every record that existed before that line is
    closed: whatever lines follow, it stays as it was; lines of level 1 or
    2 do not rebind a key either, so that every key of the two mappings
    but the one of the open record reads the same after them. *)
Theorem parse_level0_line
    (before : list string) (st : parser_state)
    (raw_line level_str tag value : string) :
  parse_lines initial_state before = inr st →
  tokens_of raw_line = Some (level_str, tag, value) →
  py_int level_str = inr 0%Z →
  ∃ st',
    parse_line st raw_line = inr st'
    ∧ current_section st' = None
    ∧ (is_pointer_tag tag = true → value = "INDI" →
       ind_store st' = ind_store st ++ [new_Individual tag]
       ∧ current_individual st' = Some (length (ind_store st))
       ∧ current_family st' = None
       ∧ dict_get (individuals_of st') tag = Some (new_Individual tag)
       ∧ (∀ k, k ≠ tag →
            dict_get (individuals_of st') k = dict_get (individuals_of st) k)
       ∧ families_of st' = families_of st)
    ∧ (is_pointer_tag tag = true → value = "FAM" →
       fam_store st' = fam_store st ++ [new_Family tag]
       ∧ current_family st' = Some (length (fam_store st))
       ∧ current_individual st' = None
       ∧ dict_get (families_of st') tag = Some (new_Family tag)
       ∧ (∀ k, k ≠ tag →
            dict_get (families_of st') k = dict_get (families_of st) k)
       ∧ individuals_of st' = individuals_of st)
    ∧ (¬ (is_pointer_tag tag = true ∧ (value = "INDI" ∨ value = "FAM")) →
       current_individual st' = None ∧ current_family st' = None
       ∧ individuals_of st' = individuals_of st
       ∧ families_of st' = families_of st)
    ∧ (∀ after st'',
         parse_lines st' after = inr st'' →
         (∀ ref, ref < length (ind_store st) →
                 ind_store st'' !! ref = ind_store st !! ref)
         ∧ (∀ ref, ref < length (fam_store st) →
                   fam_store st'' !! ref = fam_store st !! ref)
         ∧ (Forall (fun l => level_of l ≠ Some 0%Z) after →
            ps_individuals st'' = ps_individuals st'
            ∧ ps_families st'' = ps_families st'
            ∧ (∀ k, dict_get (ps_individuals st') k ≠ current_individual st' →
                    dict_get (individuals_of st'') k
                    = dict_get (individuals_of st') k)
            ∧ (∀ k, dict_get (ps_families st') k ≠ current_family st' →
                    dict_get (families_of st'') k
                    = dict_get (families_of st') k))).
Proof.
  intros Hbefore Htok Hlevel.
  pose proof (parse_lines_wf _ _ _ Hbefore initial_state_wf) as Hwf.
  exists (handle_record 0 tag value st).
  split; [by eapply parse_line_level|].
  assert (Hwf' : wf_state (handle_record 0 tag value st))
    by (eapply line_effect_wf; [apply handle_record_effect|done]).
  destruct Hwf as (Hi & Hf & _ & _).
  split_and!.
  - unfold handle_record. destruct (is_pointer_tag tag); simpl;
      unfold level0; [|done].
    repeat (case_match; simpl; try done).
  - intros Hp ->. rewrite handle_record_open_individual in * by done.
    destruct Hwf' as (Hi' & _). simpl in Hi'.
    split_and!; try done.
    + unfold individuals_of. rewrite dict_get_deref by done. simpl.
      rewrite dict_get_dict_set, decide_True by done. simpl.
      by rewrite lookup_app_r, Nat.sub_diag.
    + intros k Hk. unfold individuals_of.
      rewrite !dict_get_deref by done. simpl.
      rewrite dict_get_dict_set, decide_False by done.
      destruct (dict_get (ps_individuals st) k) as [r|] eqn:Hr; [|done].
      simpl. rewrite lookup_app_l; [done|].
      clear -Hi Hr. induction Hi as [|[k0 r0] d Hd _ IH]; simpl in *; [done|].
      case_decide; [by simplify_eq|auto].
  - intros Hp ->. rewrite handle_record_open_family in * by done.
    destruct Hwf' as (_ & Hf' & _). simpl in Hf'.
    split_and!; try done.
    + unfold families_of. rewrite dict_get_deref by done. simpl.
      rewrite dict_get_dict_set, decide_True by done. simpl.
      by rewrite lookup_app_r, Nat.sub_diag.
    + intros k Hk. unfold families_of.
      rewrite !dict_get_deref by done. simpl.
      rewrite dict_get_dict_set, decide_False by done.
      destruct (dict_get (ps_families st) k) as [r|] eqn:Hr; [|done].
      simpl. rewrite lookup_app_l; [done|].
      clear -Hf Hr. induction Hf as [|[k0 r0] d Hd _ IH]; simpl in *; [done|].
      case_decide; [by simplify_eq|auto].
  - intros Hnot. by rewrite handle_record_other.
  - intros after st'' Hafter.
    pose proof (handle_record_effect 0 tag value st) as Heff.
    assert (Hclosed_i : ∀ ref, ref < length (ind_store st) →
              ref < length (ind_store (handle_record 0 tag value st))
              ∧ current_individual (handle_record 0 tag value st) ≠ Some ref
              ∧ ind_store (handle_record 0 tag value st) !! ref
                = ind_store st !! ref).
    { intros ref Hlt. unfold handle_record.
      destruct (is_pointer_tag tag); simpl; unfold level0;
        repeat (case_match; simpl); rewrite ?length_app;
        split_and!; try done; try lia;
        try (by rewrite lookup_app_l); intros [= <-]; lia. }
    assert (Hclosed_f : ∀ ref, ref < length (fam_store st) →
              ref < length (fam_store (handle_record 0 tag value st))
              ∧ current_family (handle_record 0 tag value st) ≠ Some ref
              ∧ fam_store (handle_record 0 tag value st) !! ref
                = fam_store st !! ref).
    { intros ref Hlt. unfold handle_record.
      destruct (is_pointer_tag tag); simpl; unfold level0;
        repeat (case_match; simpl); rewrite ?length_app;
        split_and!; try done; try lia;
        try (by rewrite lookup_app_l); intros [= <-]; lia. }
    split_and!.
    + intros ref Hlt. destruct (Hclosed_i ref Hlt) as (Hlt' & Hne & <-).
      by eapply parse_lines_closed_individual.
    + intros ref Hlt. destruct (Hclosed_f ref Hlt) as (Hlt' & Hne & <-).
      by eapply parse_lines_closed_family.
    + intros Hlevels.
      destruct (parse_lines_bindings _ _ _ Hafter Hlevels) as [? ?].
      destruct (parse_lines_closed_lookup _ _ _ Hwf' Hafter Hlevels)
        as [? ?].
      done.
Qed.

Lemma parse_level0_line_witness :
  ∃ st st' st'',
    parse_lines initial_state ["0 @I1@ INDI"; "1 NAME Ann"] = inr st
    ∧ parse_line st "0 @I2@ INDI" = inr st'
    ∧ parse_lines st' ["1 NAME Bob"; "1 BIRT"; "2 DATE 1930"] = inr st''
    ∧ dict_get (individuals_of st') "@I2@" = Some (new_Individual "@I2@")
    ∧ dict_get (individuals_of st'') "@I1@"
      = dict_get (individuals_of st) "@I1@".
Proof.
  destruct (parse_level0_line ["0 @I1@ INDI"; "1 NAME Ann"] _
              "0 @I2@ INDI" "0" "@I2@" "INDI" eq_refl eq_refl eq_refl)
    as (st' & Hline & _ & Hind & _ & _ & Hafter).
  destruct (Hind eq_refl eq_refl) as (_ & _ & _ & Hnew & Hold & _).
  destruct (parse_lines_total st' ["1 NAME Bob"; "1 BIRT"; "2 DATE 1930"])
    as [st'' Hlines].
  destruct (Hafter _ _ Hlines) as (_ & _ & Hlevels).
  destruct Hlevels as (_ & _ & Hkeep & _).
  { repeat constructor; vm_compute; discriminate. }
  eexists _, st', st''.
  split_and!; [reflexivity|exact Hline|exact Hlines|exact Hnew|].
  rewrite Hkeep, Hold; [done|done|].
  injection Hline as <-. vm_compute. discriminate.
Defined.

(** ** The descendant walk *)


Lemma dict_get_values {V} (d : dict V) k v :
  dict_get d k = Some v → v ∈ dict_values d.
Proof.
  induction d as [|[k' v'] d IH]; simpl; [done|].
  case_decide; intros Hv.
  - injection Hv as ->. left.
  - right. by apply IH.
Qed.

Section WalkerFacts.
Variable individuals : dict Individual.
Variable families : dict Family.


Local Abbreviation push_families := (push_families families).
Local Abbreviation collect_loop := (collect_loop individuals families).

Lemma elem_of_push_children D cs st x :
  x ∈ push_children D cs st ↔ x ∈ st ∨ (x ∈ cs ∧ x ∉ D).
Proof.
  revert st. induction cs as [|c cs IH]; intros st; simpl.
  - set_solver.
  - rewrite IH. case_decide; set_solver.
Qed.

Lemma length_push_children D cs st :
  length (push_children D cs st) ≤ length st + length cs.
Proof.
  revert st. induction cs as [|c cs IH]; intros st; simpl; [lia|].
  etrans; [apply IH|]. case_decide; simpl; lia.
Qed.

Lemma elem_of_push_families D fs st x :
  x ∈ push_families D fs st ↔
  x ∈ st ∨ ∃ f fam, f ∈ fs ∧ dict_get families f = Some fam
                    ∧ x ∈ children fam ∧ x ∉ D.
Proof.
  revert st. induction fs as [|f fs IH]; intros st; simpl.
  - split; [auto|]. intros [?|(f & fam & Hf & _)]; [done|]. by apply elem_of_nil in Hf.
  - rewrite IH. destruct (dict_get families f) as [fam|] eqn:Hfam.
    + rewrite elem_of_push_children. split.
      * intros [[?|[? ?]]|(f' & fam' & ? & ? & ? & ?)]; [by left|right..].
        -- exists f, fam. split_and!; [left|done..].
        -- exists f', fam'. split_and!; [by right|done..].
      * intros [?|(f' & fam' & [->|?]%elem_of_cons & ? & ? & ?)].
        -- by left; left.
        -- left; right. by simplify_eq.
        -- right. by exists f', fam'.
    + split.
      * intros [?|(f' & fam' & ? & ? & ? & ?)]; [by left|right].
        exists f', fam'. split_and!; [by right|done..].
      * intros [?|(f' & fam' & [->|?]%elem_of_cons & ? & ? & ?)].
        -- by left.
        -- congruence.
        -- right. by exists f', fam'.
Qed.

Lemma length_push_families D fs st :
  length (push_families D fs st)
  ≤ length st + foldr (fun f acc => family_size families f + acc) 0 fs.
Proof.
  revert st. induction fs as [|f fs IH]; intros st; simpl; [lia|].
  etrans; [apply IH|]. unfold family_size at 2.
  destruct (dict_get families f) as [fam|]; [|lia].
  pose proof (length_push_children D (children fam) st). lia.
Qed.

Lemma elem_of_all_children f fam x :
  dict_get families f = Some fam → x ∈ children fam →
  x ∈ all_children families.
Proof.
  intros Hf%dict_get_values Hx. unfold all_children.
  induction (dict_values families) as [|fam' l IH]; simpl.
  - by apply elem_of_nil in Hf.
  - apply elem_of_cons in Hf as [->|Hf]; set_solver.
Qed.

Lemma pushes_le_bound p person :
  dict_get individuals p = Some person →
  pushes_of families person ≤ push_bound individuals families.
Proof.
  intros Hp%dict_get_values. unfold push_bound.
  induction (dict_values individuals) as [|q l IH]; simpl.
  - by apply elem_of_nil in Hp.
  - apply elem_of_cons in Hp as [->|Hp]; [lia|]. specialize (IH Hp). lia.
Qed.

(** Termination: the pair (identifiers not yet seen, length of the work
    list) goes down at each run of the loop. *)
Lemma collect_loop_enough (U : gset string) fuel D st :
  all_children families ⊆ U →
  (∀ x, x ∈ st → x ∈ U) →
  size (U ∖ D) * S (push_bound individuals families) + length st < fuel →
  is_Some (collect_loop fuel D st).
Proof.
  intros HU. revert D st.
  induction fuel as [|fuel IH]; intros D st Hst Hm; [lia|].
  destruct st as [|current rest]; simpl; [by eexists|].
  assert (Hrest : ∀ x, x ∈ rest → x ∈ U) by (intros; apply Hst; by right).
  simpl in Hm. case_decide as Hin.
  - apply IH; [done|lia].
  - assert (HcU : current ∈ U) by (apply Hst; left).
    assert (Hsz : size (U ∖ D) = S (size (U ∖ ({[current]} ∪ D)))).
    { assert (U ∖ D = {[current]} ∪ U ∖ ({[current]} ∪ D)) as ->.
      { apply set_eq. intros x. rewrite !elem_of_union, !elem_of_difference,
          !elem_of_union, !elem_of_singleton.
        destruct (decide (x = current)); naive_solver. }
      rewrite size_union by set_solver. by rewrite size_singleton. }
    destruct (dict_get individuals current) as [person|] eqn:Hp.
    + apply IH.
      * intros x [?|(f & fam & ? & Hf & Hx & ?)]%elem_of_push_families; [auto|].
        apply HU. by eapply elem_of_all_children.
      * pose proof (length_push_families ({[current]} ∪ D) (fams person) rest).
        pose proof (pushes_le_bound _ _ Hp). unfold pushes_of in *. nia.
    + apply IH; [done|nia].
Qed.

(** Two runs from one state agree whatever fuel they are given. *)
Lemma collect_loop_fuel_irrelevant f1 f2 D st ds1 ds2 :
  collect_loop f1 D st = Some ds1 → collect_loop f2 D st = Some ds2 →
  ds1 = ds2.
Proof.
  revert f2 D st. induction f1 as [|f1 IH]; intros f2 D st.
  - destruct st; simpl; [|done]. destruct f2; simpl; congruence.
  - destruct st as [|current rest]; simpl.
    { destruct f2; simpl; congruence. }
    destruct f2 as [|f2]; simpl; [done|].
    case_decide; [apply IH|].
    destruct (dict_get individuals current); apply IH.
Qed.

Variable root_family : Family.
Local Abbreviation descends := (descends individuals families root_family).

Local Abbreviation walk_inv := (walk_inv individuals families root_family).

Lemma walk_inv_initial : walk_inv ∅ (reverse (children root_family)).
Proof.
  split_and!.
  - set_solver.
  - intros x Hx. rewrite elem_of_reverse in Hx. by apply descends_child.
  - intros c Hc. right. by apply elem_of_reverse.
  - set_solver.
Qed.

Lemma walk_inv_done D x : walk_inv D [] → x ∈ D ↔ descends x.
Proof.
  intros (HD & _ & Hroot & Hclosed). split; [apply HD|].
  induction 1 as [c Hc|p person f fam c _ IHp Hp Hf Hfam Hc].
  - destruct (Hroot c Hc) as [?|[]%elem_of_nil]; done.
  - destruct (Hclosed p person f fam c IHp Hp Hf Hfam Hc)
      as [?|[]%elem_of_nil]; done.
Qed.

Lemma walk_inv_seen D current rest :
  current ∈ D → walk_inv D (current :: rest) → walk_inv D rest.
Proof.
  intros Hin (HD & Hst & Hroot & Hclosed). split_and!; [done| |..].
  - intros x Hx. apply Hst. by right.
  - intros c Hc. destruct (Hroot c Hc) as [?|[->|?]%elem_of_cons]; auto.
  - intros p person f fam c Hp Hperson Hf Hfam Hc.
    destruct (Hclosed p person f fam c Hp Hperson Hf Hfam Hc)
      as [?|[->|?]%elem_of_cons]; auto.
Qed.

Lemma walk_inv_dangling D current rest :
  dict_get individuals current = None →
  walk_inv D (current :: rest) → walk_inv ({[current]} ∪ D) rest.
Proof.
  intros Hnone (HD & Hst & Hroot & Hclosed).
  assert (Hcur : descends current) by (apply Hst; left).
  split_and!.
  - intros x [->%elem_of_singleton|?]%elem_of_union; auto.
  - intros x Hx. apply Hst. by right.
  - intros c Hc.
    destruct (Hroot c Hc) as [?|[->|?]%elem_of_cons]; set_solver.
  - intros p person f fam c Hp Hperson Hf Hfam Hc.
    apply elem_of_union in Hp as [->%elem_of_singleton|Hp]; [congruence|].
    destruct (Hclosed p person f fam c Hp Hperson Hf Hfam Hc)
      as [?|[->|?]%elem_of_cons]; set_solver.
Qed.

Lemma walk_inv_expand D current rest person :
  dict_get individuals current = Some person →
  walk_inv D (current :: rest) →
  walk_inv ({[current]} ∪ D)
           (push_families ({[current]} ∪ D) (fams person) rest).
Proof.
  intros Hperson (HD & Hst & Hroot & Hclosed).
  assert (Hcur : descends current) by (apply Hst; left).
  split_and!.
  - intros x [->%elem_of_singleton|?]%elem_of_union; auto.
  - intros x [?|(f & fam & Hf & Hfam & Hx & _)]%elem_of_push_families.
    + apply Hst. by right.
    + by eapply descends_step.
  - intros c Hc. rewrite elem_of_push_families.
    destruct (Hroot c Hc) as [?|[->|?]%elem_of_cons]; set_solver.
  - intros p person' f fam c Hp Hperson' Hf Hfam Hc.
    rewrite elem_of_push_families.
    destruct (decide (c ∈ ({[current]} ∪ D : gset string))) as [|Hnew];
      [by left|right].
    apply elem_of_union in Hp as [->%elem_of_singleton|Hp].
    + right. exists f, fam. by simplify_eq.
    + destruct (Hclosed p person' f fam c Hp Hperson' Hf Hfam Hc)
        as [?|[->|?]%elem_of_cons]; [set_solver..|by left].
Qed.

Lemma collect_loop_sound fuel D st ds :
  walk_inv D st → collect_loop fuel D st = Some ds →
  ∀ x, x ∈ ds ↔ descends x.
Proof.
  revert D st. induction fuel as [|fuel IH]; intros D st Hinv.
  - destruct st; simpl; [|done]. intros [= <-] x. by apply walk_inv_done.
  - destruct st as [|current rest]; simpl.
    { intros [= <-] x. by apply walk_inv_done. }
    case_decide as Hin.
    + apply IH. by eapply walk_inv_seen.
    + destruct (dict_get individuals current) as [person|] eqn:Hperson.
      * apply IH. by apply walk_inv_expand.
      * apply IH. by apply walk_inv_dangling.
Qed.

Lemma collect_fuel_enough fuel :
  collect_fuel individuals families root_family ≤ fuel →
  is_Some (collect_descendants_fuel individuals families fuel root_family).
Proof.
  intros Hfuel. unfold collect_descendants_fuel.
  apply (collect_loop_enough
           (list_to_set (children root_family) ∪ all_children families)).
  - set_solver.
  - intros x Hx. rewrite elem_of_reverse in Hx. set_solver.
  - unfold collect_fuel in Hfuel. rewrite length_reverse.
    assert (size ((list_to_set (children root_family)
                   ∪ all_children families) ∖ (∅ : gset string))
            ≤ size (list_to_set (children root_family)
                    ∪ all_children families : gset string))
      by (apply subseteq_size; set_solver).
    nia.
Qed.
End WalkerFacts.

(** *** The claims about [collect_descendants] *)

(** C4: for every individuals mapping, families mapping and root family
    the walk ends: the loop of [collect_descendants] returns a set once it
    is given [collect_fuel] runs, a number computed from the input alone,
    and any larger allowance returns the same set.  Cyclic cross-references
    make no difference. *)
Theorem collect_descendants_terminates
    (individuals : dict Individual) (families : dict Family)
    (root_family : Family) (fuel : nat) :
  collect_fuel individuals families root_family ≤ fuel →
  ∃ ds, collect_descendants individuals families root_family = Some ds
        ∧ collect_descendants_fuel individuals families fuel root_family
          = Some ds.
Proof.
  intros Hfuel.
  destruct (collect_fuel_enough individuals families root_family
              (collect_fuel individuals families root_family)) as [ds Hds];
    [done|].
  destruct (collect_fuel_enough individuals families root_family fuel Hfuel)
    as [ds' Hds'].
  exists ds. split; [done|].
  rewrite Hds'. f_equal.
  exact (collect_loop_fuel_irrelevant _ _ _ _ _ _ _ _ Hds' Hds).
Qed.

Lemma collect_descendants_terminates_witness :
  ∃ ds, collect_descendants cyclic_individuals cyclic_families cyclic_root
        = Some ds
        ∧ collect_descendants_fuel cyclic_individuals cyclic_families 100
            cyclic_root = Some ds.
Proof.
  apply (collect_descendants_terminates cyclic_individuals cyclic_families
           cyclic_root 100).
  vm_compute. lia.
Defined.

(** C3, as the source has it: [collect_descendants] returns exactly the
    identifiers reachable as children of the root family, of the families
    of those children, and so on; every run returns that same set; the set
    is empty when the root family has no children; and a husband or wife
    of the root family is in it only when that identifier is itself
    reachable as a child. *)
Theorem collect_descendants_spec
    (individuals : dict Individual) (families : dict Family)
    (root_family : Family) :
  ∃ ds, collect_descendants individuals families root_family = Some ds
        ∧ (∀ x, x ∈ ds ↔ descends individuals families root_family x)
        ∧ (∀ fuel ds',
             collect_descendants_fuel individuals families fuel root_family
             = Some ds' → ds' = ds)
        ∧ (children root_family = [] → ds = ∅)
        ∧ (∀ spouse,
             husband root_family = Some spouse ∨ wife root_family = Some spouse →
             ¬ descends individuals families root_family spouse →
             spouse ∉ ds).
Proof.
  destruct (collect_fuel_enough individuals families root_family
              (collect_fuel individuals families root_family)) as [ds Hds];
    [done|].
  assert (Hspec : ∀ x, x ∈ ds ↔ descends individuals families root_family x).
  { eapply collect_loop_sound; [apply walk_inv_initial|exact Hds]. }
  exists ds. split_and!; [done|done| | |].
  - intros fuel ds' Hds'.
    exact (collect_loop_fuel_irrelevant _ _ _ _ _ _ _ _ Hds' Hds).
  - intros Hnil. unfold collect_descendants, collect_descendants_fuel in Hds.
    rewrite Hnil in Hds. destruct (collect_fuel _ _ _); simpl in Hds; congruence.
  - intros spouse _ Hnot Hin. by apply Hnot, Hspec.
Qed.

Lemma collect_descendants_spec_witness :
  ∃ ds, collect_descendants cyclic_individuals cyclic_families
          (mkFamily "@F0@" (Some "@I8@") (Some "@I9@") ["@I1@"] new_Event)
        = Some ds
        ∧ "@I1@" ∈ ds ∧ "@I8@" ∉ ds.
Proof.
  destruct (collect_descendants_spec cyclic_individuals cyclic_families
              (mkFamily "@F0@" (Some "@I8@") (Some "@I9@") ["@I1@"] new_Event))
    as (ds & Hds & Hspec & _ & _ & Hspouse).
  exists ds. split_and!; [done| |].
  - apply Hspec. apply descends_child. simpl. left.
  - apply Hspouse; [by left|].
    assert (Hall : ∀ x, descends cyclic_individuals cyclic_families
                     (mkFamily "@F0@" (Some "@I8@") (Some "@I9@") ["@I1@"]
                        new_Event) x → x = "@I1@").
    { induction 1 as [c Hc|p person f fam c _ IHp Hp Hf Hfam Hc].
      - simpl in Hc. by apply list_elem_of_singleton in Hc.
      - subst p. vm_compute in Hp. injection Hp as <-. simpl in Hf.
        apply list_elem_of_singleton in Hf as ->. vm_compute in Hfam.
        injection Hfam as <-. simpl in Hc.
        by apply list_elem_of_singleton in Hc. }
    intros Hd. apply Hall in Hd. discriminate.
Defined.

(** C3, as stated, fails: the husband of the root family is returned when
    the file lists him among the children. *)
Lemma collect_descendants_spouse_counterexample :
  ¬ (∀ individuals families root_family ds spouse,
       collect_descendants individuals families root_family = Some ds →
       husband root_family = Some spouse ∨ wife root_family = Some spouse →
       spouse ∉ ds).
Proof.
  intros Hclaim.
  destruct (parse own_child_lines) as [e|[individuals families]] eqn:Hparse;
    [vm_compute in Hparse; discriminate|].
  destruct (dict_get families "@F1@") as [root_family|] eqn:Hroot;
    [|vm_compute in Hparse; injection Hparse as <- <-;
      vm_compute in Hroot; discriminate].
  destruct (collect_descendants individuals families root_family)
    as [ds|] eqn:Hds;
    [|vm_compute in Hparse; injection Hparse as <- <-;
      vm_compute in Hroot; injection Hroot as <-;
      vm_compute in Hds; discriminate].
  apply (Hclaim individuals families root_family ds "@I1@" Hds).
  - left. vm_compute in Hparse. injection Hparse as <- <-.
    vm_compute in Hroot. by injection Hroot as <-.
  - vm_compute in Hparse. injection Hparse as <- <-.
    vm_compute in Hroot. injection Hroot as <-.
    unfold collect_descendants in Hds. vm_compute collect_fuel in Hds.
    simpl in Hds. injection Hds as <-. set_solver.
Qed.



(** ** The name key *)




Lemma lower_truthy s : str_truthy (lower s) = str_truthy s.
Proof. by destruct s. Qed.

Lemma lower_app a b : lower (a +:+ b) = lower a +:+ lower b.
Proof. induction a as [|c a IH]; simpl; [done|]. by rewrite IH. Qed.


(** The pieces of [re.split]. *)
Local Abbreviation nonempty := (fun token : string => str_truthy token = true).

Lemma split_runs_cons cls b s : ∃ p ps, split_runs cls b s = p :: ps.
Proof.
  revert b. induction s as [|c s IH]; intros b; simpl; [by eexists _, _|].
  destruct (cls c).
  - destruct b; [apply IH|by eexists _, _].
  - destruct (IH false) as (p & ps & ->). by eexists _, _.
Qed.




(** A run of characters that are no letters, standing between two texts,
    separates their tokens whatever the run is. *)
Lemma split_runs_across cls a d r :
  cls d = true →
  (∀ b, filter nonempty (split_runs cls b (a +:+ String d r))
        = filter nonempty (split_runs cls b a)
          ++ filter nonempty (split_runs cls true r))
  ∧ (∃ p ps ps',
       split_runs cls false (a +:+ String d r) = p :: ps
       ∧ split_runs cls false a = p :: ps'
       ∧ filter nonempty ps
         = filter nonempty ps' ++ filter nonempty (split_runs cls true r)).
Proof.
  intros Hd. induction a as [|c a [IHw IHs]].
  - change ("" +:+ String d r) with (String d r). simpl. rewrite Hd. split.
    + intros [|]; [done|]. by rewrite filter_cons_False.
    + by eexists "", _, [].
  - change (String c a +:+ String d r) with (String c (a +:+ String d r)).
    simpl. destruct (cls c) eqn:Hc.
    + split.
      * intros [|]; [apply IHw|].
        rewrite !filter_cons_False by done. apply IHw.
      * eexists "", _, _. split_and!; [done..|]. apply IHw.
    + destruct IHs as (p & ps & ps' & -> & -> & Hf). split.
      * intros _. rewrite !filter_cons_True by done. by rewrite Hf.
      * by eexists _, _, _.
Qed.

Lemma filter_split_runs_flag cls b s :
  filter nonempty (split_runs cls b s)
  = filter nonempty (split_runs cls false s).
Proof.
  destruct s as [|c s]; simpl; [done|].
  destruct (cls c); [|done]. destruct b; [|done].
  by rewrite filter_cons_False.
Qed.

Lemma split_runs_skip cls sep r :
  str_forall cls sep = true →
  filter nonempty (split_runs cls true (sep +:+ r))
  = filter nonempty (split_runs cls true r).
Proof.
  induction sep as [|c sep IH]; simpl; [done|].
  intros [Hc Hsep]%andb_prop. rewrite Hc. by apply IH.
Qed.

Lemma name_tokens_across a sep b :
  sep ≠ "" → str_forall not_alpha sep = true →
  name_tokens (a +:+ sep +:+ b) = name_tokens a ++ name_tokens b.
Proof.
  intros Hne Hsep. destruct sep as [|d sep]; [done|].
  simpl in Hsep. apply andb_prop in Hsep as [Hd Hsep].
  unfold name_tokens, re_split_runs.
  change (String d sep +:+ b) with (String d (sep +:+ b)).
  rewrite (proj1 (split_runs_across not_alpha a d (sep +:+ b) Hd) false).
  by rewrite split_runs_skip, (filter_split_runs_flag _ true).
Qed.

Lemma name_tokens_word t :
  str_truthy t = true → str_forall is_ascii_alpha t = true →
  name_tokens t = [t].
Proof.
  intros Ht Halpha. unfold name_tokens, re_split_runs.
  assert (Hsplit : split_runs not_alpha false t = [t]).
  { clear Ht. induction t as [|c t IH]; simpl; [done|].
    simpl in Halpha. apply andb_prop in Halpha as [Hc Ht].
    unfold not_alpha. rewrite Hc. simpl. fold not_alpha. by rewrite IH. }
  rewrite Hsplit. by rewrite filter_cons_True.
Qed.

Lemma split_runs_pieces_alpha b s :
  Forall (fun p => str_forall is_ascii_alpha p = true)
         (split_runs not_alpha b s).
Proof.
  revert b. induction s as [|c s IH]; intros b; simpl.
  - by repeat constructor.
  - destruct (not_alpha c) eqn:Hc.
    + destruct b; [apply IH|]. constructor; [done|apply IH].
    + assert (Halpha : is_ascii_alpha c = true).
      { unfold not_alpha in Hc. by apply negb_false_iff in Hc. }
      specialize (IH false).
      destruct (split_runs not_alpha false s) as [|p ps].
      * constructor; [|done]. simpl. by rewrite Halpha.
      * apply Forall_cons in IH as [Hp Hps]. constructor; [|done].
        simpl. by rewrite Hp, Halpha.
Qed.

Lemma name_tokens_alpha s :
  Forall (fun t => str_truthy t = true ∧ str_forall is_ascii_alpha t = true)
         (name_tokens s).
Proof.
  unfold name_tokens, re_split_runs. apply Forall_forall.
  intros t [Ht Hin]%list_elem_of_filter. split; [done|].
  by eapply (proj1 (Forall_forall _ _) (split_runs_pieces_alpha false s)).
Qed.



Lemma last_name_elem l x : last_name l = Some x → ∃ t, t ∈ l ∧ x = lower t.
Proof.
  induction l as [|t l IH]; simpl; [done|].
  destruct (is_suffix (lower t)).
  - intros (u & Hu & ->)%IH. exists u. split; [by right|done].
  - intros [= <-]. exists t. split; [left|done].
Qed.





(** *** The claims about [extract_name_key] *)



(** ** The page slug *)




Lemma lstrip_by_head q s :
  (∀ c, str_head s = Some c → q c = false) → lstrip_by q s = s.
Proof.
  destruct s as [|c s]; simpl; [done|]. intros H. by rewrite (H c).
Qed.




Local Abbreviation hy := (char_in "-").

Lemma app_empty_r s : s +:+ "" = s.
Proof.
  induction s as [|c s IH]; [done|].
  change (String c (s +:+ "") = String c s). by rewrite IH.
Qed.

Lemma join_hyphenated t l : join "-" (t :: l) = t +:+ hyphenated l.
Proof.
  revert t. induction l as [|u l IH]; intros t.
  - simpl. by rewrite app_empty_r.
  - change (join "-" (t :: u :: l)) with (t +:+ "-" +:+ join "-" (u :: l)).
    by rewrite IH.
Qed.

Lemma not_lower_alnum_hyphen c : not_lower_alnum c = false → hy c = false.
Proof.
  destruct c as [[] [] [] [] [] [] [] []]; vm_compute; congruence.
Qed.

Lemma sub_runs_true_head s c :
  str_head (sub_runs not_lower_alnum "-" true s) = Some c → hy c = false.
Proof.
  induction s as [|d s IH]; simpl; [done|].
  destruct (not_lower_alnum d) eqn:Hd; [done|].
  simpl. intros [= <-]. by apply not_lower_alnum_hyphen.
Qed.

Lemma lstrip_sub_runs b s :
  lstrip_by hy (sub_runs not_lower_alnum "-" b s)
  = sub_runs not_lower_alnum "-" true s.
Proof.
  destruct s as [|d s]; [done|]. cbn [sub_runs].
  destruct (not_lower_alnum d) eqn:Hd.
  - destruct b; [apply lstrip_by_head, sub_runs_true_head|].
    change ("-" +:+ sub_runs not_lower_alnum "-" true s)
      with (String "-" (sub_runs not_lower_alnum "-" true s)).
    change (lstrip_by hy (String "-" (sub_runs not_lower_alnum "-" true s)))
      with (lstrip_by hy (sub_runs not_lower_alnum "-" true s)).
    apply lstrip_by_head, sub_runs_true_head.
  - apply lstrip_by_head. intros c [= <-]. by apply not_lower_alnum_hyphen.
Qed.

Lemma rstrip_by_cons q c s :
  rstrip_by q (String c s)
  = match rstrip_by q s with
    | EmptyString => if q c then EmptyString else String c EmptyString
    | r => String c r
    end.
Proof. done. Qed.

Lemma rstrip_sub_runs s :
  (∀ p ps, split_runs not_lower_alnum false s = p :: ps →
           rstrip_by hy (sub_runs not_lower_alnum "-" false s)
           = p +:+ hyphenated (filter nonempty ps))
  ∧ rstrip_by hy (sub_runs not_lower_alnum "-" true s)
    = join "-" (filter nonempty (split_runs not_lower_alnum true s)).
Proof.
  induction s as [|c s [IHf IHt]].
  - split; [|done]. by intros p ps [= <- <-].
  - cbn [sub_runs split_runs]. destruct (not_lower_alnum c) eqn:Hc.
    + split; [|done]. intros p ps [= <- <-].
      change ("-" +:+ sub_runs not_lower_alnum "-" true s)
        with (String "-" (sub_runs not_lower_alnum "-" true s)).
      rewrite rstrip_by_cons, IHt.
      destruct (filter nonempty (split_runs not_lower_alnum true s))
        as [|t l] eqn:Hfilter; [done|].
      assert (Ht : str_truthy t = true).
      { assert (t ∈ filter nonempty (split_runs not_lower_alnum true s))
          as [? _]%list_elem_of_filter by (rewrite Hfilter; left).
        done. }
      rewrite join_hyphenated. by destruct t.
    + destruct (split_runs_cons not_lower_alnum false s) as (p' & ps' & Hs).
      rewrite Hs. specialize (IHf p' ps' Hs).
      assert (Hkept : rstrip_by hy
                (String c (sub_runs not_lower_alnum "-" false s))
              = String c (p' +:+ hyphenated (filter nonempty ps'))).
      { rewrite rstrip_by_cons, IHf.
        destruct (p' +:+ hyphenated (filter nonempty ps')); [|done].
        by rewrite (not_lower_alnum_hyphen c Hc). }
      split.
      * by intros p ps [= <- <-].
      * rewrite Hkept, filter_cons_True by done. by rewrite join_hyphenated.
Qed.

(** The name part of a slug is the words of the lower-cased name, joined
    by hyphens. *)
Lemma slug_base_words s :
  strip (re_sub_runs not_lower_alnum "-" s) "-" = join "-" (alnum_words s).
Proof.
  unfold strip, strip_by, re_sub_runs, alnum_words, re_split_runs.
  rewrite lstrip_sub_runs, (proj2 (rstrip_sub_runs s)).
  by rewrite (filter_split_runs_flag _ true).
Qed.

(** *** The claims about [slugify] *)




(** ** The lookup by name *)

(** Sorting by key. *)
Lemma key_lt_false_fst a b : key_lt a b = false → b.1 ≤ a.1.
Proof.
  unfold key_lt. intros [H1 H2]%orb_false_elim.
  apply Nat.ltb_ge in H1. done.
Qed.

Lemma key_lt_false_trans a b c :
  key_lt b a = false → key_lt c b = false → key_lt c a = false.
Proof.
  unfold key_lt. intros [H1 H2]%orb_false_elim [H3 H4]%orb_false_elim.
  apply Nat.ltb_ge in H1, H3.
  apply orb_false_intro; [apply Nat.ltb_ge; lia|].
  destruct (decide (c.1 = a.1)) as [Heq|Hne].
  - assert (b.1 = a.1) as Hba by lia. assert (c.1 = b.1) as Hcb by lia.
    rewrite Hba, Nat.eqb_refl in H2. rewrite Hcb, Nat.eqb_refl in H4.
    simpl in *. apply Nat.ltb_ge in H2, H4.
    rewrite Heq, Nat.eqb_refl. simpl. apply Nat.ltb_ge. lia.
  - apply Nat.eqb_neq in Hne. by rewrite Hne.
Qed.

Lemma key_lt_true_false a b : key_lt a b = true → key_lt b a = false.
Proof.
  unfold key_lt. intros [H|[H1 H2]%andb_prop]%orb_prop.
  - apply Nat.ltb_lt in H. apply orb_false_intro; [apply Nat.ltb_ge; lia|].
    assert (b.1 ≠ a.1) as Hne%Nat.eqb_neq by lia. by rewrite Hne.
  - apply Nat.eqb_eq in H1. apply Nat.ltb_lt in H2.
    apply orb_false_intro; [apply Nat.ltb_ge; lia|].
    rewrite <- H1, Nat.eqb_refl. simpl. apply Nat.ltb_ge. lia.
Qed.

Section Sorting.
Context {A : Type} (key : A → nat * nat).

Local Abbreviation ordered := (in_order key).

Lemma insert_by_perm x l : insert_by key x l ≡ₚ x :: l.
Proof.
  induction l as [|y l IH]; simpl; [done|].
  destruct (key_lt (key y) (key x)); [|done].
  rewrite IH. apply Permutation_swap.
Qed.

Lemma sorted_by_perm l : sorted_by key l ≡ₚ l.
Proof.
  induction l as [|x l IH]; simpl; [done|]. by rewrite insert_by_perm, IH.
Qed.

Lemma insert_by_sorted x l :
  StronglySorted ordered l → StronglySorted ordered (insert_by key x l).
Proof.
  induction 1 as [|y l Hl IH Hy]; simpl.
  - by repeat constructor.
  - destruct (key_lt (key y) (key x)) eqn:Hlt.
    + constructor; [done|]. rewrite insert_by_perm.
      constructor; [|done]. by apply key_lt_true_false.
    + constructor; [by constructor|].
      constructor; [done|].
      eapply Forall_impl; [exact Hy|]. intros z Hz. unfold in_order in *.
      by eapply key_lt_false_trans.
Qed.

Lemma sorted_by_sorted l : StronglySorted ordered (sorted_by key l).
Proof.
  induction l as [|x l IH]; simpl; [constructor|]. by apply insert_by_sorted.
Qed.
End Sorting.

(** The lookup. *)
Lemma score_class q ind :
  contains (normalise (display_name ind)) q = true →
  match_class q ind
  = if bool_decide (normalise (display_name ind) = q) then 0
    else if startswith (normalise (display_name ind)) q then 1 else 2.
Proof.
  intros Hc. unfold match_class, score. rewrite Hc.
  repeat case_match; done.
Qed.

Lemma in_class_perm q c l l' :
  l ≡ₚ l' → length (in_class q c l) = length (in_class q c l').
Proof. intros Hp. unfold in_class. by rewrite Hp. Qed.

Section Lookup.
Variable individuals : dict Individual.
Variable query : string.
Local Abbreviation q := (normalise query).
Local Abbreviation cands := (candidates individuals q).
Local Abbreviation class := (match_class q).

Lemma find_individual_cases :
  (q = "" ∧ ∃ msg, find_individual individuals query = inl (ValueError msg))
  ∨ (q ≠ "" ∧ cands = []
     ∧ ∃ msg, find_individual individuals query = inl (ValueError msg))
  ∨ (q ≠ "" ∧ ∃ best rest,
       sorted_by (score q) cands = best :: rest
       ∧ Forall (fun other => class best ≤ class other) rest
       ∧ ((∃ second more, rest = second :: more
             ∧ class second = class best
             ∧ ∃ msg, find_individual individuals query
                      = inl (ValueError msg))
          ∨ (Forall (fun other => class best < class other) rest
             ∧ find_individual individuals query = inr best))).
Proof.
  unfold find_individual. fold (candidates individuals q).
  destruct (str_truthy q) eqn:Htruthy; simpl;
    [|left; split; [by destruct q|eexists; reflexivity]].
  assert (Hq : q ≠ "") by (intros Hq; by rewrite Hq in Htruthy).
  right.
  pose proof (sorted_by_perm (score q) cands) as Hperm.
  pose proof (sorted_by_sorted (score q) cands) as Hsorted.
  destruct (sorted_by (score q) cands) as [|best rest] eqn:Hs.
  - left. split_and!; [done|by apply Permutation_nil_l in Hperm
                      |eexists; reflexivity].
  - right. split; [done|]. exists best, rest.
    apply StronglySorted_inv in Hsorted as [Hrest Hbest].
    assert (Hmin : Forall (fun other => class best ≤ class other) rest).
    { eapply Forall_impl; [exact Hbest|]. intros other Ho.
      by apply key_lt_false_fst. }
    split_and!; [done|done|].
    destruct rest as [|second more].
    + right. split; [constructor|done].
    + destruct (decide (class second = class best)) as [Heq|Hne].
      * left. exists second, more. split_and!; [done..|].
        unfold match_class in Heq. rewrite Heq, Nat.eqb_refl.
        eexists; reflexivity.
      * right.
        assert (Hlt : class best < class second).
        { apply Forall_cons in Hmin as [? _]. lia. }
        split.
        -- constructor; [done|].
           apply StronglySorted_inv in Hrest as [_ Hsecond].
           eapply Forall_impl; [exact Hsecond|]. intros other Ho.
           apply key_lt_false_fst in Ho. unfold match_class in *. lia.
        -- apply Nat.eqb_neq in Hne. unfold match_class in Hne.
           by rewrite Hne.
Qed.
End Lookup.

(** *** The claims about [find_individual] *)

(** C8: [find_individual] raises, and then a [ValueError], exactly when the
    query normalises to nothing, or no normalised display name contains
    it, or the best class that occurs (the same text before a prefix
    before a place inside) holds two candidates or more; otherwise it
    returns the one candidate of the best class. *)
Theorem find_individual_spec (individuals : dict Individual) (query : string) :
  let q := normalise query in
  let cands := candidates individuals q in
  ((∃ e, find_individual individuals query = inl e)
   ↔ q = "" ∨ cands = [] ∨ ambiguous q cands)
  ∧ (∀ e, find_individual individuals query = inl e → ∃ msg, e = ValueError msg)
  ∧ (∀ best,
       find_individual individuals query = inr best →
       best ∈ cands
       ∧ (∀ other, other ∈ cands → match_class q best ≤ match_class q other)
       ∧ in_class q (match_class q best) cands = [best]
       ∧ match_class q best
         = if bool_decide (normalise (display_name best) = q) then 0
           else if startswith (normalise (display_name best)) q then 1
           else 2).
Proof.
  intros q cands. subst q cands.
  pose proof (find_individual_cases individuals query) as Hcases.
  set (q := normalise query) in *.
  set (cands := candidates individuals q) in *.
  assert (Hunique : ∀ best rest,
            sorted_by (score q) cands = best :: rest →
            Forall (fun other => match_class q best < match_class q other) rest →
            best ∈ cands
            ∧ (∀ other, other ∈ cands →
                 match_class q best ≤ match_class q other)
            ∧ in_class q (match_class q best) cands = [best]).
  { intros best rest Hs Hlt.
    pose proof (sorted_by_perm (score q) cands) as Hperm. rewrite Hs in Hperm.
    assert (Hin : best ∈ cands) by (rewrite <- Hperm; left).
    split_and!; [done| |].
    - intros other Ho. rewrite <- Hperm in Ho.
      apply elem_of_cons in Ho as [->|Ho]; [done|].
      apply (proj1 (Forall_forall _ _) Hlt) in Ho. lia.
    - assert (Hlen : length (in_class q (match_class q best) cands) = 1).
      { rewrite <- (in_class_perm q _ _ _ Hperm). unfold in_class.
        rewrite filter_cons_True by done. simpl. f_equal.
        apply length_zero_iff_nil.
        clear -Hlt. induction Hlt as [|x l Hx _ IH]; [done|].
        rewrite filter_cons_False by lia. exact IH. }
      assert (Hbest : best ∈ in_class q (match_class q best) cands)
        by (by apply list_elem_of_filter).
      destruct (in_class q (match_class q best) cands) as [|x [|y l]];
        simpl in Hlen; [lia| |lia].
      by apply list_elem_of_singleton in Hbest as ->. }
  destruct Hcases
    as [[Hq [msg Hfind]]
       |[(Hq & Hnone & msg & Hfind)
        |(Hq & best & rest & Hs & Hmin
          & [(second & more & -> & Hsame & msg & Hfind)|[Hlt Hfind]])]];
    rewrite Hfind.
  - split_and!; [split; [by left|by eexists]|intros e [= <-]; by eexists
                |done].
  - split_and!; [split; [by right; left|by eexists]
                |intros e [= <-]; by eexists|done].
  - pose proof (sorted_by_perm (score q) cands) as Hperm. rewrite Hs in Hperm.
    split_and!; [split; [intros _|by eexists]|intros e [= <-]; by eexists
                |done].
    right; right. exists (match_class q best). split.
    + intros other Ho. rewrite <- Hperm in Ho.
      apply elem_of_cons in Ho as [->|Ho]; [done|].
      by apply (proj1 (Forall_forall _ _) Hmin) in Ho.
    + rewrite <- (in_class_perm q _ _ _ Hperm). unfold in_class.
      rewrite !filter_cons_True by done. simpl. lia.
  - destruct (Hunique best rest Hs Hlt) as (Hin & Hle & Hone).
    split_and!; [split|done|].
    + by intros [e ?].
    + intros [Hq'|[Hnone|(c & Hc & Hcount)]]; [done|..].
      * rewrite Hnone in Hin. by apply elem_of_nil in Hin.
      * exfalso.
        assert (Hex : ∃ x, x ∈ in_class q c cands).
        { destruct (in_class q c cands) as [|x l]; [simpl in Hcount; lia|].
          exists x. left. }
        destruct Hex as [x [Hxc Hx]%list_elem_of_filter].
        assert (c = match_class q best) as ->.
        { specialize (Hc best Hin). specialize (Hle x Hx). lia. }
        rewrite Hone in Hcount. simpl in Hcount. lia.
    + intros ? [= <-]. split_and!; [done..|].
      apply score_class.
      by apply list_elem_of_filter in Hin as [? _].
Qed.

Lemma find_individual_spec_witness :
  ∃ best,
    find_individual
      [("@I1@", mkIndividual "@I1@" "John /Doe/" "" "" "" None []
                  new_Event new_Event);
       ("@I2@", mkIndividual "@I2@" "John /Doering/" "" "" "" None []
                  new_Event new_Event)]
      "john doe" = inr best
    ∧ ind_id best = "@I1@"
    ∧ match_class (normalise "john doe") best = 0.
Proof.
  eexists. split; [reflexivity|]. split; [reflexivity|].
  destruct (find_individual_spec
              [("@I1@", mkIndividual "@I1@" "John /Doe/" "" "" "" None []
                          new_Event new_Event);
               ("@I2@", mkIndividual "@I2@" "John /Doering/" "" "" "" None []
                          new_Event new_Event)]
              "john doe") as (_ & _ & Hbest).
  destruct (Hbest _ eq_refl) as (_ & _ & _ & ->). reflexivity.
Defined.

(** ** Dates and sort keys *)

(** The order of texts. *)
Lemma ltb_compare s1 s2 : String.ltb s1 s2 = true ↔ String.compare s1 s2 = Lt.
Proof. unfold String.ltb. by destruct (String.compare s1 s2). Qed.

Lemma compare_refl s : String.compare s s = Eq.
Proof.
  induction s as [|c s IH]; simpl; [done|].
  unfold Ascii.compare. by rewrite N.compare_refl.
Qed.

Lemma ltb_irrefl s : String.ltb s s = false.
Proof. unfold String.ltb. by rewrite compare_refl. Qed.

Lemma ltb_leb s1 s2 : String.ltb s1 s2 = true → String.leb s1 s2 = true.
Proof. unfold String.ltb, String.leb. by destruct (String.compare s1 s2). Qed.

Lemma ltb_trans s1 s2 s3 :
  String.ltb s1 s2 = true → String.ltb s2 s3 = true → String.ltb s1 s3 = true.
Proof.
  intros H12 H23.
  assert (Hle : String.le s1 s3).
  { etrans; apply Is_true_true, ltb_leb; done. }
  apply Is_true_true in Hle. unfold String.leb in Hle.
  unfold String.ltb. destruct (String.compare s1 s3) eqn:Hc; [|done..].
  apply String.compare_eq_iff in Hc as ->.
  apply ltb_compare in H12, H23.
  rewrite String.compare_antisym, H23 in H12. done.
Qed.

Lemma ltb_trichotomy s1 s2 :
  String.ltb s1 s2 = true ∨ s1 = s2 ∨ String.ltb s2 s1 = true.
Proof.
  destruct (String.compare s1 s2) eqn:Hc.
  - right; left. by apply String.compare_eq_iff.
  - left. by apply ltb_compare.
  - right; right. apply ltb_compare.
    by rewrite String.compare_antisym, Hc.
Qed.

Lemma ltb_asym s1 s2 : String.ltb s1 s2 = true → String.ltb s2 s1 = false.
Proof.
  intros H12. destruct (String.ltb s2 s1) eqn:H21; [|done].
  pose proof (ltb_trans _ _ _ H12 H21) as H. by rewrite ltb_irrefl in H.
Qed.

Lemma birth_sort_key_cases individual k :
  birth_sort_key individual = inr k →
  (∃ dt, parse_date_string (date (birth individual)) = inr (Some dt)
         ∧ k = [PyInt 0; PyInt (year dt); PyInt (month dt); PyInt (day dt);
                PyStr (normalise (display_name individual))])
  ∨ (parse_date_string (date (birth individual)) = inr None
     ∧ k = [PyInt 1; PyStr (normalise (display_name individual))]).
Proof.
  unfold birth_sort_key.
  destruct (parse_date_string (date (birth individual))) as [e|[dt|]];
    simpl; [done|..]; intros [= <-]; [left|right]; eauto.
Qed.

Lemma birth_sort_key_shape individual k :
  birth_sort_key individual = inr k → key_shape k.
Proof.
  intros [(dt & _ & ->)|[_ ->]]%birth_sort_key_cases; constructor.
Qed.

Lemma tuple_lt_dated y1 m1 d1 s1 y2 m2 d2 s2 :
  tuple_lt [PyInt 0; PyInt y1; PyInt m1; PyInt d1; PyStr s1]
           [PyInt 0; PyInt y2; PyInt m2; PyInt d2; PyStr s2]
  = inr (int_lex y1 y2 (int_lex m1 m2 (int_lex d1 d2 (String.ltb s1 s2)))).
Proof.
  unfold int_lex. simpl.
  destruct (Z.eqb_spec y1 y2) as [->|]; simpl;
    [rewrite Z.ltb_irrefl|by rewrite orb_false_r].
  destruct (Z.eqb_spec m1 m2) as [->|]; simpl;
    [rewrite Z.ltb_irrefl|by rewrite orb_false_r].
  destruct (Z.eqb_spec d1 d2) as [->|]; simpl;
    [rewrite Z.ltb_irrefl|by rewrite orb_false_r].
  simpl. case_bool_decide as Hs; [|done]. subst. by rewrite ltb_irrefl.
Qed.

Lemma tuple_lt_undated s1 s2 :
  tuple_lt [PyInt 1; PyStr s1] [PyInt 1; PyStr s2] = inr (String.ltb s1 s2).
Proof.
  simpl. case_bool_decide as Hs; [|done]. subst. by rewrite ltb_irrefl.
Qed.

Lemma int_lex_true x y rest :
  int_lex x y rest = true ↔ (x < y ∨ (x = y ∧ rest = true))%Z.
Proof.
  unfold int_lex. rewrite orb_true_iff, andb_true_iff, Z.ltb_lt, Z.eqb_eq.
  done.
Qed.

Lemma tuple_lt_dated_undated y m d s s' :
  tuple_lt [PyInt 0; PyInt y; PyInt m; PyInt d; PyStr s] [PyInt 1; PyStr s']
  = inr true.
Proof. done. Qed.

Lemma tuple_lt_undated_dated y m d s s' :
  tuple_lt [PyInt 1; PyStr s'] [PyInt 0; PyInt y; PyInt m; PyInt d; PyStr s]
  = inr false.
Proof. done. Qed.

Local Ltac key_cases :=
  unfold key_before;
  rewrite ?tuple_lt_dated, ?tuple_lt_undated, ?tuple_lt_dated_undated,
    ?tuple_lt_undated_dated.

Lemma key_compare_total k1 k2 :
  key_shape k1 → key_shape k2 → ∃ r, tuple_lt k1 k2 = inr r.
Proof. intros [] []; key_cases; by eexists. Qed.

Lemma key_before_irrefl k : key_shape k → ¬ key_before k k.
Proof.
  intros []; key_cases; intros [= H].
  - repeat (apply int_lex_true in H as [?|[_ H]]; [lia|]).
    by rewrite ltb_irrefl in H.
  - by rewrite ltb_irrefl in H.
Qed.

Lemma key_before_trans k1 k2 k3 :
  key_shape k1 → key_shape k2 → key_shape k3 →
  key_before k1 k2 → key_before k2 k3 → key_before k1 k3.
Proof.
  intros [y1 m1 d1 s1|s1] [y2 m2 d2 s2|s2] [y3 m3 d3 s3|s3]; key_cases;
    try done; intros [= H12] [= H23]; f_equal.
  - apply int_lex_true in H12 as [?|[-> H12]];
      apply int_lex_true in H23 as [?|[-> H23]];
      apply int_lex_true; [left; lia..|right; split; [done|]].
    apply int_lex_true in H12 as [?|[-> H12]];
      apply int_lex_true in H23 as [?|[-> H23]];
      apply int_lex_true; [left; lia..|right; split; [done|]].
    apply int_lex_true in H12 as [?|[-> H12]];
      apply int_lex_true in H23 as [?|[-> H23]];
      apply int_lex_true; [left; lia..|right; split; [done|]].
    by eapply ltb_trans.
  - by eapply ltb_trans.
Qed.

Local Ltac lex :=
  repeat (apply int_lex_true;
          first [ left; lia | right; split; [reflexivity|] ]).

Lemma key_before_trichotomy k1 k2 :
  key_shape k1 → key_shape k2 →
  key_before k1 k2 ∨ k1 = k2 ∨ key_before k2 k1.
Proof.
  intros [y1 m1 d1 s1|s1] [y2 m2 d2 s2|s2]; key_cases;
    [|by left|by right; right|].
  - destruct (Z.lt_trichotomy y1 y2) as [?|[->|?]];
      [left; f_equal; by lex| |right; right; f_equal; by lex].
    destruct (Z.lt_trichotomy m1 m2) as [?|[->|?]];
      [left; f_equal; by lex| |right; right; f_equal; by lex].
    destruct (Z.lt_trichotomy d1 d2) as [?|[->|?]];
      [left; f_equal; by lex| |right; right; f_equal; by lex].
    destruct (ltb_trichotomy s1 s2) as [?|[->|?]];
      [left; f_equal; by lex|by right; left|right; right; f_equal; by lex].
  - destruct (ltb_trichotomy s1 s2) as [?|[->|?]];
      [left|by right; left|right; right]; by f_equal.
Qed.

(** Where the keys exist they are totally ordered: two keys always compare
    without a [TypeError], no key is before itself, the order is transitive
    and any two keys are equal or one is before the other; a key with a
    parsed birth date is before every key without one; and of two parsed
    birth dates the earlier one sorts first. *)
Lemma birth_sort_key_order (a b c : Individual) (ka kb kc : list pyval) :
  birth_sort_key a = inr ka →
  birth_sort_key b = inr kb →
  birth_sort_key c = inr kc →
  (∃ r, tuple_lt ka kb = inr r)
  ∧ ¬ key_before ka ka
  ∧ (key_before ka kb → key_before kb kc → key_before ka kc)
  ∧ (key_before ka kb ∨ ka = kb ∨ key_before kb ka)
  ∧ (∀ dt, parse_date_string (date (birth a)) = inr (Some dt) →
           parse_date_string (date (birth b)) = inr None →
           key_before ka kb)
  ∧ (∀ da db, parse_date_string (date (birth a)) = inr (Some da) →
              parse_date_string (date (birth b)) = inr (Some db) →
              earlier da db →
              key_before ka kb).
Proof.
  intros Ha Hb Hc.
  pose proof (birth_sort_key_shape _ _ Ha) as Hsa.
  pose proof (birth_sort_key_shape _ _ Hb) as Hsb.
  pose proof (birth_sort_key_shape _ _ Hc) as Hsc.
  split_and!.
  - by apply key_compare_total.
  - by apply key_before_irrefl.
  - by apply key_before_trans.
  - by apply key_before_trichotomy.
  - intros dt Hda Hdb.
    apply birth_sort_key_cases in Ha as [(? & _ & ->)|[? _]]; [|congruence].
    apply birth_sort_key_cases in Hb as [(? & ? & _)|[_ ->]]; [congruence|].
    done.
  - intros da db Hda Hdb Hearlier.
    apply birth_sort_key_cases in Ha as [(da' & Hda' & ->)|[? _]];
      [|congruence].
    apply birth_sort_key_cases in Hb as [(db' & Hdb' & ->)|[? _]];
      [|congruence].
    assert (da' = da) as -> by congruence.
    assert (db' = db) as -> by congruence.
    unfold key_before. rewrite tuple_lt_dated. f_equal.
    destruct Hearlier as [?|[Hy [?|[Hm ?]]]].
    + apply int_lex_true. by left.
    + rewrite Hy. do 2 (apply int_lex_true; first [by left|right; split; [done|]]).
    + rewrite Hy, Hm.
      do 3 (apply int_lex_true; first [by left|right; split; [done|]]).
Qed.

(** *** The claims about dates and sort keys *)

(** C7: ["1930"] parses to the first of January 1930; ["03/04/1930"]
    parses, by the first format of [DATE_FORMATS], month then day then
    year, to the fourth of March 1930; ["garbage"] parses to nothing, and
    an individual with that birth date sorts after every individual whose
    birth date parses. *)
Theorem parse_date_examples :
  parse_date_string (Some "1930") = inr (Some (mkDate 1930 1 1))
  ∧ parse_date_string (Some "03/04/1930") = inr (Some (mkDate 1930 3 4))
  ∧ head DATE_FORMATS = Some [Dm; Lit "/"; Dd; Lit "/"; DY]
  ∧ strptime "03/04/1930" [Dm; Lit "/"; Dd; Lit "/"; DY]
    = inr (mkDate 1930 3 4)
  ∧ parse_date_string (Some "garbage") = inr None
  ∧ (∀ a b dt,
       date (birth a) = Some "garbage" →
       parse_date_string (date (birth b)) = inr (Some dt) →
       ∃ ka kb,
         birth_sort_key a = inr ka ∧ birth_sort_key b = inr kb
         ∧ key_before kb ka ∧ ¬ key_before ka kb).
Proof.
  split_and!; try reflexivity.
  intros a b dt Ha Hb. unfold birth_sort_key. rewrite Ha, Hb.
  change (parse_date_string (Some "garbage")) with
    (inr None : result (option datetime)).
  simpl. eexists _, _. split_and!; [done..|]. by intros [=].
Qed.

Lemma parse_date_examples_witness :
  ∃ ka kb,
    birth_sort_key
      (mkIndividual "@I1@" "Zed" "" "" "" None []
         (mkEvent (Some "garbage") None) new_Event) = inr ka
    ∧ birth_sort_key
        (mkIndividual "@I2@" "Amy" "" "" "" None []
           (mkEvent (Some "4 MAR 1930") None) new_Event) = inr kb
    ∧ key_before kb ka.
Proof.
  destruct (proj2 (proj2 (proj2 (proj2 (proj2 parse_date_examples))))
              (mkIndividual "@I1@" "Zed" "" "" "" None []
                 (mkEvent (Some "garbage") None) new_Event)
              (mkIndividual "@I2@" "Amy" "" "" "" None []
                 (mkEvent (Some "4 MAR 1930") None) new_Event)
              (mkDate 1930 3 4) eq_refl eq_refl)
    as (ka & kb & Ha & Hb & Hbefore & _).
  by exists ka, kb.
Defined.

(** C5 fails on the source: the four digits [0000] pass for a year, the
    constructor of the date refuses the year 0, and nothing catches the
    [ValueError]; an individual with that birth date, which the parser
    accepts, has no sort key.  The same year in the loose
    month/day/year shape is caught and parses to nothing. *)
Theorem birth_sort_key_year_zero_raises :
  (∃ families, parse year_zero_lines = inr ([("@I1@", year_zero)], families))
  ∧ parse_date_string (Some "0000") = inl (ValueError "year is out of range")
  ∧ birth_sort_key year_zero = inl (ValueError "year is out of range")
  ∧ parse_date_string (Some "1/1/0000") = inr None.
Proof. split_and!; [by eexists|reflexivity..]. Qed.

(** ** More on dates *)



























(** ** Sorting by birth *)











(** ** More on the parser *)

Lemma ids_agree_alter {A} (id_of : A → string) store d ref f :
  (∀ v, id_of (f v) = id_of v) →
  ids_agree id_of store d → ids_agree id_of (alter f ref store) d.
Proof.
  intros Hf Hd k r Hk. destruct (Hd k r Hk) as (Hp & v & Hv & Hid).
  split; [done|]. destruct (decide (ref = r)) as [->|Hne].
  - exists (f v). by rewrite list_lookup_alter_eq, Hv, Hf.
  - exists v. by rewrite list_lookup_alter_ne.
Qed.

Lemma ids_agree_open {A} (id_of : A → string) store d k v :
  refs_below store d → is_pointer_tag k = true → id_of v = k →
  ids_agree id_of store d →
  ids_agree id_of (store ++ [v]) (dict_set k (length store) d).
Proof.
  intros Hbelow Hp Hid Hd k' r. rewrite dict_get_dict_set.
  case_decide as Hk.
  - intros [= <-]. subst k'. split; [done|]. exists v.
    by rewrite lookup_app_r, Nat.sub_diag.
  - intros Hk'. destruct (Hd k' r Hk') as (Hp' & v' & Hv' & Hid').
    split; [done|]. exists v'. split; [|done].
    rewrite lookup_app_l; [done|]. by eapply lookup_lt_Some.
Qed.

Lemma ids_inv_update_individual ref f st :
  (∀ i, ind_id (f i) = ind_id i) →
  ids_inv st → ids_inv (update_individual ref f st).
Proof.
  intros Hf [Hi Hfam]. split; [|done]. by apply ids_agree_alter.
Qed.

Lemma ids_inv_update_family ref f st :
  (∀ fam, fam_id (f fam) = fam_id fam) →
  ids_inv st → ids_inv (update_family ref f st).
Proof.
  intros Hf [Hi Hfam]. split; [done|]. by apply ids_agree_alter.
Qed.

Lemma ids_inv_with_context ci cf cs st :
  ids_inv st → ids_inv (with_context ci cf cs st).
Proof. done. Qed.

Lemma handle_record_ids level tag value st :
  wf_state st → ids_inv st → ids_inv (handle_record level tag value st).
Proof.
  intros (Hbi & Hbf & _ & _) Hinv. unfold handle_record.
  destruct (is_pointer_tag tag) eqn:Hp; repeat case_bool_decide; try done.
  - unfold level0.
    destruct (bool_decide (value = "INDI") && str_truthy tag).
    { destruct Hinv as [Hi Hf]. split; [|done]. simpl.
      by apply ids_agree_open. }
    destruct (bool_decide (value = "FAM") && str_truthy tag); [|done].
    destruct Hinv as [Hi Hf]. split; [done|]. simpl.
    by apply ids_agree_open.
  - unfold level1. simpl.
    destruct (current_individual st), (current_family st);
      repeat case_bool_decide;
      first [ by apply ids_inv_update_individual
            | by apply ids_inv_update_family | done ].
  - unfold level2.
    destruct (current_individual st), (current_family st);
      repeat case_bool_decide;
      first [ by apply ids_inv_update_individual
            | by apply ids_inv_update_family | done ].
  - unfold level1. simpl.
    destruct (current_individual st), (current_family st);
      repeat case_bool_decide;
      first [ by apply ids_inv_update_individual
            | by apply ids_inv_update_family | done ].
  - unfold level2.
    destruct (current_individual st), (current_family st);
      repeat case_bool_decide;
      first [ by apply ids_inv_update_individual
            | by apply ids_inv_update_family | done ].
Qed.

Lemma parse_line_ids st raw_line st' :
  parse_line st raw_line = inr st' →
  wf_state st → ids_inv st → ids_inv st'.
Proof.
  destruct (tokens_of raw_line) as [[[level_str tag] value]|] eqn:Htok.
  - destruct (py_int level_str) as [e|level] eqn:Hlevel.
    + erewrite parse_line_bad_level by done. by intros [= <-].
    + erewrite parse_line_level by done. intros [= <-].
      apply handle_record_ids.
  - rewrite parse_line_no_tokens by done. by intros [= <-].
Qed.

Lemma parse_lines_ids st lines st' :
  parse_lines st lines = inr st' →
  wf_state st → ids_inv st → ids_inv st'.
Proof.
  revert st. induction lines as [|raw_line rest IH]; intros st; simpl.
  - by intros [= <-].
  - destruct (parse_line_effect st raw_line) as (st1 & Hline & Heff).
    rewrite Hline. simpl. intros Hrest Hwf Hinv.
    eapply IH; [done|by eapply line_effect_wf|by eapply parse_line_ids].
Qed.

Lemma elem_of_dict_keys_dict_set {V} (d : dict V) k v k' :
  k' ∈ dict_keys (dict_set k v d) → k' = k ∨ k' ∈ dict_keys d.
Proof.
  unfold dict_keys. induction d as [|[k0 v0] d IH]; simpl.
  - intros ->%list_elem_of_singleton. by left.
  - case_decide; simpl; intros [->|Hk']%elem_of_cons.
    + by left.
    + right. by right.
    + right. left.
    + destruct (IH Hk'); [by left|right; by right].
Qed.

Lemma dict_keys_dict_set {V} (d : dict V) k v :
  NoDup (dict_keys d) → NoDup (dict_keys (dict_set k v d)).
Proof.
  induction d as [|[k0 v0] d IH]; simpl.
  - intros _. apply NoDup_singleton.
  - intros [Hk0 Hd]%NoDup_cons. case_decide as Hk; simpl.
    + subst. by constructor.
    + constructor; [|by apply IH]. intros Hmem.
      destruct (elem_of_dict_keys_dict_set _ _ _ _ Hmem); [congruence|done].
Qed.

Lemma dict_keys_deref {A} (store : list A) d :
  refs_below store d → dict_keys (deref store d) = dict_keys d.
Proof.
  unfold refs_below, deref, dict_keys.
  induction 1 as [|[k0 r0] d Hd _ IH]; simpl; [done|].
  simpl in Hd. apply lookup_lt_is_Some_2 in Hd as [v Hv]. rewrite Hv. simpl.
  f_equal. exact IH.
Qed.

Lemma line_effect_keys_nodup st st' :
  line_effect st st' → keys_nodup st → keys_nodup st'.
Proof.
  intros Heff [Hi Hf].
  destruct Heff; split; simpl; try done; by apply dict_keys_dict_set.
Qed.

Lemma parse_lines_keys_nodup st lines st' :
  parse_lines st lines = inr st' → keys_nodup st → keys_nodup st'.
Proof.
  revert st. induction lines as [|raw_line rest IH]; intros st; simpl.
  - by intros [= <-].
  - destruct (parse_line_effect st raw_line) as (st1 & -> & Heff). simpl.
    intros Hrest Hnodup. eapply IH; [done|by eapply line_effect_keys_nodup].
Qed.

Lemma dict_get_elem {V} (d : dict V) k v :
  NoDup (dict_keys d) → (k, v) ∈ d → dict_get d k = Some v.
Proof.
  unfold dict_keys. induction d as [|[k0 v0] d IH]; simpl.
  - by intros _ ?%elem_of_nil.
  - intros [Hk0 Hd]%NoDup_cons [[= -> ->]|Hin]%elem_of_cons.
    + by rewrite decide_True.
    + rewrite decide_False; [by apply IH|]. intros ->. apply Hk0.
      apply list_elem_of_fmap. by exists (k, v).
Qed.

Lemma dict_values_elem {V} (d : dict V) v :
  v ∈ dict_values d → ∃ k, (k, v) ∈ d.
Proof.
  unfold dict_values. intros ([k v'] & -> & Hin)%list_elem_of_fmap.
  by exists k.
Qed.

Lemma dict_get_Some_elem {V} (d : dict V) k v :
  dict_get d k = Some v → (k, v) ∈ d.
Proof.
  induction d as [|[k0 v0] d IH]; simpl; [done|].
  case_decide; [intros [= ->]; subst; left|intros ?; right; auto].
Qed.

Lemma parse_keys_agree (lines : list string)
    (individuals : dict Individual) (families : dict Family) :
  parse lines = inr (individuals, families) →
  (∀ k i, dict_get individuals k = Some i →
          ind_id i = k ∧ is_pointer_tag k = true)
  ∧ (∀ k f, dict_get families k = Some f →
            fam_id f = k ∧ is_pointer_tag k = true)
  ∧ (∀ i, i ∈ dict_values individuals →
          dict_get individuals (ind_id i) = Some i)
  ∧ (∀ f, f ∈ dict_values families → dict_get families (fam_id f) = Some f).
Proof.
  unfold parse.
  destruct (parse_lines initial_state lines) as [e|st] eqn:Hlines; [done|].
  simpl. intros [= <- <-].
  pose proof (parse_lines_wf _ _ _ Hlines initial_state_wf)
    as (Hbi & Hbf & _ & _).
  assert (Hinit : ids_inv initial_state) by (split; intros ? ? [=]).
  destruct (parse_lines_ids _ _ _ Hlines initial_state_wf Hinit) as [Hi Hf].
  assert (Hnodup0 : keys_nodup initial_state) by (split; apply NoDup_nil_2).
  destruct (parse_lines_keys_nodup _ _ _ Hlines Hnodup0) as [Hni Hnf].
  assert (Hki : ∀ k i, dict_get (individuals_of st) k = Some i →
                       ind_id i = k ∧ is_pointer_tag k = true).
  { intros k i. unfold individuals_of. rewrite dict_get_deref by done.
    destruct (dict_get (ps_individuals st) k) as [ref|] eqn:Hk; [|done].
    simpl. intros Hv. destruct (Hi k ref Hk) as (Hp & v & Hv' & Hid).
    by simplify_eq. }
  assert (Hkf : ∀ k f, dict_get (families_of st) k = Some f →
                       fam_id f = k ∧ is_pointer_tag k = true).
  { intros k f. unfold families_of. rewrite dict_get_deref by done.
    destruct (dict_get (ps_families st) k) as [ref|] eqn:Hk; [|done].
    simpl. intros Hv. destruct (Hf k ref Hk) as (Hp & v & Hv' & Hid).
    by simplify_eq. }
  split_and!; [done|done| |].
  - intros i [k Hin]%dict_values_elem.
    assert (Hget : dict_get (individuals_of st) k = Some i).
    { apply dict_get_elem; [|done]. unfold individuals_of.
      by rewrite dict_keys_deref. }
    by destruct (Hki k i Hget) as [-> _].
  - intros f [k Hin]%dict_values_elem.
    assert (Hget : dict_get (families_of st) k = Some f).
    { apply dict_get_elem; [|done]. unfold families_of.
      by rewrite dict_keys_deref. }
    by destruct (Hkf k f Hget) as [-> _].
Qed.

(** X3: In the two mappings [parse] returns every key is a pointer, the
    record under a key carries that key as its id, and so every record of
    a mapping is found under its own id. *)
Theorem parse_ids (lines : list string)
    (individuals : dict Individual) (families : dict Family) :
  parse lines = inr (individuals, families) →
  (∀ k i, dict_get individuals k = Some i →
          ind_id i = k ∧ is_pointer_tag k = true)
  ∧ (∀ k f, dict_get families k = Some f →
            fam_id f = k ∧ is_pointer_tag k = true)
  ∧ (∀ i, i ∈ dict_values individuals →
          dict_get individuals (ind_id i) = Some i)
  ∧ (∀ f, f ∈ dict_values families → dict_get families (fam_id f) = Some f).
Proof. exact (parse_keys_agree lines individuals families). Qed.

Lemma parse_ids_witness :
  ∃ individuals families i,
    parse ["0 @I1@ INDI"; "1 NAME Ann"; "0 @F1@ FAM"; "1 CHIL @I1@"]
    = inr (individuals, families)
    ∧ dict_get individuals "@I1@" = Some i ∧ ind_id i = "@I1@".
Proof.
  eexists _, _, _. split; [reflexivity|]. split; [reflexivity|].
  by destruct (proj1 (parse_ids
       ["0 @I1@ INDI"; "1 NAME Ann"; "0 @F1@ FAM"; "1 CHIL @I1@"]
       _ _ eq_refl) "@I1@" _ eq_refl).
Defined.

(** ** The family of two spouses *)

Lemma is_couple_either fam a b :
  is_couple fam a b || is_couple fam b a = true ↔ couple_of fam a b.
Proof.
  unfold is_couple, couple_of.
  rewrite orb_true_iff, !andb_true_iff, !bool_decide_eq_true. tauto.
Qed.

Lemma find_family_in_first fams a b :
  match find_family_in fams a b with
  | Some fam =>
      ∃ before after,
        fams = before ++ fam :: after
        ∧ couple_of fam a b
        ∧ Forall (fun other => ¬ couple_of other a b) before
  | None => Forall (fun other => ¬ couple_of other a b) fams
  end.
Proof.
  induction fams as [|fam fams IH]; simpl; [constructor|].
  destruct (is_couple fam a b) eqn:H1.
  { exists [], fams. split_and!; [done| |constructor].
    apply is_couple_either. by rewrite H1. }
  destruct (is_couple fam b a) eqn:H2.
  { exists [], fams. split_and!; [done| |constructor].
    apply is_couple_either. by rewrite H2, orb_true_r. }
  assert (Hnot : ¬ couple_of fam a b).
  { rewrite <- is_couple_either, H1, H2. done. }
  destruct (find_family_in fams a b) as [found|].
  - destruct IH as (before & after & -> & Hc & Hbefore).
    exists (fam :: before), after. split_and!; [done|done|by constructor].
  - by constructor.
Qed.

(** X4: [find_family_by_spouses] returns the first family of the mapping whose
    husband and wife are the two identifiers, in either order, and nothing
    exactly when there is no such family; the order in which the two
    identifiers are given makes no difference. *)
Theorem find_family_by_spouses_spec (families : dict Family)
    (husband_id wife_id : string) :
  find_family_by_spouses families husband_id wife_id
  = find_family_by_spouses families wife_id husband_id
  ∧ (∀ fam,
       find_family_by_spouses families husband_id wife_id = Some fam →
       couple_of fam husband_id wife_id
       ∧ ∃ before after,
           dict_values families = before ++ fam :: after
           ∧ Forall (fun other => ¬ couple_of other husband_id wife_id) before)
  ∧ (find_family_by_spouses families husband_id wife_id = None
     ↔ ∀ fam, fam ∈ dict_values families →
              ¬ couple_of fam husband_id wife_id).
Proof.
  unfold find_family_by_spouses. split_and!.
  - induction (dict_values families) as [|fam fams IH]; simpl; [done|].
    rewrite IH. by destruct (is_couple fam husband_id wife_id),
                           (is_couple fam wife_id husband_id).
  - intros fam Hfound.
    pose proof (find_family_in_first (dict_values families) husband_id wife_id)
      as Hfirst.
    rewrite Hfound in Hfirst. destruct Hfirst as (b & a & ? & ? & ?). eauto.
  - pose proof (find_family_in_first (dict_values families) husband_id wife_id)
      as Hfirst.
    destruct (find_family_in _ _ _) as [fam|].
    + destruct Hfirst as (b & a & Heq & Hc & _). split; [done|].
      intros Hnone. exfalso. apply (Hnone fam); [|done].
      rewrite Heq. set_solver.
    + split; [intros _|done]. by apply Forall_forall.
Qed.

Lemma find_family_by_spouses_spec_witness :
  find_family_by_spouses cyclic_families "@I9@" "@I1@" = None
  ∧ ¬ couple_of cyclic_root "@I9@" "@I1@".
Proof.
  destruct (find_family_by_spouses_spec cyclic_families "@I9@" "@I1@")
    as (_ & _ & Hnone).
  split; [reflexivity|].
  apply (proj1 Hnone eq_refl). left.
Defined.

(** ** More on the name normaliser *)

Section Runs.
Variable cls : ascii → bool.
Variable r : ascii.
Variable q : ascii → bool.
Hypothesis q_r : q r = true.
Hypothesis q_kept : ∀ c, cls c = false → q c = false.

Local Abbreviation rs := (String r "").

Lemma join_prefixed sep t l : join sep (t :: l) = t +:+ prefixed sep l.
Proof.
  revert t. induction l as [|u l IH]; intros t.
  - simpl. by rewrite app_empty_r.
  - change (join sep (t :: u :: l)) with (t +:+ sep +:+ join sep (u :: l)).
    by rewrite IH.
Qed.

Lemma sub_runs_run_head s c :
  str_head (sub_runs cls rs true s) = Some c → q c = false.
Proof.
  induction s as [|d s IH]; simpl; [done|].
  destruct (cls d) eqn:Hd; [done|]. simpl. intros [= <-]. by apply q_kept.
Qed.

Lemma lstrip_sub_runs_any b s :
  lstrip_by q (sub_runs cls rs b s) = sub_runs cls rs true s.
Proof.
  destruct s as [|d s]; [done|]. cbn [sub_runs].
  destruct (cls d) eqn:Hd.
  - destruct b; [apply lstrip_by_head, sub_runs_run_head|].
    change (rs +:+ sub_runs cls rs true s)
      with (String r (sub_runs cls rs true s)).
    cbn [lstrip_by]. rewrite q_r. apply lstrip_by_head, sub_runs_run_head.
  - apply lstrip_by_head. intros c [= <-]. by apply q_kept.
Qed.

Lemma rstrip_sub_runs_any s :
  (∀ p ps, split_runs cls false s = p :: ps →
           rstrip_by q (sub_runs cls rs false s)
           = p +:+ prefixed rs (filter nonempty ps))
  ∧ rstrip_by q (sub_runs cls rs true s)
    = join rs (filter nonempty (split_runs cls true s)).
Proof.
  induction s as [|c s [IHf IHt]].
  - split; [|done]. by intros p ps [= <- <-].
  - cbn [sub_runs split_runs]. destruct (cls c) eqn:Hc.
    + split; [|done]. intros p ps [= <- <-].
      change (rs +:+ sub_runs cls rs true s)
        with (String r (sub_runs cls rs true s)).
      rewrite rstrip_by_cons, IHt.
      destruct (filter nonempty (split_runs cls true s))
        as [|t l] eqn:Hfilter; [by rewrite q_r|].
      assert (Ht : str_truthy t = true).
      { assert (t ∈ filter nonempty (split_runs cls true s))
          as [? _]%list_elem_of_filter by (rewrite Hfilter; left).
        done. }
      rewrite join_prefixed. by destruct t.
    + destruct (split_runs_cons cls false s) as (p' & ps' & Hs).
      rewrite Hs. specialize (IHf p' ps' Hs).
      assert (Hkept : rstrip_by q (String c (sub_runs cls rs false s))
                      = String c (p' +:+ prefixed rs (filter nonempty ps'))).
      { rewrite rstrip_by_cons, IHf.
        destruct (p' +:+ prefixed rs (filter nonempty ps')); [|done].
        by rewrite (q_kept c Hc). }
      split.
      * by intros p ps [= <- <-].
      * rewrite Hkept, filter_cons_True by done. by rewrite join_prefixed.
Qed.

(** Runs of the class made one separator and the ends stripped: the words
    joined by the separator. *)
Lemma strip_sub_runs_words s :
  strip_by q (re_sub_runs cls rs s) = join rs (split_words cls s).
Proof.
  unfold strip_by, re_sub_runs, split_words, re_split_runs.
  rewrite lstrip_sub_runs_any, (proj2 (rstrip_sub_runs_any s)).
  by rewrite (filter_split_runs_flag _ true).
Qed.

Lemma split_words_across a d b :
  cls d = true →
  split_words cls (a +:+ String d b) = split_words cls a ++ split_words cls b.
Proof.
  intros Hd. unfold split_words, re_split_runs.
  rewrite (proj1 (split_runs_across cls a d b Hd) false).
  by rewrite (filter_split_runs_flag _ true).
Qed.

Lemma split_words_word t :
  str_truthy t = true → str_forall (fun c => negb (cls c)) t = true →
  split_words cls t = [t].
Proof.
  intros Ht Hkept. unfold split_words, re_split_runs.
  assert (Hsplit : split_runs cls false t = [t]).
  { clear Ht. induction t as [|c t IH]; simpl; [done|].
    simpl in Hkept. apply andb_prop in Hkept as [Hc Ht].
    apply negb_true_iff in Hc. rewrite Hc. by rewrite IH. }
  rewrite Hsplit. by rewrite filter_cons_True.
Qed.

Lemma split_runs_pieces_kept b s :
  Forall (fun p => str_forall (fun c => negb (cls c)) p = true)
         (split_runs cls b s).
Proof.
  revert b. induction s as [|c s IH]; intros b; simpl.
  - by repeat constructor.
  - destruct (cls c) eqn:Hc.
    + destruct b; [apply IH|]. constructor; [done|apply IH].
    + specialize (IH false).
      destruct (split_runs cls false s) as [|p ps].
      * constructor; [|done]. simpl. by rewrite Hc.
      * apply Forall_cons in IH as [Hp Hps]. constructor; [|done].
        simpl. by rewrite Hp, Hc.
Qed.

Lemma split_words_kept s :
  Forall (fun t => str_truthy t = true
                   ∧ str_forall (fun c => negb (cls c)) t = true)
         (split_words cls s).
Proof.
  unfold split_words, re_split_runs. apply Forall_forall.
  intros t [Ht Hin]%list_elem_of_filter. split; [done|].
  by eapply (proj1 (Forall_forall _ _) (split_runs_pieces_kept false s)).
Qed.

(** Splitting the joined words gives the words back. *)
Lemma split_words_join (ws : list string) :
  cls r = true →
  Forall (fun t => str_truthy t = true
                   ∧ str_forall (fun c => negb (cls c)) t = true) ws →
  split_words cls (join rs ws) = ws.
Proof.
  intros Hr. induction 1 as [|w ws [Hw1 Hw2] Hws IH]; [done|].
  destruct ws as [|w' ws].
  - simpl. by apply split_words_word.
  - change (join rs (w :: w' :: ws)) with (w +:+ rs +:+ join rs (w' :: ws)).
    change (rs +:+ join rs (w' :: ws)) with (String r (join rs (w' :: ws))).
    rewrite split_words_across by done. rewrite IH.
    by rewrite split_words_word.
Qed.
End Runs.

Lemma not_lower_alnum_space c : not_lower_alnum c = false → is_space c = false.
Proof. destruct c as [[] [] [] [] [] [] [] []]; vm_compute; congruence. Qed.

Lemma normal_char_lower c : normal_char c = true → lower_char c = c.
Proof. destruct c as [[] [] [] [] [] [] [] []]; vm_compute; congruence. Qed.

Lemma lower_normal s : str_forall normal_char s = true → lower s = s.
Proof.
  induction s as [|c s IH]; simpl; [done|]. intros [Hc Hs]%andb_prop.
  by rewrite (normal_char_lower c Hc), IH.
Qed.

Lemma sub_runs_normal_chars in_run s :
  str_forall normal_char (sub_runs not_lower_alnum " " in_run s) = true.
Proof.
  revert in_run. induction s as [|c s IH]; intros in_run; simpl; [done|].
  destruct (not_lower_alnum c) eqn:Hc.
  - destruct in_run; [apply IH|]. simpl. apply IH.
  - simpl. rewrite IH, andb_true_r. unfold normal_char.
    unfold not_lower_alnum in Hc. apply negb_false_iff in Hc.
    by rewrite Hc.
Qed.

Lemma normalise_words text :
  normalise text = join " " (split_words not_lower_alnum (lower text)).
Proof.
  unfold normalise, strip_ws.
  by apply (strip_sub_runs_words not_lower_alnum " " is_space eq_refl
              not_lower_alnum_space).
Qed.

(** X5: [normalise] gives lower-case letters, digits and blanks only, with no
    blank at either end; it is the words of the lower-cased text joined by
    single blanks; and normalising a normalised text changes nothing. *)
Theorem normalise_canonical (text : string) :
  normalise text = join " " (split_words not_lower_alnum (lower text))
  ∧ str_forall normal_char (normalise text) = true
  ∧ str_head (normalise text) ≠ Some " "%char
  ∧ str_last (normalise text) ≠ Some " "%char
  ∧ normalise (normalise text) = normalise text.
Proof.
  assert (Hchars : str_forall normal_char (normalise text) = true).
  { unfold normalise, strip_ws. apply str_forall_strip, sub_runs_normal_chars. }
  split_and!.
  - apply normalise_words.
  - done.
  - unfold normalise, strip_ws. intros Hh. by apply str_head_strip in Hh.
  - unfold normalise, strip_ws. intros Hl. by apply str_last_strip in Hl.
  - rewrite (normalise_words (normalise text)), (lower_normal _ Hchars).
    rewrite (normalise_words text) at 1 2.
    rewrite (split_words_join not_lower_alnum " "); [done|done|].
    apply split_words_kept.
Qed.

Lemma replace_char_app old new a b :
  replace_char old new (a +:+ b)
  = replace_char old new a +:+ replace_char old new b.
Proof.
  induction a as [|c a IH]; [done|].
  change (String c a +:+ b) with (String c (a +:+ b)). simpl.
  by rewrite IH.
Qed.

Lemma replace_char_absent old new s :
  str_forall (fun c => negb (bool_decide (c = old))) s = true →
  replace_char old new s = s.
Proof.
  induction s as [|c s IH]; simpl; [done|]. intros [Hc Hs]%andb_prop.
  apply negb_true_iff, bool_decide_eq_false in Hc.
  by rewrite decide_False, IH.
Qed.

Lemma str_forall_impl (p p' : ascii → bool) s :
  (∀ c, p c = true → p' c = true) →
  str_forall p s = true → str_forall p' s = true.
Proof.
  intros Himpl. induction s as [|c s IH]; simpl; [done|].
  intros [Hc Hs]%andb_prop. by rewrite (Himpl c Hc), IH.
Qed.

Lemma replace_blank_join (ws : list string) :
  Forall (fun t => str_truthy t = true
            ∧ str_forall (fun c => negb (not_lower_alnum c)) t = true) ws →
  replace_char " " "-" (join " " ws) = join "-" ws.
Proof.
  assert (Hword : ∀ w,
            str_forall (fun c => negb (not_lower_alnum c)) w = true →
            replace_char " " "-" w = w).
  { intros w Hw. apply replace_char_absent.
    eapply str_forall_impl; [|exact Hw]. intros c Hc.
    apply negb_true_iff in Hc. apply negb_true_iff, bool_decide_eq_false.
    intros ->. vm_compute in Hc. discriminate. }
  induction 1 as [|w ws [_ Hw] Hws IH]; [done|].
  destruct ws as [|w' ws]; [by apply Hword|].
  change (join " " (w :: w' :: ws)) with (w +:+ " " +:+ join " " (w' :: ws)).
  change (join "-" (w :: w' :: ws)) with (w +:+ "-" +:+ join "-" (w' :: ws)).
  rewrite !replace_char_app, Hword, IH by done. done.
Qed.

(** X6: The name part of a slug is the normalised name with each blank made a
    hyphen, so two names that normalise alike get the same name part. *)
Theorem slugify_normalise (name identifier : string) :
  let base := replace_char " " "-" (normalise name) in
  slugify name identifier
  = (if str_truthy base then base else strip identifier "@")
    +:+ "-" +:+ strip identifier "@".
Proof.
  intros base.
  assert (Hbase : strip (re_sub_runs not_lower_alnum "-" (lower name)) "-"
                  = base).
  { unfold base. rewrite slug_base_words, normalise_words.
    symmetry. apply replace_blank_join, split_words_kept. }
  unfold slugify. rewrite Hbase. by destruct (str_truthy base).
Qed.

(** ** More on the display name *)

Lemma remove_char_absent old s :
  str_forall (fun c => negb (bool_decide (c = old))) (remove_char old s) = true.
Proof.
  induction s as [|c s IH]; simpl; [done|].
  case_decide as Hc; [done|]. simpl.
  by rewrite bool_decide_eq_false_2, IH.
Qed.

Lemma sub_runs_display_chars b s :
  str_forall (fun c => negb (bool_decide (c = "/"%char))) s = true →
  str_forall display_char (sub_runs is_space " " b s) = true.
Proof.
  revert b. induction s as [|c s IH]; intros b; simpl; [done|].
  intros [Hc Hs]%andb_prop. destruct (is_space c) eqn:Hsp.
  - destruct b; [by apply IH|]. simpl. by apply IH.
  - simpl. rewrite IH by done. unfold display_char. by rewrite Hc, Hsp.
Qed.

Lemma str_last_cons c s x :
  str_last s = Some x → str_last (String c s) = Some x.
Proof. by destruct s. Qed.

Lemma sub_runs_last cls rs b s :
  s ≠ "" → (∀ c, str_last s = Some c → cls c = false) →
  ∃ x, str_last (sub_runs cls (String rs "") b s) = Some x ∧ cls x = false.
Proof.
  revert b. induction s as [|c s IH]; intros b Hne Hlast; [done|].
  destruct s as [|d s].
  - assert (Hc : cls c = false) by by apply Hlast.
    simpl. rewrite Hc. by exists c.
  - destruct (IH (if cls c then true else false)) as (x & Hx & Hcx);
      [done|by intros ? ?; apply Hlast|].
    exists x. split; [|done]. cbn [sub_runs]. destruct (cls c).
    + destruct b; [done|].
      change (String rs "" +:+ sub_runs cls (String rs "") true (String d s))
        with (String rs (sub_runs cls (String rs "") true (String d s))).
      by apply str_last_cons.
    + by apply str_last_cons.
Qed.

Lemma lstrip_by_all q s : str_forall q s = true → lstrip_by q s = "".
Proof.
  induction s as [|c s IH]; simpl; [done|]. intros [Hc Hs]%andb_prop.
  rewrite Hc. by apply IH.
Qed.

Lemma remove_char_only old q s :
  str_forall (fun c => bool_decide (c = old) || q c) s = true →
  str_forall q (remove_char old s) = true.
Proof.
  induction s as [|c s IH]; simpl; [done|]. intros [Hc Hs]%andb_prop.
  case_decide as Hold; [by apply IH|]. simpl.
  rewrite bool_decide_eq_false_2 in Hc by done. simpl in Hc.
  by rewrite Hc, IH.
Qed.

(** X7: The display name made from a raw name holds no slash and no white
    space but single blanks, and neither begins nor ends with white
    space; a raw name of slashes and white space only gives the empty
    display name, not the identifier. *)
Theorem display_name_clean (self : Individual) :
  str_truthy (name self) = true →
  str_forall display_char (display_name self) = true
  ∧ (∀ c, str_head (display_name self) = Some c → is_space c = false)
  ∧ (∀ c, str_last (display_name self) = Some c → is_space c = false)
  ∧ (str_forall (fun c => bool_decide (c = "/"%char) || is_space c)
       (name self) = true →
     display_name self = "").
Proof.
  intros Hname. unfold display_name. rewrite Hname.
  set (cleaned := strip_ws (remove_char "/" (name self))).
  assert (Hhead : ∀ c, str_head cleaned = Some c → is_space c = false)
    by (intros c; apply str_head_strip).
  assert (Hlast : ∀ c, str_last cleaned = Some c → is_space c = false)
    by (intros c; apply str_last_strip).
  split_and!.
  - apply sub_runs_display_chars. unfold cleaned, strip_ws.
    apply str_forall_strip, remove_char_absent.
  - intros c. unfold re_sub_runs. destruct cleaned as [|d s]; [done|].
    simpl. rewrite (Hhead d eq_refl). by intros [= <-]; apply Hhead.
  - intros c Hc. destruct (decide (cleaned = "")) as [Hempty|Hne].
    + by rewrite Hempty in Hc.
    + destruct (sub_runs_last is_space " " false cleaned Hne Hlast)
        as (x & Hx & Hsp).
      unfold re_sub_runs in Hc. by simplify_eq.
  - intros Honly. unfold cleaned, strip_ws, strip_by.
    by rewrite lstrip_by_all by (by apply remove_char_only).
Qed.

Lemma display_name_clean_witness :
  str_forall display_char
    (display_name (mkIndividual "@I1@" " John   /Doe/ " "" "" "" None []
                     new_Event new_Event)) = true
  ∧ display_name (mkIndividual "@I1@" " // " "" "" "" None []
                    new_Event new_Event) = "".
Proof.
  split.
  - by apply (display_name_clean
                (mkIndividual "@I1@" " John   /Doe/ " "" "" "" None []
                   new_Event new_Event)).
  - by apply (display_name_clean
                (mkIndividual "@I1@" " // " "" "" "" None []
                   new_Event new_Event)).
Defined.

(** ** More on the name key *)

Lemma last_name_some l t :
  t ∈ l → is_suffix (lower t) = false → ∃ x, last_name l = Some x.
Proof.
  induction l as [|u l IH]; [by intros ?%elem_of_nil|].
  intros [->|Ht]%elem_of_cons Hns; simpl.
  - rewrite Hns. by eexists.
  - destruct (is_suffix (lower u)); [by apply IH|by eexists].
Qed.

(** X8: A suffix put after a name does not change its key, as long as some
    token after the first is no suffix: [John Smith] and [John Smith Jr]
    match the same biography. *)
Theorem extract_name_key_suffix (name sep sfx : string) (t : string) :
  t ∈ tail (name_tokens name) → is_suffix (lower t) = false →
  sep ≠ "" → str_forall not_alpha sep = true →
  str_truthy sfx = true → str_forall is_ascii_alpha sfx = true →
  is_suffix (lower sfx) = true →
  extract_name_key (name +:+ sep +:+ sfx) = extract_name_key name.
Proof.
  intros Ht Hns Hsep1 Hsep2 Hs1 Hs2 Hsfx. unfold extract_name_key.
  rewrite name_tokens_across, (name_tokens_word sfx) by done.
  pose proof (name_tokens_alpha name) as Halpha.
  destruct (name_tokens name) as [|t0 rest]; [by apply elem_of_nil in Ht|].
  simpl in Ht. destruct rest as [|t1 rest]; [by apply elem_of_nil in Ht|].
  rewrite length_app. simpl length.
  replace (S (S (length rest)) + 1 <? 2) with false
    by (symmetry; apply Nat.ltb_ge; lia).
  replace (S (S (length rest)) <? 2) with false
    by (symmetry; apply Nat.ltb_ge; lia).
  change ((t0 :: t1 :: rest) ++ [sfx]) with (t0 :: (t1 :: rest) ++ [sfx]).
  cbv beta iota. rewrite reverse_app.
  change (reverse [sfx]) with [sfx].
  change ([sfx] ++ reverse (t1 :: rest)) with (sfx :: reverse (t1 :: rest)).
  change (last_name (sfx :: reverse (t1 :: rest)))
    with (if is_suffix (lower sfx) then last_name (reverse (t1 :: rest))
          else Some (lower sfx)).
  rewrite Hsfx.
  destruct (last_name_some (reverse (t1 :: rest)) t) as [x Hx];
    [by rewrite elem_of_reverse|done|].
  rewrite Hx.
  apply last_name_elem in Hx as (u & Hu & ->). rewrite elem_of_reverse in Hu.
  assert (Htruthy : str_truthy (lower u) = true).
  { rewrite lower_truthy.
    apply (proj1 (Forall_forall _ _) Halpha). by right. }
  by rewrite Htruthy.
Qed.

Lemma extract_name_key_suffix_witness :
  extract_name_key "John Q. Smith, Jr" = extract_name_key "John Q. Smith".
Proof.
  apply (extract_name_key_suffix "John Q. Smith" ", " "Jr" "Smith");
    try done.
  vm_compute. right. left.
Defined.

(** ** More on the descendant walk *)

Lemma collect_descendants_descends individuals families root_family :
  ∃ ds, collect_descendants individuals families root_family = Some ds
        ∧ ∀ x, x ∈ ds ↔ descends individuals families root_family x.
Proof.
  destruct (collect_fuel_enough individuals families root_family
              (collect_fuel individuals families root_family)) as [ds Hds];
    [done|].
  exists ds. split; [done|].
  eapply collect_loop_sound; [apply walk_inv_initial|exact Hds].
Qed.

Lemma descends_mono individuals families r1 r2 x :
  (∀ c, c ∈ children r1 → descends individuals families r2 c) →
  descends individuals families r1 x → descends individuals families r2 x.
Proof.
  intros Hsub. induction 1 as [c Hc|p person f fam c _ IHp Hp Hf Hfam Hc].
  - by apply Hsub.
  - by eapply descends_step.
Qed.

(** X9: The set returned depends on the root family through the identifiers
    among its children alone: their order, their repetitions and the other
    fields of the family make no difference, although the work list is
    walked in another order. *)
Theorem collect_descendants_children_only
    (individuals : dict Individual) (families : dict Family)
    (r1 r2 : Family) :
  (∀ c, c ∈ children r1 ↔ c ∈ children r2) →
  collect_descendants individuals families r1
  = collect_descendants individuals families r2.
Proof.
  intros Hsame.
  destruct (collect_descendants_descends individuals families r1)
    as (ds1 & -> & H1).
  destruct (collect_descendants_descends individuals families r2)
    as (ds2 & -> & H2).
  f_equal. apply set_eq. intros x. rewrite H1, H2.
  split; apply descends_mono; intros c Hc; apply descends_child;
    by apply Hsame.
Qed.

Lemma collect_descendants_children_only_witness :
  collect_descendants lineage_individuals lineage_families
    (mkFamily "@F2@" None (Some "@I1@") ["@I3@"; "@I2@"; "@I3@"] new_Event)
  = collect_descendants lineage_individuals lineage_families
      (mkFamily "@F9@" (Some "@I7@") None ["@I2@"; "@I3@"] new_Event).
Proof.
  apply (collect_descendants_children_only lineage_individuals
           lineage_families
           (mkFamily "@F2@" None (Some "@I1@") ["@I3@"; "@I2@"; "@I3@"]
              new_Event)
           (mkFamily "@F9@" (Some "@I7@") None ["@I2@"; "@I3@"] new_Event)).
  intros c. simpl. rewrite !elem_of_cons, !elem_of_nil. tauto.
Defined.



(** ** Escaped texts *)

Lemma app_cons c a b : String c a +:+ b = String c (a +:+ b).
Proof. done. Qed.

Lemma str_app_assoc a b c : (a +:+ b) +:+ c = a +:+ (b +:+ c).
Proof.
  induction a as [|d a IH]; [done|]. rewrite !app_cons. by rewrite IH.
Qed.

Lemma replace_with_app old new a b :
  replace_with old new (a +:+ b)
  = replace_with old new a +:+ replace_with old new b.
Proof.
  induction a as [|c a IH]; [done|].
  rewrite app_cons. simpl. rewrite IH.
  case_decide; [by rewrite str_app_assoc|done].
Qed.

Lemma html_escape_app a b :
  html_escape (a +:+ b) = html_escape a +:+ html_escape b.
Proof. unfold html_escape. by rewrite !replace_with_app. Qed.

Lemma html_escape_cons c s :
  html_escape (String c s) = html_escape (String c "") +:+ html_escape s.
Proof. by rewrite <- html_escape_app. Qed.

Lemma html_escape_char c :
  (c = "&"%char ∧ html_escape (String c "") = "&amp;")
  ∨ (c = "<"%char ∧ html_escape (String c "") = "&lt;")
  ∨ (c = ">"%char ∧ html_escape (String c "") = "&gt;")
  ∨ (c = double_quote ∧ html_escape (String c "") = "&quot;")
  ∨ (c = "'"%char ∧ html_escape (String c "") = "&#x27;")
  ∨ (is_special c = false ∧ html_escape (String c "") = String c "").
Proof.
  destruct c as [[] [] [] [] [] [] [] []];
    first [ by do 5 right | by left | by right; left
          | by do 2 right; left | by do 3 right; left
          | by do 4 right; left ].
Qed.

Lemma count_char_app c a b :
  count_char c (a +:+ b) = count_char c a + count_char c b.
Proof.
  induction a as [|d a IH]; [done|].
  rewrite app_cons. simpl. rewrite IH. lia.
Qed.

Lemma is_markup_cases c :
  is_markup c = true →
  c = "<"%char ∨ c = ">"%char ∨ c = "'"%char ∨ c = double_quote.
Proof.
  unfold is_markup. simpl. repeat case_decide; try case_bool_decide; naive_solver.
Qed.

Lemma is_markup_special c : is_markup c = true → is_special c = true.
Proof. intros [->|[->|[->| ->]]]%is_markup_cases; done. Qed.

Lemma count_char_escape c s :
  is_markup c = true → count_char c (html_escape s) = 0.
Proof.
  intros Hc. induction s as [|d s IH]; [done|].
  rewrite html_escape_cons, count_char_app, IH.
  destruct (html_escape_char d)
    as [[-> ->]|[[-> ->]|[[-> ->]|[[-> ->]|[[-> ->]|[Hd ->]]]]]];
    try (by apply is_markup_cases in Hc as [->|[->|[->| ->]]]).
  simpl. case_decide as Heq; [|done]. subst d.
  apply is_markup_special in Hc. congruence.
Qed.

(** ** The person summary *)

Lemma truthy_part_truthy part t :
  t ∈ truthy_part part → str_truthy t = true.
Proof.
  destruct part as [text|]; simpl; [|by intros ?%elem_of_nil].
  destruct (str_truthy text) eqn:Ht; [|by intros ?%elem_of_nil].
  by intros ->%list_elem_of_singleton.
Qed.

Lemma description_truthy self d :
  description self = Some d → str_truthy d = true.
Proof.
  unfold description.
  pose proof (truthy_part_truthy (date self)) as Hd.
  pose proof (truthy_part_truthy (place self)) as Hp.
  destruct (truthy_part (date self)) as [|a [|a' l]] eqn:Ea.
  - destruct (truthy_part (place self)) as [|b [|b' l]] eqn:Eb; simpl.
    + done.
    + intros [= <-]. apply Hp. left.
    + intros [= <-]. assert (Hb : str_truthy b = true) by (apply Hp; left).
      by destruct b.
  - simpl. destruct (truthy_part (place self)) as [|b l] eqn:Eb.
    + intros [= <-]. apply Hd. left.
    + intros [= <-]. assert (Ha : str_truthy a = true) by (apply Hd; left).
      by destruct a.
  - simpl. intros [= <-].
    assert (Ha : str_truthy a = true) by (apply Hd; left). by destruct a.
Qed.

Lemma description_none self :
  description self = None
  ↔ truthy_part (date self) = [] ∧ truthy_part (place self) = [].
Proof.
  unfold description.
  destruct (truthy_part (date self)) as [|a l]; simpl.
  - destruct (truthy_part (place self)) as [|b l]; simpl; [done|].
    split; [done|by intros [_ ?]].
  - split; [done|by intros [? _]].
Qed.

Lemma summary_line_count c label text :
  is_markup c = true → count_char c label = 0 →
  count_char c (join "" (summary_line label text))
  = length (summary_line label text) * count_char c "<p><strong></strong> </p>".
Proof.
  intros Hc Hlabel. unfold summary_line.
  destruct text as [t|]; [|done].
  destruct (str_truthy t); [|done].
  cbn [join length]. rewrite !count_char_app, Hlabel, count_char_escape by done.
  apply is_markup_cases in Hc as [->|[->|[->| ->]]]; reflexivity.
Qed.

Lemma join_empty_app a b : join "" (a ++ b) = join "" a +:+ join "" b.
Proof.
  induction a as [|x a IH]; [done|].
  destruct a as [|y a].
  - simpl. destruct b; [by rewrite app_empty_r|done].
  - change (join "" ((x :: y :: a) ++ b))
      with (x +:+ "" +:+ join "" ((y :: a) ++ b)).
    rewrite IH.
    change (join "" (x :: y :: a)) with (x +:+ "" +:+ join "" (y :: a)).
    by rewrite !str_app_assoc.
Qed.

Lemma summary_count c person :
  is_markup c = true →
  count_char c (render_person_summary person)
  = described person * count_char c "<p><strong></strong> </p>".
Proof.
  intros Hc. unfold render_person_summary, described.
  rewrite join_empty_app, count_char_app, length_app.
  rewrite !summary_line_count;
    [lia|done| |done|];
    by apply is_markup_cases in Hc as [->|[->|[->| ->]]].
Qed.

Lemma summary_line_empty label text :
  join "" (summary_line label text) = "" ↔ summary_line label text = [].
Proof.
  unfold summary_line. destruct text as [t|]; [|done].
  destruct (str_truthy t); [|done]. done.
Qed.

(** X12: The summary of an individual holds four opening and four closing
    angle brackets for each event that has a description, and no quote:
    the dates and places add no markup of their own.  It is empty exactly
    when neither birth nor death has a description; an event has none
    exactly when its date and its place are both missing or empty, and a
    description is never the empty text. *)
Theorem render_person_summary_markup (person : Individual) :
  count_char "<" (render_person_summary person) = 4 * described person
  ∧ count_char ">" (render_person_summary person) = 4 * described person
  ∧ count_char "'" (render_person_summary person) = 0
  ∧ count_char double_quote (render_person_summary person) = 0
  ∧ (render_person_summary person = "" ↔ described person = 0)
  ∧ (described person = 0
     ↔ description (birth person) = None
       ∧ description (death person) = None)
  ∧ (∀ self : Event,
       description self = None
       ↔ truthy_part (date self) = [] ∧ truthy_part (place self) = [])
  ∧ (∀ self : Event, description self ≠ Some "").
Proof.
  assert (Hline : ∀ label text,
            summary_line label text = [] ↔ ∀ d, text = Some d → str_truthy d = false).
  { intros label [t|]; simpl.
    - destruct (str_truthy t) eqn:Ht.
      + split; [done|]. intros H. specialize (H t eq_refl). congruence.
      + split; [|done]. by intros _ d [= <-].
    - split; [|done]. by intros _ d. }
  split_and!.
  - rewrite summary_count by done. simpl. lia.
  - rewrite summary_count by done. simpl. lia.
  - rewrite summary_count by done. simpl. lia.
  - rewrite summary_count by done. simpl. lia.
  - unfold render_person_summary, described.
    rewrite length_zero_iff_nil.
    destruct (summary_line "Born:" (description (birth person)))
      as [|x l] eqn:Hb.
    + rewrite app_nil_l. apply summary_line_empty.
    + split; [|done]. intros H. exfalso.
      rewrite join_empty_app in H. unfold summary_line in Hb.
      destruct (description (birth person)) as [t|]; [|done].
      destruct (str_truthy t); [|done].
      injection Hb as <- <-. cbn [join] in H. by rewrite !app_cons in H.
  - unfold described. rewrite length_zero_iff_nil.
    split.
    + intros [Hb Hd]%app_eq_nil.
      rewrite Hline in Hb. rewrite Hline in Hd.
      split.
      * destruct (description (birth person)) as [d|] eqn:E; [|done].
        apply description_truthy in E. by rewrite (Hb d eq_refl) in E.
      * destruct (description (death person)) as [d|] eqn:E; [|done].
        apply description_truthy in E. by rewrite (Hd d eq_refl) in E.
    + by intros [-> ->].
  - apply description_none.
  - intros self H. by apply description_truthy in H.
Qed.

(** ** The person card *)

Lemma str_int_digit h :
  (0 ≤ h < 10)%Z →
  ∃ d, str_int h = inr (String d "") ∧ is_digit d = true.
Proof.
  intros Hh.
  destruct h as [|p|p]; [| |lia].
  - eexists; split; reflexivity.
  - do 4 (try (destruct p as [p|p|]; try lia)); eexists; split; reflexivity.
Qed.

Lemma card_count c person link extra h card :
  is_markup c = true →
  person_card person link extra h = inr card →
  (0 ≤ h < 10)%Z →
  count_char c card
  = count_char c "<div class='person-card'><h></h></div>"
    + (if linked link
       then count_char c ("<a href=" +:+ DQ +:+ DQ +:+ "></a>") else 0)
    + described person * count_char c "<p><strong></strong> </p>"
    + count_char c (match extra with
                    | Some e => if str_truthy e then e else ""
                    | None => ""
                    end).
Proof.
  intros Hc Hcard Hh. unfold person_card in Hcard.
  destruct (str_int_digit h Hh) as (d & Hd & Hdigit).
  rewrite Hd in Hcard. simpl in Hcard. injection Hcard as <-.
  assert (Hlevel : count_char c (String d "") = 0).
  { simpl. case_decide as Heq; [|done]. subst d.
    by apply is_markup_cases in Hc as [->|[->|[->| ->]]]. }
  rewrite !count_char_app, Hlevel, summary_count by done.
  assert (Hname :
    count_char c
      match link with
      | Some l =>
          if str_truthy l
          then "<a href=" +:+ DQ +:+ html_escape l +:+ DQ +:+ ">"
               +:+ html_escape (display_name person) +:+ "</a>"
          else html_escape (display_name person)
      | None => html_escape (display_name person)
      end
    = if linked link
      then count_char c ("<a href=" +:+ DQ +:+ DQ +:+ "></a>") else 0).
  { destruct link as [l|]; simpl; [|by apply count_char_escape].
    destruct (str_truthy l); [|by apply count_char_escape].
    rewrite !count_char_app, !count_char_escape by done. simpl. lia. }
  rewrite Hname.
  apply is_markup_cases in Hc as [->|[->|[->| ->]]]; simpl; lia.
Qed.

(** X13: With a heading level of one digit [person_card] returns a card, and
    the name, the link and the event texts add no angle bracket and no
    quote to it: the card holds the brackets and quotes of its fixed
    markup, two more brackets and the two double quotes of the attribute
    when there is a link, four brackets for each described event, and
    whatever the [extra] fragment, which is not escaped, brings. *)
Theorem person_card_markup (person : Individual) (link extra : option string)
    (heading_level : Z) :
  (0 ≤ heading_level < 10)%Z →
  ∃ card,
    person_card person link extra heading_level = inr card
    ∧ let extra_html :=
        match extra with
        | Some e => if str_truthy e then e else ""
        | None => ""
        end in
      let anchor := if linked link then 2 else 0 in
      count_char "<" card
      = 4 + anchor + 4 * described person + count_char "<" extra_html
      ∧ count_char ">" card
        = 4 + anchor + 4 * described person + count_char ">" extra_html
      ∧ count_char double_quote card
        = anchor + count_char double_quote extra_html
      ∧ count_char "'" card = 2 + count_char "'" extra_html.
Proof.
  intros Hh.
  destruct (str_int_digit heading_level Hh) as (d & Hd & _).
  assert (Hcard : ∃ card,
            person_card person link extra heading_level = inr card).
  { unfold person_card. rewrite Hd. by eexists. }
  destruct Hcard as [card Hcard]. exists card. split; [done|].
  cbv zeta. split_and!.
  - rewrite (card_count "<" _ _ _ _ _ eq_refl Hcard Hh).
    destruct (linked link); simpl; lia.
  - rewrite (card_count ">" _ _ _ _ _ eq_refl Hcard Hh).
    destruct (linked link); simpl; lia.
  - rewrite (card_count double_quote _ _ _ _ _ eq_refl Hcard Hh).
    destruct (linked link); simpl; lia.
  - rewrite (card_count "'" _ _ _ _ _ eq_refl Hcard Hh).
    destruct (linked link); simpl; lia.
Qed.

Lemma person_card_markup_witness :
  ∃ card,
    person_card
      (mkIndividual "@I1@" "Ann <b> /Lee/" "" "" "F" None []
         (mkEvent (Some "4 MAR 1930") (Some "Leeds & <York>")) new_Event)
      (Some "people/ann's.html") None 3 = inr card
    ∧ count_char "<" card = 10
    ∧ count_char "'" card = 2.
Proof.
  destruct (person_card_markup
              (mkIndividual "@I1@" "Ann <b> /Lee/" "" "" "F" None []
                 (mkEvent (Some "4 MAR 1930") (Some "Leeds & <York>"))
                 new_Event)
              (Some "people/ann's.html") None 3)
    as (card & Hcard & Hlt & _ & _ & Hq); [lia|].
  exists card. split_and!; [exact Hcard|exact Hlt|exact Hq].
Defined.

(** ** The children of a page *)

Lemma elem_of_gather_children individuals child_ids gathered x :
  x ∈ gather_children individuals child_ids gathered
  ↔ x ∈ gathered
    ∨ ∃ child_id, child_id ∈ child_ids
                  ∧ dict_get individuals child_id = Some x.
Proof.
  revert gathered. induction child_ids as [|c cs IH]; intros gathered; simpl.
  - split; [by left|]. intros [?|(c & ?%elem_of_nil & _)]; done.
  - rewrite IH. destruct (dict_get individuals c) as [child|] eqn:Hc.
    + rewrite elem_of_app, list_elem_of_singleton. split.
      * intros [[?| ->]|(c' & ? & ?)]; [by left|right..].
        -- exists c. split; [left|done].
        -- exists c'. split; [by right|done].
      * intros [?|(c' & [->|?]%elem_of_cons & Hx)].
        -- by left; left.
        -- left; right. congruence.
        -- right. by exists c'.
    + split.
      * intros [?|(c' & ? & ?)]; [by left|right].
        exists c'. split; [by right|done].
      * intros [?|(c' & [->|?]%elem_of_cons & Hx)];
          [by left|congruence|right; by exists c'].
Qed.

Lemma elem_of_gather_families individuals families fam_ids gathered x :
  x ∈ gather_families individuals families fam_ids gathered
  ↔ x ∈ gathered
    ∨ ∃ f fam child_id,
        f ∈ fam_ids ∧ dict_get families f = Some fam
        ∧ child_id ∈ children fam
        ∧ dict_get individuals child_id = Some x.
Proof.
  revert gathered. induction fam_ids as [|f0 fs IH]; intros gathered; simpl.
  - split; [by left|]. intros [?|(f & ? & ? & ?%elem_of_nil & _)]; done.
  - rewrite IH. destruct (dict_get families f0) as [fam0|] eqn:Hf0.
    + rewrite elem_of_gather_children. split.
      * intros [[?|(c & ? & ?)]|(f & fam & c & ? & ? & ? & ?)];
          [by left|right..].
        -- exists f0, fam0, c. split_and!; [left|done..].
        -- exists f, fam, c. split_and!; [by right|done..].
      * intros [?|(f & fam & c & [->|?]%elem_of_cons & Hf & ? & ?)].
        -- by left; left.
        -- left; right. exists c. by simplify_eq.
        -- right. by exists f, fam, c.
    + split.
      * intros [?|(f & fam & c & ? & ? & ? & ?)]; [by left|right].
        exists f, fam, c. split_and!; [by right|done..].
      * intros [?|(f & fam & c & [->|?]%elem_of_cons & Hf & ? & ?)];
          [by left|congruence|right; by exists f, fam, c].
Qed.

Lemma unique_children_spec gathered seen ordered :
  NoDup (ind_id <$> ordered) →
  (∀ x, x ∈ ordered → ind_id x ∈ seen) →
  NoDup (ind_id <$> unique_children gathered seen ordered)
  ∧ (∀ x, x ∈ unique_children gathered seen ordered →
          x ∈ ordered ∨ (x ∈ gathered ∧ ind_id x ∉ seen))
  ∧ (∀ x, x ∈ ordered → x ∈ unique_children gathered seen ordered)
  ∧ (∀ x, x ∈ gathered → ind_id x ∉ seen →
          ∃ y, y ∈ unique_children gathered seen ordered
               ∧ y ∈ gathered ∧ ind_id y = ind_id x).
Proof.
  revert seen ordered.
  induction gathered as [|child rest IH]; intros seen ordered Hnd Hseen;
    simpl.
  - split_and!; [done|by left|done|]. by intros x ?%elem_of_nil.
  - case_decide as Hin.
    + destruct (IH seen ordered Hnd Hseen) as (H1 & H2 & H3 & H4).
      split_and!; [done| |done|].
      * intros x [?|[? ?]]%H2; [by left|right]. split; [by right|done].
      * intros x [->|Hx]%elem_of_cons Hnew; [done|].
        destruct (H4 x Hx Hnew) as (y & ? & ? & ?).
        exists y. split_and!; [done|by right|done].
    + destruct (IH ({[ind_id child]} ∪ seen) (ordered ++ [child]))
        as (H1 & H2 & H3 & H4).
      * rewrite fmap_app. apply NoDup_app. split_and!; [done| |].
        -- intros i (x & -> & Hx)%list_elem_of_fmap.
           simpl. intros Heq%list_elem_of_singleton.
           apply Hin. rewrite <- Heq. by apply Hseen.
        -- apply NoDup_singleton.
      * intros x [Hx| ->%list_elem_of_singleton]%elem_of_app;
          [apply Hseen in Hx|]; set_solver.
      * split_and!; [done| | |].
        -- intros x [[?| ->%list_elem_of_singleton]%elem_of_app|[Hx Hnew]]%H2.
           ++ by left.
           ++ right. split; [left|done].
           ++ right. split; [by right|set_solver].
        -- intros x Hx. apply H3, elem_of_app. by left.
        -- intros x [->|Hx]%elem_of_cons Hnew.
           ++ exists child. split_and!; [|left|done].
              apply H3, elem_of_app. right. by apply list_elem_of_singleton.
           ++ destruct (decide (ind_id x = ind_id child)) as [Heq|Hne].
              ** exists child. split_and!; [|left|done].
                 apply H3, elem_of_app. right.
                 by apply list_elem_of_singleton.
              ** destruct (H4 x Hx) as (y & ? & ? & ?); [set_solver|].
                 exists y. split_and!; [done|by right|done].
Qed.

Lemma page_children_members individuals families person child :
  child ∈ page_children individuals families person →
  ∃ f fam child_id,
    f ∈ fams person ∧ dict_get families f = Some fam
    ∧ child_id ∈ children fam
    ∧ dict_get individuals child_id = Some child.
Proof.
  unfold page_children.
  destruct (unique_children_spec
              (gather_families individuals families (fams person) []) ∅ [])
    as (_ & H2 & _ & _); [constructor|by intros x ?%elem_of_nil|].
  intros [?%elem_of_nil|[Hx _]]%H2; [done|].
  apply elem_of_gather_families in Hx as [?%elem_of_nil|Hx]; done.
Qed.

(** X14: The children of a descendant's page: no identifier twice; each of
    them is the record the individuals mapping has for a child of a
    family of the person; and each such record is there, or another
    record of the same identifier is. *)
Theorem page_children_spec (individuals : dict Individual)
    (families : dict Family) (person : Individual) :
  NoDup (ind_id <$> page_children individuals families person)
  ∧ (∀ child,
       child ∈ page_children individuals families person →
       ∃ f fam child_id,
         f ∈ fams person ∧ dict_get families f = Some fam
         ∧ child_id ∈ children fam
         ∧ dict_get individuals child_id = Some child)
  ∧ (∀ f fam child_id child,
       f ∈ fams person → dict_get families f = Some fam →
       child_id ∈ children fam →
       dict_get individuals child_id = Some child →
       ∃ shown, shown ∈ page_children individuals families person
                ∧ ind_id shown = ind_id child).
Proof.
  unfold page_children.
  destruct (unique_children_spec
              (gather_families individuals families (fams person) []) ∅ [])
    as (H1 & H2 & _ & H4); [constructor|by intros x ?%elem_of_nil|].
  split_and!; [done| |].
  - intros child [?%elem_of_nil|[Hx _]]%H2; [done|].
    apply elem_of_gather_families in Hx as [?%elem_of_nil|Hx]; done.
  - intros f fam child_id child Hf Hfam Hc Hchild.
    destruct (H4 child) as (y & Hy & _ & Hid); [|set_solver|by exists y].
    apply elem_of_gather_families. right. by exists f, fam, child_id.
Qed.

Lemma build_page_lookup_get individuals page_path order page_lookup k :
  dict_get (build_page_lookup individuals page_path order page_lookup) k
  = match dict_get individuals k with
    | Some person =>
        if decide (k ∈ order)
        then Some (page_path (slugify (display_name person) (ind_id person)))
        else dict_get page_lookup k
    | None => dict_get page_lookup k
    end.
Proof.
  revert page_lookup.
  induction order as [|d rest IH]; intros page_lookup; simpl.
  - by destruct (dict_get individuals k).
  - rewrite IH. destruct (dict_get individuals k) as [person|] eqn:Hk.
    + destruct (decide (k ∈ rest)) as [Hin|Hnot].
      * rewrite (decide_True (P := k ∈ d :: rest)) by (by right). done.
      * destruct (decide (d = k)) as [->|Hne].
        -- rewrite (decide_True (P := k ∈ k :: rest)) by left. rewrite Hk.
           rewrite dict_get_dict_set. by rewrite decide_True.
        -- rewrite (decide_False (P := k ∈ d :: rest))
             by (by intros [?|?]%elem_of_cons).
           destruct (dict_get individuals d); [|done].
           rewrite dict_get_dict_set. by rewrite decide_False.
    + destruct (dict_get individuals d) as [person|] eqn:Hd; [|done].
      rewrite dict_get_dict_set. case_decide; [congruence|done].
Qed.

(** X15: On the data of a parsed file every child card has a page to link to:
    [page_lookup] has an entry exactly for the descendants the individuals
    mapping knows, with the path made from the slug of the individual; the
    children shown on the index are among them, and so are the children
    shown on the page of any of them. *)
Theorem pages_linked (lines : list string)
    (individuals : dict Individual) (families : dict Family)
    (base_family : Family) (ds : gset string) (order : list string)
    (page_path : string → string) :
  parse lines = inr (individuals, families) →
  collect_descendants individuals families base_family = Some ds →
  (∀ x, x ∈ order ↔ x ∈ ds) →
  let page_lookup := build_page_lookup individuals page_path order [] in
  (∀ k path,
     dict_get page_lookup k = Some path
     ↔ k ∈ ds
       ∧ ∃ person, dict_get individuals k = Some person
                   ∧ path = page_path (slugify (display_name person) k))
  ∧ (∀ child,
       child ∈ known_children individuals base_family →
       is_Some (dict_get page_lookup (ind_id child)))
  ∧ (∀ k person child,
       is_Some (dict_get page_lookup k) →
       dict_get individuals k = Some person →
       child ∈ page_children individuals families person →
       is_Some (dict_get page_lookup (ind_id child))).
Proof.
  intros Hparse Hds Horder page_lookup.
  destruct (parse_keys_agree lines individuals families Hparse)
    as (Hids & _ & _ & _).
  destruct (collect_descendants_descends individuals families base_family)
    as (ds0 & Hds0 & Hspec).
  assert (ds0 = ds) as -> by congruence.
  assert (Hget : ∀ k path,
            dict_get page_lookup k = Some path
            ↔ k ∈ ds
              ∧ ∃ person, dict_get individuals k = Some person
                          ∧ path = page_path
                                     (slugify (display_name person) k)).
  { intros k path. unfold page_lookup. rewrite build_page_lookup_get.
    destruct (dict_get individuals k) as [person|] eqn:Hk; simpl.
    - destruct (Hids k person Hk) as [Hid _]. rewrite Hid.
      case_decide as Hin.
      + split.
        * intros [= <-]. split; [by apply Horder|]. by exists person.
        * intros (_ & person' & [= <-] & ->). done.
      + split; [done|]. intros [Hin' _]. exfalso. by apply Hin, Horder.
    - split; [done|]. by intros (_ & ? & ? & _). }
  assert (Hsome : ∀ child_id child,
            descends individuals families base_family child_id →
            dict_get individuals child_id = Some child →
            is_Some (dict_get page_lookup (ind_id child))).
  { intros child_id child Hd Hchild.
    destruct (Hids child_id child Hchild) as [Hid _]. rewrite Hid.
    eexists. apply Hget. split; [by apply Hspec|]. by exists child. }
  split_and!; [done| |].
  - intros child (child_id & Hc & Hchild)%list_elem_of_omap.
    apply (Hsome child_id); [|done]. by apply descends_child.
  - intros k person child [path Hpath] Hperson Hchild.
    apply Hget in Hpath as (Hk & _).
    destruct (page_children_members individuals families person child Hchild)
      as (f & fam & child_id & Hf & Hfam & Hc & Hrec).
    apply (Hsome child_id); [|done].
    eapply descends_step; [by apply Hspec|done..].
Qed.

Lemma pages_linked_witness :
  ∃ individuals families base_family ds,
    parse lineage_lines = inr (individuals, families)
    ∧ dict_get families "@F1@" = Some base_family
    ∧ collect_descendants individuals families base_family = Some ds
    ∧ dict_get (build_page_lookup individuals (fun slug => slug)
                  (elements ds) []) "@I2@"
      = Some "bob-lee-I2".
Proof.
  destruct (parse lineage_lines) as [e|[individuals families]] eqn:Hparse;
    [vm_compute in Hparse; discriminate|].
  destruct (dict_get families "@F1@") as [base_family|] eqn:Hbase;
    [|vm_compute in Hparse; injection Hparse as <- <-;
      vm_compute in Hbase; discriminate].
  destruct (collect_fuel_enough individuals families base_family
              (collect_fuel individuals families base_family))
    as [ds Hds]; [done|].
  exists individuals, families, base_family, ds.
  split_and!; [done..|].
  destruct (pages_linked lineage_lines individuals families base_family ds
              (elements ds) (fun slug => slug) Hparse Hds)
    as (Hget & _ & _); [intros x; apply elem_of_elements|].
  apply Hget. vm_compute in Hparse. injection Hparse as <- <-.
  vm_compute in Hbase. injection Hbase as <-.
  split.
  - eapply collect_loop_sound; [apply walk_inv_initial|exact Hds|].
    eapply (descends_step _ _ _ "@I1@" _ "@F2@");
      [apply descends_child; simpl; left|reflexivity|simpl; left
      |reflexivity|simpl; right; left].
  - eexists. split; reflexivity.
Defined.

(** ** The base couple *)

Lemma find_individual_member individuals query best :
  find_individual individuals query = inr best →
  best ∈ dict_values individuals.
Proof.
  intros Hbest.
  destruct (find_individual_cases individuals query)
    as [[_ [msg Hfind]]
       |[(_ & _ & msg & Hfind)
        |(_ & best' & rest & Hs & _
          & [(second & more & _ & _ & msg & Hfind)|[_ Hfind]])]];
    rewrite Hfind in Hbest; try done.
  injection Hbest as ->.
  pose proof (sorted_by_perm (score (normalise query))
                (candidates individuals (normalise query))) as Hperm.
  rewrite Hs in Hperm.
  assert (Hin : best ∈ candidates individuals (normalise query))
    by (rewrite <- Hperm; left).
  by apply list_elem_of_filter in Hin as [_ ?].
Qed.

Lemma candidate_pair_inv individuals families base_husband fam_id fam spouse :
  candidate_pair individuals families base_husband fam_id = Some (fam, spouse) →
  dict_get families fam_id = Some fam
  ∧ ∃ spouse_id, spouse_of fam base_husband = Some spouse_id
                 ∧ str_truthy spouse_id = true
                 ∧ dict_get individuals spouse_id = Some spouse.
Proof.
  unfold candidate_pair.
  destruct (dict_get families fam_id) as [fam'|]; [|done].
  destruct (spouse_of fam' base_husband) as [spouse_id|] eqn:Hsp; [|done].
  destruct (str_truthy spouse_id) eqn:Ht; [|done].
  destruct (dict_get individuals spouse_id) as [spouse'|] eqn:Hs; [|done].
  intros [= <- <-]. split; [done|]. by exists spouse_id.
Qed.

Lemma first_match_elem wife_query pairs found :
  first_match wife_query pairs = Some found → found ∈ pairs.
Proof.
  induction pairs as [|[fam spouse] rest IH]; simpl; [done|].
  destruct (str_truthy wife_query
            && negb (contains (normalise (display_name spouse)) wife_query)).
  - intros ?%IH. by right.
  - intros [= <-]. left.
Qed.

Lemma spouse_of_spouse_in fam base_husband spouse_id :
  spouse_of fam base_husband = Some spouse_id → spouse_in fam spouse_id.
Proof.
  unfold spouse_of, spouse_in. case_decide; [by right|by left].
Qed.

Lemma select_by_names_cases individuals families husband_name wife_name
    base_family base_husband base_wife :
  select_by_names individuals families husband_name wife_name
  = Selects (base_family, base_husband, base_wife) →
  find_individual individuals husband_name = inr base_husband
  ∧ ((base_family, base_wife)
       ∈ candidate_pairs individuals families base_husband
     ∨ (find_individual individuals wife_name = inr base_wife
        ∧ find_family_by_spouses families (ind_id base_husband)
            (ind_id base_wife) = Some base_family)).
Proof.
  unfold select_by_names.
  destruct (find_individual individuals husband_name) as [e|h]; [done|].
  destruct (first_match (normalise wife_name)
              (candidate_pairs individuals families h))
    as [[fam w]|] eqn:Hfirst.
  { intros [= <- <- <-]. split; [done|]. left.
    by eapply first_match_elem. }
  destruct (candidate_pairs individuals families h) as [|[fam w] [|p l]]
    eqn:Hpairs.
  - destruct (find_individual individuals wife_name) as [e|w]; [done|].
    destruct (find_family_by_spouses families (ind_id h) (ind_id w))
      as [fam|] eqn:Hfam; [|done].
    intros [= <- <- <-]. split; [done|]. by right.
  - intros [= <- <- <-]. split; [done|]. left. rewrite Hpairs. left.
  - destruct (find_individual individuals wife_name) as [e|w']; [done|].
    destruct (find_family_by_spouses families (ind_id h) (ind_id w'))
      as [fam'|] eqn:Hfam; [|done].
    intros [= <- <- <-]. split; [done|]. by right.
Qed.

(** X16: On the data of a parsed file, whichever way the base couple is
    selected: the family is one of the families mapping; husband and wife
    are the records the individuals mapping has under their own ids; and
    the wife is the husband or the wife of the family.  Selected by its
    id, the family has the two as its husband and its wife; selected by
    the names, the family is one the husband lists, or one whose husband
    and wife are the two, in either order. *)
Theorem select_base_spouses (lines : list string)
    (individuals : dict Individual) (families : dict Family)
    (base_family_id : option string) (husband_name wife_name : string)
    (base_family : Family) (base_husband base_wife : Individual) :
  parse lines = inr (individuals, families) →
  select_base individuals families base_family_id husband_name wife_name
  = Selects (base_family, base_husband, base_wife) →
  base_family ∈ dict_values families
  ∧ dict_get individuals (ind_id base_husband) = Some base_husband
  ∧ dict_get individuals (ind_id base_wife) = Some base_wife
  ∧ spouse_in base_family (ind_id base_wife)
  ∧ (opt_truthy base_family_id = true →
     base_family_id = Some (fam_id base_family)
     ∧ husband base_family = Some (ind_id base_husband)
     ∧ wife base_family = Some (ind_id base_wife))
  ∧ (opt_truthy base_family_id = false →
     find_individual individuals husband_name = inr base_husband
     ∧ ((∃ f, f ∈ fams base_husband
              ∧ dict_get families f = Some base_family)
        ∨ couple_of base_family (ind_id base_husband) (ind_id base_wife))).
Proof.
  intros Hparse Hsel.
  destruct (parse_keys_agree lines individuals families Hparse)
    as (Hids & Hfids & Hvals & _).
  assert (Hnames :
    select_by_names individuals families husband_name wife_name
    = Selects (base_family, base_husband, base_wife) →
    base_family ∈ dict_values families
    ∧ dict_get individuals (ind_id base_husband) = Some base_husband
    ∧ dict_get individuals (ind_id base_wife) = Some base_wife
    ∧ spouse_in base_family (ind_id base_wife)
    ∧ find_individual individuals husband_name = inr base_husband
    ∧ ((∃ f, f ∈ fams base_husband
             ∧ dict_get families f = Some base_family)
       ∨ couple_of base_family (ind_id base_husband) (ind_id base_wife))).
  { intros (Hh & Hcase)%select_by_names_cases.
    pose proof (find_individual_member _ _ _ Hh) as Hhin.
    destruct Hcase as [Hpair|[Hw Hfam]].
    - apply list_elem_of_omap in Hpair as (f & Hf & Hpair).
      apply candidate_pair_inv in Hpair
        as (Hfam & spouse_id & Hspouse & _ & Hrec).
      destruct (Hids spouse_id base_wife Hrec) as [Hid _].
      split_and!; [by eapply dict_get_values|by apply Hvals| | |done|].
      + by rewrite Hid.
      + rewrite Hid. by eapply spouse_of_spouse_in.
      + left. by exists f.
    - pose proof (find_individual_member _ _ _ Hw) as Hwin.
      pose proof (find_family_in_first (dict_values families)
                    (ind_id base_husband) (ind_id base_wife)) as Hfirst.
      unfold find_family_by_spouses in Hfam. rewrite Hfam in Hfirst.
      destruct Hfirst as (before & after & Heq & Hcouple & _).
      split_and!; [|by apply Hvals|by apply Hvals| |done|by right].
      + rewrite Heq. apply elem_of_app. right. left.
      + destruct Hcouple as [[_ ?]|[? _]]; [by right|by left]. }
  unfold select_base in Hsel.
  destruct base_family_id as [id|]; simpl.
  - destruct (str_truthy id) eqn:Hid.
    + unfold select_by_id in Hsel.
      destruct (dict_get families id) as [fam|] eqn:Hfam; [|done].
      destruct (husband fam) as [hid|] eqn:Hh; [|done].
      destruct (wife fam) as [wid|] eqn:Hw;
        [|simpl in Hsel; by destruct (str_truthy hid)].
      simpl in Hsel.
      destruct (str_truthy hid), (str_truthy wid); simpl in Hsel; try done.
      destruct (dict_get individuals hid) as [h|] eqn:Hhrec; [|done].
      destruct (dict_get individuals wid) as [w|] eqn:Hwrec; [|done].
      injection Hsel as <- <- <-.
      destruct (Hids hid h Hhrec) as [Hhid _].
      destruct (Hids wid w Hwrec) as [Hwid _].
      destruct (Hfids id fam Hfam) as [Hfid _].
      rewrite Hhid, Hwid.
      split_and!; [by eapply dict_get_values|done|done| | |done].
      * right. by rewrite Hw.
      * intros _. by rewrite Hfid, Hh, Hw.
    + destruct (Hnames Hsel) as (? & ? & ? & ? & ? & ?).
      split_and!; done.
  - destruct (Hnames Hsel) as (? & ? & ? & ? & ? & ?).
    split_and!; done.
Qed.

Lemma select_base_spouses_witness :
  parse couple_lines = inr (couple_individuals, couple_families)
  ∧ ∃ base_family base_husband base_wife,
      select_base couple_individuals couple_families None "david" "verna"
      = Selects (base_family, base_husband, base_wife)
      ∧ spouse_in base_family (ind_id base_wife).
Proof.
  split; [reflexivity|].
  eexists _, _, _. split; [reflexivity|].
  by destruct (select_base_spouses couple_lines couple_individuals
                 couple_families None "david" "verna" _ _ _
                 eq_refl eq_refl) as (_ & _ & _ & Hspouse & _).
Defined.

(** X17: With one candidate family the name of the wife is not looked at: when
    the husband found lists exactly one family that has a known spouse,
    that family and that spouse are selected whatever the wife's name is,
    also one that matches nobody. *)
Theorem select_base_single_family (individuals : dict Individual)
    (families : dict Family) (husband_name wife_name : string)
    (base_husband : Individual) (fam : Family) (spouse : Individual) :
  find_individual individuals husband_name = inr base_husband →
  candidate_pairs individuals families base_husband = [(fam, spouse)] →
  select_base individuals families None husband_name wife_name
  = Selects (fam, base_husband, spouse).
Proof.
  intros Hh Hpairs. unfold select_base, select_by_names.
  rewrite Hh, Hpairs. simpl.
  by destruct (str_truthy (normalise wife_name)
               && negb (contains (normalise (display_name spouse))
                          (normalise wife_name))).
Qed.

Lemma select_base_single_family_witness :
  ∃ fam base_husband spouse,
    select_base couple_individuals couple_families None "david" "nobody"
    = Selects (fam, base_husband, spouse)
    ∧ display_name spouse = "Verna Mae Rucker".
Proof.
  eexists _, _, _. split.
  - apply (select_base_single_family couple_individuals couple_families
             "david" "nobody"); reflexivity.
  - reflexivity.
Defined.

(** ** The biographies *)

Lemma index_docs_get docs available key doc :
  dict_get (index_docs docs available) key = Some doc →
  (doc ∈ docs ∧ extract_name_key doc.1 = Some key)
  ∨ dict_get available key = Some doc.
Proof.
  revert available. induction docs as [|[stem ps] rest IH];
    intros available; simpl; [by right|].
  intros [[Hin Hkey]|Hget]%IH; [left; split; [by right|done]|].
  destruct (extract_name_key stem) as [k|] eqn:Hk; [|by right].
  destruct (str_truthy k); [|by right].
  rewrite dict_get_dict_set in Hget. case_decide as Heq; [|by right].
  injection Hget as <-. subst k. left. split; [left|done].
Qed.

Lemma index_docs_same docs available key paragraphs :
  (∀ stem ps, (stem, ps) ∈ docs → extract_name_key stem = Some key →
              ps = paragraphs) →
  (∃ stem, (stem, paragraphs) ∈ docs ∧ extract_name_key stem = Some key)
  ∨ (∃ stem, dict_get available key = Some (stem, paragraphs)) →
  str_truthy key = true →
  ∃ stem, dict_get (index_docs docs available) key = Some (stem, paragraphs).
Proof.
  intros Hsame Hex Hkey. revert available Hex.
  induction docs as [|[stem ps] rest IH]; intros available Hex; simpl.
  - destruct Hex as [(stem & ?%elem_of_nil & _)|?]; done.
  - apply IH.
    { intros stem' ps' Hin. apply Hsame. by right. }
    destruct (decide (extract_name_key stem = Some key)) as [Hk|Hk].
    + right. rewrite Hk, Hkey. exists stem.
      rewrite dict_get_dict_set, decide_True by done.
      by rewrite (Hsame stem ps) by (done || left).
    + destruct Hex as [(stem' & [[= <- <-]|Hin]%elem_of_cons & Hk')|[stem' Hget]].
      * done.
      * left. by exists stem'.
      * right. exists stem'.
        destruct (extract_name_key stem) as [k|] eqn:Hstem; [|done].
        destruct (str_truthy k); [|done].
        rewrite dict_get_dict_set, decide_False; [done|congruence].
Qed.

Lemma load_children_get available children biographies id content :
  dict_get (load_children available children biographies) id = Some content →
  (∃ child key stem paragraphs,
     child ∈ children ∧ ind_id child = id
     ∧ extract_name_key (display_name child) = Some key
     ∧ dict_get available key = Some (stem, paragraphs)
     ∧ paragraphs ≠ []
     ∧ content = biography_html paragraphs)
  ∨ dict_get biographies id = Some content.
Proof.
  revert biographies. induction children as [|child rest IH];
    intros biographies; simpl; [by right|].
  intros [(c & key & stem & ps & Hin & ?)|Hget]%IH.
  { left. exists c, key, stem, ps. split; [by right|done]. }
  destruct (extract_name_key (display_name child)) as [key|] eqn:Hkey;
    [|by right].
  destruct (str_truthy key); [|by right].
  destruct (dict_get available key) as [[stem ps]|] eqn:Hdoc; [|by right].
  destruct ps as [|p ps]; [by right|].
  rewrite dict_get_dict_set in Hget. case_decide as Heq; [|by right].
  injection Hget as <-. left.
  exists child, key, stem, (p :: ps). split_and!; [left|done..].
Qed.

Lemma load_children_same available children biographies child key stem
    paragraphs :
  (∀ other, other ∈ children → ind_id other = ind_id child →
            extract_name_key (display_name other) = Some key) →
  dict_get available key = Some (stem, paragraphs) →
  str_truthy key = true → paragraphs ≠ [] →
  child ∈ children
  ∨ dict_get biographies (ind_id child) = Some (biography_html paragraphs) →
  dict_get (load_children available children biographies) (ind_id child)
  = Some (biography_html paragraphs).
Proof.
  intros Hsame Hdoc Hkey Hne. revert biographies.
  induction children as [|c rest IH]; intros biographies Hcase; simpl.
  - destruct Hcase as [?%elem_of_nil|?]; done.
  - apply IH; [intros other Hin; apply Hsame; by right|].
    destruct (decide (ind_id c = ind_id child)) as [Hid|Hid].
    + right. rewrite (Hsame c) by (done || left). rewrite Hkey, Hdoc.
      destruct paragraphs as [|p ps]; [done|].
      rewrite dict_get_dict_set. by rewrite decide_True.
    + destruct Hcase as [[->|Hin]%elem_of_cons|Hget]; [done|by left|].
      right.
      destruct (extract_name_key (display_name c)) as [k|]; [|done].
      destruct (str_truthy k); [|done].
      destruct (dict_get available k) as [[s ps]|]; [|done].
      destruct ps as [|p ps]; [done|].
      rewrite dict_get_dict_set. by rewrite decide_False.
Qed.

Lemma extract_name_key_truthy name key :
  extract_name_key name = Some key → str_truthy key = true.
Proof.
  unfold extract_name_key.
  destruct (length (name_tokens name) <? 2); [done|].
  pose proof (name_tokens_alpha name) as Halpha.
  destruct (name_tokens name) as [|t0 rest]; [done|].
  intros [= <-]. apply Forall_cons in Halpha as [[Ht0 _] _].
  destruct t0; done.
Qed.

Lemma biography_html_count c paragraphs :
  is_markup c = true →
  count_char c (biography_html paragraphs)
  = length paragraphs * count_char c "<p></p>".
Proof.
  intros Hc. unfold biography_html.
  induction paragraphs as [|p ps IH]; [done|].
  rewrite fmap_cons.
  change (?x :: ?l) with ([x] ++ l) at 1.
  rewrite join_empty_app, count_char_app, IH. cbn [join length].
  rewrite !count_char_app, count_char_escape by done.
  apply is_markup_cases in Hc as [->|[->|[->| ->]]]; simpl; lia.
Qed.

(** X18: A biography is stored under the id of a child only from a document
    whose stem has the name key of the child's display name and that has
    paragraphs, and it is those paragraphs, each escaped between [<p>] and
    [</p>], so that the text brings no markup of its own; where the
    documents of that key all hold the same paragraphs and the children of
    that id all have that key, the biography is stored.  The paragraphs
    taken from a document are never empty and carry no white space at
    either end. *)
Theorem load_biographies_spec (docs : list (string * list string))
    (children : list Individual) :
  (∀ id content,
     dict_get (load_biographies docs children) id = Some content →
     ∃ child key stem paragraphs,
       child ∈ children ∧ ind_id child = id
       ∧ extract_name_key (display_name child) = Some key
       ∧ (stem, paragraphs) ∈ docs
       ∧ extract_name_key stem = Some key
       ∧ paragraphs ≠ []
       ∧ content = biography_html paragraphs
       ∧ count_char "<" content = 2 * length paragraphs
       ∧ count_char ">" content = 2 * length paragraphs)
  ∧ (∀ child key stem paragraphs,
       child ∈ children →
       extract_name_key (display_name child) = Some key →
       (stem, paragraphs) ∈ docs →
       extract_name_key stem = Some key →
       paragraphs ≠ [] →
       (∀ stem' ps, (stem', ps) ∈ docs →
                    extract_name_key stem' = Some key → ps = paragraphs) →
       (∀ other, other ∈ children → ind_id other = ind_id child →
                 extract_name_key (display_name other) = Some key) →
       dict_get (load_biographies docs children) (ind_id child)
       = Some (biography_html paragraphs))
  ∧ (∀ paras paragraph,
       paragraph ∈ docx_paragraphs paras →
       paragraph ≠ ""
       ∧ str_head paragraph ≠ None
       ∧ (∀ c, str_head paragraph = Some c → is_space c = false)
       ∧ (∀ c, str_last paragraph = Some c → is_space c = false)).
Proof.
  unfold load_biographies. split_and!.
  - intros id content
      [(child & key & stem & ps & Hin & Hid & Hkey & Hdoc & Hne & ->)|?]
      %load_children_get; [|done].
    apply index_docs_get in Hdoc as [[Hdoc Hstem]|?]; [|done].
    exists child, key, stem, ps.
    split_and!; [done..| |].
    + rewrite biography_html_count by done. simpl. lia.
    + rewrite biography_html_count by done. simpl. lia.
  - intros child key stem paragraphs Hin Hkey Hdoc Hstem Hne Hdocs Hkids.
    pose proof (extract_name_key_truthy _ _ Hkey) as Htruthy.
    destruct (index_docs_same docs [] key paragraphs Hdocs) as [stem' Hget];
      [left; by exists stem|done|].
    eapply load_children_same; [done|done|done|done|by left].
  - intros paras paragraph [Ht Hin]%list_elem_of_filter.
    apply list_elem_of_fmap in Hin as (texts & -> & _).
    unfold paragraph_text in *.
    set (joined := join "" _) in *.
    split_and!.
    + intros Heq. by rewrite Heq in Ht.
    + destruct (strip_ws joined); done.
    + intros c Hc. by eapply str_head_strip.
    + intros c Hc. by eapply str_last_strip.
Qed.

Lemma load_biographies_spec_witness :
  dict_get
    (load_biographies
       [("Ann Lee Jr", ["Born in <Leeds>."; "A & B."]); ("notes", ["x"])]
       (dict_values lineage_individuals)) "@I1@"
  = Some (biography_html ["Born in <Leeds>."; "A & B."]).
Proof.
  apply (proj1 (proj2 (load_biographies_spec
           [("Ann Lee Jr", ["Born in <Leeds>."; "A & B."]); ("notes", ["x"])]
           (dict_values lineage_individuals)))
           (mkIndividual "@I1@" "Ann /Lee/" "" "" "F" (Some "@F1@") ["@F2@"]
              (mkEvent (Some "4 MAR 1930") (Some "Leeds")) new_Event)
           "ann lee" "Ann Lee Jr").
  - left.
  - reflexivity.
  - left.
  - reflexivity.
  - done.
  - intros stem' ps Hin Hk.
    apply elem_of_cons in Hin as [[= -> ->]|Hin]; [done|].
    apply elem_of_cons in Hin as [[= -> ->]|Hin]; [by vm_compute in Hk|].
    by apply elem_of_nil in Hin.
  - intros other Hin Hid.
    unfold dict_values, lineage_individuals in Hin. simpl in Hin.
    apply elem_of_cons in Hin as [->|Hin]; [reflexivity|].
    apply elem_of_cons in Hin as [->|Hin]; [discriminate Hid|].
    apply elem_of_cons in Hin as [->|Hin]; [discriminate Hid|].
    by apply elem_of_nil in Hin.
Defined.
